(** * better-sse: the framing/parsing pipeline and the resumable iterator

    A shallow embedding of [packages/better-sse/src]:
    - [transforms.ts]: [createSplitStream] and [createParseStream] (in the
      sources their listing follows the class, in [sse-stream.ts]);
    - [sse-stream.ts]: the class [BetterSSEStream] ([connect], [shouldRetry],
      [reconnect], [close], [next], [return]);
    - [index.ts]: [useSSEStream].
    [utils.ts] ([isValidString]) is not among the sources.

    JavaScript strings are sequences of code units; they are modelled by
    [string], each [ascii] standing for one code unit (the code only ever
    inspects the code units LF, ':', ' ', NUL, the sign characters and the
    decimal digits, and the bytes [Headers] strips or refuses; a code unit
    of 256 or more, which [Headers] refuses too, is not represented).  The
    numbers of the options and the retry values are integers ([Z]); the
    delays [reconnect] computes from them are doubles, which overflow to an
    infinity and may be [NaN] ([Delay]). *)

From Stdlib Require Import List String Ascii ZArith Lia Bool Arith.
Import ListNotations.

Local Open Scope string_scope.
Local Open Scope list_scope.

(* ================================================================== *)
(** ** JavaScript string primitives used by the source *)
(* ================================================================== *)

Module Js.

(** The line feed code unit, written ['\n'] in the source. *)
Definition LF : ascii := "010"%char.

(** [s.startsWith(p)] *)
Fixpoint startsWith (s p : string) {struct p} : bool :=
  match p with
  | EmptyString => true
  | String b p' =>
      match s with
      | EmptyString => false
      | String a s' => Ascii.eqb a b && startsWith s' p'
      end
  end.

(** [s.indexOf(c)] for a one-character needle: the index of the first
    occurrence, [-1] when there is none. *)
Fixpoint indexOf (s : string) (c : ascii) : Z :=
  match s with
  | EmptyString => (-1)%Z
  | String a s' =>
      if Ascii.eqb a c then 0%Z
      else let i := indexOf s' c in
           if (i <? 0)%Z then (-1)%Z else (i + 1)%Z
  end.

(** [s.includes(c)] for a one-character needle. *)
Fixpoint includes (s : string) (c : ascii) : bool :=
  match s with
  | EmptyString => false
  | String a s' => Ascii.eqb a c || includes s' c
  end.

(** Relative index resolution of [slice]: negative indices count from
    the end, everything is clamped to [0 .. length]. *)
Definition clampIndex (len i : Z) : Z :=
  if (i <? 0)%Z then Z.max (len + i) 0 else Z.min i len.

(** [s.slice(start, end)] *)
Definition slice (s : string) (start stop : Z) : string :=
  let len := Z.of_nat (String.length s) in
  let from := clampIndex len start in
  let to := clampIndex len stop in
  substring (Z.to_nat from) (Z.to_nat (Z.max (to - from) 0)) s.

(** [s.slice(start)] *)
Definition sliceFrom (s : string) (start : Z) : string :=
  slice s start (Z.of_nat (String.length s)).

(** Puts one code unit in front of the first piece of a split. *)
Definition push_front (c : ascii) (parts : list string) : list string :=
  match parts with
  | [] => [String c EmptyString]
  | p :: ps => String c p :: ps
  end.

(** [s.split(sep)] for a non-empty separator: the pieces between the
    leftmost, non-overlapping occurrences of [sep], never an empty array.
    [skip] counts the code units of a matched separator still to pass. *)
Fixpoint split_from (sep : string) (skip : nat) (s : string) : list string :=
  match s with
  | EmptyString => [EmptyString]
  | String c s' =>
      match skip with
      | S k => split_from sep k s'
      | O =>
          if startsWith s sep
          then EmptyString :: split_from sep (String.length sep - 1) s'
          else push_front c (split_from sep 0 s')
      end
  end.

Definition split (s sep : string) : list string := split_from sep 0 s.

(** [parts.join(sep)] *)
Definition join (parts : list string) (sep : string) : string :=
  String.concat sep parts.

(** White space as [String.prototype.trim] and [parseInt] see it, within
    the code units representable here: TAB, LF, VT, FF, CR, SP, NBSP. *)
Definition isWhiteSpace (c : ascii) : bool :=
  let n := nat_of_ascii c in
  ((9 <=? n)%nat && (n <=? 13)%nat) || (n =? 32)%nat || (n =? 160)%nat.

Fixpoint trimStart (s : string) : string :=
  match s with
  | EmptyString => EmptyString
  | String c s' => if isWhiteSpace c then trimStart s' else s
  end.

(** [s.trim() === ''] holds exactly when every code unit is white space. *)
Definition isBlank (s : string) : bool :=
  String.eqb (trimStart s) EmptyString.

Definition isDigit (c : ascii) : bool :=
  let n := nat_of_ascii c in (48 <=? n)%nat && (n <=? 57)%nat.

Definition digitValue (c : ascii) : Z := Z.of_nat (nat_of_ascii c - 48).

(** The value of the longest prefix of decimal digits, read left to
    right; [None] when that prefix is empty. *)
Fixpoint digitsPrefix (acc : option Z) (s : string) : option Z :=
  match s with
  | EmptyString => acc
  | String c s' =>
      if isDigit c
      then digitsPrefix
             (Some (match acc with
                    | None => digitValue c
                    | Some a => a * 10 + digitValue c
                    end)%Z) s'
      else acc
  end.

(** [Number.parseInt(s, 10)]: leading white space is skipped, one sign
    is accepted, then the longest run of decimal digits is read and
    whatever follows is disregarded; [None] stands for [NaN]. *)
Definition parseInt (s : string) : option Z :=
  match trimStart s with
  | String "-" rest => option_map Z.opp (digitsPrefix None rest)
  | String "+" rest => digitsPrefix None rest
  | other => digitsPrefix None other
  end.

End Js.

(* ================================================================== *)
(** ** Transform streams *)
(* ================================================================== *)

(** A [TransformStream<I, O>]: a private state, a [transform] callback which
    may enqueue any number of outputs for a chunk, and a [flush] callback
    run when the writable side closes. *)
Record TransformStream (I O : Type) : Type := {
  ts_state : Type;
  ts_start : ts_state;
  ts_transform : ts_state -> I -> ts_state * list O;
  ts_flush : ts_state -> list O
}.

Arguments ts_state {I O} _.
Arguments ts_start {I O} _.
Arguments ts_transform {I O} _ _ _.
Arguments ts_flush {I O} _ _.

(** Everything enqueued while the chunks [cs] are written one by one,
    together with the state reached. *)
Fixpoint feed {I O} (T : TransformStream I O) (st : ts_state T) (cs : list I)
  : ts_state T * list O :=
  match cs with
  | [] => (st, [])
  | c :: cs' =>
      let (st1, out1) := ts_transform T st c in
      let (st2, out2) := feed T st1 cs' in
      (st2, out1 ++ out2)
  end.

(** The readable side after the chunks were written and the stream closed. *)
Definition drain {I O} (T : TransformStream I O) (cs : list I) : list O :=
  let (st, out) := feed T (ts_start T) cs in out ++ ts_flush T st.

(** The readable side when the source fails after the chunks [cs]: the
    error is propagated and [flush] never runs. *)
Definition drain_unflushed {I O} (T : TransformStream I O) (cs : list I) : list O :=
  snd (feed T (ts_start T) cs).

(** [a.pipeThrough(b)] seen as one transform: what [a] enqueues is written
    to [b]; closing flushes [a] into [b] and then [b]. *)
Definition pipeThrough {I M O} (A : TransformStream I M) (B : TransformStream M O)
  : TransformStream I O :=
  {| ts_state := ts_state A * ts_state B;
     ts_start := (ts_start A, ts_start B);
     ts_transform := fun st c =>
       let (sa, mid) := ts_transform A (fst st) c in
       let (sb, out) := feed B (snd st) mid in
       ((sa, sb), out);
     ts_flush := fun st =>
       let (sb, out) := feed B (snd st) (ts_flush A (fst st)) in
       out ++ ts_flush B sb |}.

(* ================================================================== *)
(** ** transforms.ts *)
(* ================================================================== *)

(** The record delimiter ['\n\n']. *)
Definition DELIM : string := String Js.LF (String Js.LF EmptyString).

(** The line separator ['\n']. *)
Definition EOL : string := String Js.LF EmptyString.

(** Modelled from the spec: [isValidString] of [utils.ts], which is not among
    the sources.  The spec describes frames as "guaranteed non-empty after
    trimming" and says "whitespace-only frames are discarded". *)
Definition isValidString (s : string) : bool := negb (Js.isBlank s).

Section SplitStream.

(** The framer is developed for any frame filter; [isValidString] above
    is the instance the connection driver runs. *)
Variable valid : string -> bool.

(** [transform(chunk, controller)] of [createSplitStream]; the state is
    the variable [buffer]. *)
Definition split_transform (buffer chunk : string) : string * list string :=
  let buffer := (buffer ++ chunk)%string in
  let parts := Js.split buffer DELIM in
  (last parts EmptyString, filter valid (removelast parts)).

(** [flush(controller)] of [createSplitStream]. *)
Definition split_flush (buffer : string) : list string :=
  if valid buffer then [buffer] else [].

Definition createSplitStream : TransformStream string string :=
  {| ts_state := string;
     ts_start := EmptyString;
     ts_transform := split_transform;
     ts_flush := split_flush |}.

End SplitStream.

(** An [SSEMessage]; the optional fields are absent when [None]. *)
Module SSEMessage.
Record t : Type := mk {
  event : string;
  data : string;
  id : option string;
  retry : option Z
}.
End SSEMessage.

(** The NUL code unit, written ['\0'] in the source. *)
Definition NUL : ascii := "000"%char.

(** The local variables [event], [data], [id] and [retry] of the parser's
    [transform] callback. *)
Record ParseVars : Type := {
  v_event : string;
  v_data : list string;
  v_id : option string;
  v_retry : option Z
}.

Definition parse_start : ParseVars :=
  {| v_event := "message"; v_data := []; v_id := None; v_retry := None |}.

(** The statement [switch (field)] of the loop body. *)
Definition switch_field (field value : string) (vars : ParseVars) : ParseVars :=
  if String.eqb field "event" then
    {| v_event := value; v_data := v_data vars;
       v_id := v_id vars; v_retry := v_retry vars |}
  else if String.eqb field "data" then
    {| v_event := v_event vars; v_data := v_data vars ++ [value];
       v_id := v_id vars; v_retry := v_retry vars |}
  else if String.eqb field "id" then
    if negb (Js.includes value NUL)
    then {| v_event := v_event vars; v_data := v_data vars;
            v_id := Some value; v_retry := v_retry vars |}
    else vars
  else if String.eqb field "retry" then
    let retryValue := Js.parseInt value in
    match retryValue with
    | Some n =>
        {| v_event := v_event vars; v_data := v_data vars;
           v_id := v_id vars; v_retry := Some n |}
    | None => vars
    end
  else vars.

(** One turn of the loop [for (const line of lines)]. *)
Definition parse_line (vars : ParseVars) (line : string) : ParseVars :=
  if String.eqb line EmptyString || Js.startsWith line ":" then vars
  else
    let colonIndex := Js.indexOf line ":" in
    if (colonIndex =? -1)%Z then vars
    else
      let field := Js.slice line 0 colonIndex in
      let value := Js.sliceFrom line (colonIndex + 1) in
      let value := if Js.startsWith value " " then Js.sliceFrom value 1 else value in
      switch_field field value vars.

(** [transform(partChunk, controller)] of [createParseStream]: the messages
    enqueued for one raw frame (none or one). *)
Definition parse_transform (partChunk : string) : list SSEMessage.t :=
  let lines := Js.split partChunk EOL in
  let vars := fold_left parse_line lines parse_start in
  if (0 <? List.length (v_data vars))%nat
  then [ SSEMessage.mk (v_event vars) (Js.join (v_data vars) EOL)
                       (v_id vars) (v_retry vars) ]
  else [].

Definition createParseStream : TransformStream string SSEMessage.t :=
  {| ts_state := unit;
     ts_start := tt;
     ts_transform := fun st partChunk => (st, parse_transform partChunk);
     ts_flush := fun _ => [] |}.

(** The processed stream of [connect]: the decoded text of the body piped
    through the framer and the parser. *)
Definition processedStream (valid : string -> bool)
  : TransformStream string SSEMessage.t :=
  pipeThrough (createSplitStream valid) createParseStream.

(** Lines joined by line feeds, to write frames and documents down. *)
Definition unlines (ls : list string) : string := Js.join ls EOL.

(** The text carried by a sequence of chunks. *)
Definition text_of (chunks : list string) : string :=
  fold_right String.append EmptyString chunks.

(* ================================================================== *)
(** ** The wire grammar, stated on its own *)
(* ================================================================== *)

(** A line read as the wire format describes it, independently of the
    index arithmetic of the parser: a line [name:value] carries the field
    [name], and its value is what follows the colon less at most one
    leading space. *)
Module Wire.

Definition strip_space (v : string) : string :=
  match v with
  | String c rest => if Ascii.eqb c " " then rest else v
  | EmptyString => v
  end.

Fixpoint drop (n : nat) (s : string) : string :=
  match n, s with
  | S k, String _ s' => drop k s'
  | _, _ => s
  end.

(** The value of a line carrying the field [name], [None] for any
    other line. *)
Definition field_line (name line : string) : option string :=
  if Js.startsWith line (name ++ ":")%string
  then Some (strip_space (drop (String.length name + 1) line))
  else None.

(** The values of the lines carrying [name], in order of appearance. *)
Fixpoint field_values (name : string) (lines : list string) : list string :=
  match lines with
  | [] => []
  | line :: rest =>
      match field_line name line with
      | Some v => v :: field_values name rest
      | None => field_values name rest
      end
  end.

Definition data_values (lines : list string) : list string :=
  field_values "data" lines.

(** The value of the last line carrying [name] whose value is
    acceptable, [cur] when there is none: "last occurrence wins". *)
Fixpoint last_value (accept : string -> bool) (name : string)
    (lines : list string) (cur : option string) : option string :=
  match lines with
  | [] => cur
  | line :: rest =>
      match field_line name line with
      | Some v =>
          if accept v then last_value accept name rest (Some v)
          else last_value accept name rest cur
      | None => last_value accept name rest cur
      end
  end.

(** An [id] value is acceptable when it holds no NUL. *)
Definition id_ok (v : string) : bool := negb (Js.includes v NUL).

(** A [retry] value is taken when [parseInt] makes a number of it. *)
Definition retry_ok (v : string) : bool :=
  match Js.parseInt v with Some _ => true | None => false end.

Definition any_value (v : string) : bool := true.

(** A comment line, an empty line, or a line without a colon. *)
Definition inert (line : string) : bool :=
  String.eqb line EmptyString || Js.startsWith line ":"
  || negb (Js.includes line ":").

(** A line cut at its first colon: the text before it and the text
    after it. *)
Fixpoint cut (line : string) : option (string * string) :=
  match line with
  | EmptyString => None
  | String c rest =>
      if Ascii.eqb c ":" then Some (EmptyString, rest)
      else match cut rest with
           | Some (f, v) => Some (String c f, v)
           | None => None
           end
  end.

End Wire.

(* ================================================================== *)
(** ** sse-stream.ts: options, errors and the host environment *)
(* ================================================================== *)

(** A JavaScript number that may be [Infinity] ([maxRetries]). *)
Inductive Num : Type :=
| Finite (z : Z)
| Infinity.

Definition num_lt (a : Z) (b : Num) : bool :=
  match b with
  | Finite z => (a <? z)%Z
  | Infinity => true
  end.

(** A number as [reconnect] computes it and hands it to [setTimeout]: a
    double that is an integer, an infinity, or [NaN].  The numbers of the
    options are integers JavaScript represents exactly. *)
Inductive Delay : Type :=
| Millis (ms : Z)
| PlusInfinity
| MinusInfinity
| NaN.

Coercion Millis : Z >-> Delay.
Bind Scope Z_scope with Delay.

(** [Math.pow(2, k)] for a natural [k]: exact up to [2^1023], [Infinity]
    from [2^1024] on. *)
Definition pow2 (k : nat) : Delay :=
  if (Z.of_nat k <=? 1023)%Z then Millis (2 ^ Z.of_nat k) else PlusInfinity.

(** [a * d], [a] being an integer that a double holds exactly, so that the
    product with a power of two is exact until its magnitude reaches
    [2^1024], where it overflows to an infinity; [0 * Infinity] is
    [NaN]. *)
Definition times (a : Z) (d : Delay) : Delay :=
  match d with
  | Millis p =>
      let r := (a * p)%Z in
      if (2 ^ 1024 <=? r)%Z then PlusInfinity
      else if (r <=? - 2 ^ 1024)%Z then MinusInfinity
      else Millis r
  | PlusInfinity =>
      if (0 <? a)%Z then PlusInfinity
      else if (a <? 0)%Z then MinusInfinity
      else NaN
  | MinusInfinity =>
      if (0 <? a)%Z then MinusInfinity
      else if (a <? 0)%Z then PlusInfinity
      else NaN
  | NaN => NaN
  end.

(** [Math.min(d, m)], [m] being an integer. *)
Definition min_with (d : Delay) (m : Z) : Delay :=
  match d with
  | Millis r => Millis (Z.min r m)
  | PlusInfinity => Millis m
  | MinusInfinity => MinusInfinity
  | NaN => NaN
  end.

Record URL : Type := { protocol : string; href : string }.

(** The option [url: string | URL]. *)
Inductive UrlInput : Type :=
| UrlObject (u : URL)
| UrlString (s : string).

(** Request headers, names in lower case.  The order of the headers and
    the validation of names are not represented. *)
Definition Headers : Type := list (string * string).

Definition lower (c : ascii) : ascii :=
  let n := nat_of_ascii c in
  if (65 <=? n)%nat && (n <=? 90)%nat then ascii_of_nat (n + 32) else c.

Fixpoint lowercase (s : string) : string :=
  match s with
  | EmptyString => EmptyString
  | String c s' => String (lower c) (lowercase s')
  end.

(** The bytes [Headers] strips from both ends of a value (LF, CR, TAB,
    SP), and the bytes a value may not hold (NUL, LF, CR). *)
Definition isHttpWhitespace (c : ascii) : bool :=
  let n := nat_of_ascii c in
  (n =? 10)%nat || (n =? 13)%nat || (n =? 9)%nat || (n =? 32)%nat.

Definition isForbiddenByte (c : ascii) : bool :=
  let n := nat_of_ascii c in
  (n =? 0)%nat || (n =? 10)%nat || (n =? 13)%nat.

Fixpoint stripStart (v : string) : string :=
  match v with
  | EmptyString => EmptyString
  | String c v' => if isHttpWhitespace c then stripStart v' else v
  end.

Fixpoint stripEnd (v : string) : string :=
  match v with
  | EmptyString => EmptyString
  | String c v' =>
      match stripEnd v' with
      | EmptyString => if isHttpWhitespace c then EmptyString else String c EmptyString
      | rest => String c rest
      end
  end.

(** The value as [Headers] stores it. *)
Definition normalize (v : string) : string := stripEnd (stripStart v).

Fixpoint validValue (v : string) : bool :=
  match v with
  | EmptyString => true
  | String c v' => negb (isForbiddenByte c) && validValue v'
  end.

(** [new Headers(init)], for an init the constructor accepts: the names
    are put in lower case and the values normalized.  How the values of a
    name given twice are combined is not represented. *)
Definition new_Headers (init : option Headers) : Headers :=
  match init with
  | Some hs => map (fun kv => (lowercase (fst kv), normalize (snd kv))) hs
  | None => []
  end.

(** The list of headers with [name] set to [value]. *)
Definition headers_store (name value : string) (hs : Headers) : Headers :=
  filter (fun kv => negb (String.eqb (fst kv) (lowercase name))) hs
  ++ [(lowercase name, value)].

(** [headers.set(name, value)], for a name that is a valid one: the value
    is normalized, and the call throws a [TypeError] ([None]) when the
    normalized value holds a forbidden byte. *)
Definition headers_set (name value : string) (hs : Headers) : option Headers :=
  let value := normalize value in
  if validValue value then Some (headers_store name value hs) else None.

(** [headers.get(name)] *)
Definition headers_get (name : string) (hs : Headers) : option string :=
  option_map snd (find (fun kv => String.eqb (fst kv) (lowercase name)) hs).

(** The one [AbortController] an iterator may be given; the state of its
    signal lives in the environment, where the consumer and the iterator
    both reach it. *)
Inductive AbortController : Type := Controller.

Record SSEStreamOptions : Type := {
  url : UrlInput;
  withCredentials : option bool;
  abortController : option AbortController;
  retryStrategy : option bool;
  initialRetryDelay : option Z;
  maxRetryDelay : option Z;
  maxRetries : option Num;
  headers : option Headers;
  lastEventId : option string
}.

(** Truthiness of an optional boolean and of an optional string. *)
Definition truthy_bool (b : option bool) : bool :=
  match b with Some true => true | _ => false end.

Definition truthy_string (s : option string) : bool :=
  match s with
  | Some (String _ _) => true
  | _ => false
  end.

(** [a ?? b] *)
Definition nullish {A} (a : option A) (b : A) : A :=
  match a with Some x => x | None => b end.

(** What can be thrown or rejected.  All of them are instances of [Error]
    ([InvalidURL] and [InvalidHeaderValue] are [TypeError]s); the signal is
    always aborted with its default reason, the [DOMException] named
    [AbortError]. *)
Inductive JsError : Type :=
| AbortError
| FetchFailed
| InvalidURL
| InvalidHeaderValue
| HttpError (status : Z)
| BodyNull
| ReadFailed
| NoConnection.

Definition instanceof_Error (e : JsError) : bool := true.

Definition named_AbortError (e : JsError) : bool :=
  match e with AbortError => true | _ => false end.

(** How a response body ends: the server closes it, or the read fails. *)
Inductive BodyEnd : Type := BodyCloses | BodyFails.

(** A response body: the text chunks it delivers and how it ends.  When it
    fails, the failure overtakes the events still queued in the pipeline
    and they are dropped: [lost] is their number, which the timing of the
    environment decides. *)
Record Body : Type := { chunks : list string; ending : BodyEnd; lost : nat }.

Record Response : Type := { ok : bool; status : Z; body : option Body }.

(** What [fetch] settles with when it is not aborted. *)
Inductive FetchResult : Type :=
| Unreachable
| Responds (r : Response).

Record Request : Type := {
  req_url : URL;
  req_headers : Headers;
  req_credentials : string;
  req_signal : option AbortController
}.

(** A stream of messages as the iterator reads it: the messages that
    are still to reach the reader, how the stream ends after them, and
    whether it was cancelled. *)
Record MessageStream : Type := {
  queue : list SSEMessage.t;
  stream_end : BodyEnd;
  cancelled : bool
}.

(** What the iterator did, oldest first: a request sent, a backoff timer
    that ran out, a backoff timer cleared by the abort listener (with the
    delay handed to [setTimeout]), an event handed to the consumer. *)
Inductive Effect : Type :=
| Fetched (r : Request)
| TimerElapsed (delay : Delay)
| TimerCleared (delay : Delay)
| Yielded (value : SSEMessage.t).

(** The host environment: the server's answer to the k-th request, the
    number of requests made, the signal of the controller ([aborted]) and
    when it will fire by itself ([abortAfter = Some n]: during the
    suspension that follows [n] undisturbed ones), the streams created so
    far, the effects so far, and for every stream whether its body had
    been received to its end and closed when the signal was aborted
    ([received]): such a stream is out of the reach of the abort. *)
Record World : Type := {
  server : nat -> FetchResult;
  requests : nat;
  aborted : bool;
  abortAfter : option nat;
  streams : list MessageStream;
  trace : list Effect;
  received : nat -> bool
}.

(** The fields of a [BetterSSEStream]; [stream] and [reader] refer to a
    stream of the environment by its index. *)
Record BetterSSEStream : Type := {
  options : SSEStreamOptions;
  retryCount : nat;
  currentLastEventId : option string;
  stream : option nat;
  reader : option nat
}.

(** [new BetterSSEStream(options)] *)
Definition new_BetterSSEStream (o : SSEStreamOptions) : BetterSSEStream :=
  {| options := o; retryCount := 0; currentLastEventId := lastEventId o;
     stream := None; reader := None |}.

Definition set_retryCount (n : nat) (s : BetterSSEStream) : BetterSSEStream :=
  {| options := options s; retryCount := n;
     currentLastEventId := currentLastEventId s;
     stream := stream s; reader := reader s |}.

Definition set_currentLastEventId (v : option string) (s : BetterSSEStream)
  : BetterSSEStream :=
  {| options := options s; retryCount := retryCount s;
     currentLastEventId := v; stream := stream s; reader := reader s |}.

Definition set_stream (v : option nat) (s : BetterSSEStream) : BetterSSEStream :=
  {| options := options s; retryCount := retryCount s;
     currentLastEventId := currentLastEventId s;
     stream := v; reader := reader s |}.

Definition set_reader (v : option nat) (s : BetterSSEStream) : BetterSSEStream :=
  {| options := options s; retryCount := retryCount s;
     currentLastEventId := currentLastEventId s;
     stream := stream s; reader := v |}.

Definition log (e : Effect) (w : World) : World :=
  {| server := server w; requests := requests w; aborted := aborted w;
     abortAfter := abortAfter w; streams := streams w;
     trace := trace w ++ [e]; received := received w |}.

Definition count_request (w : World) : World :=
  {| server := server w; requests := S (requests w); aborted := aborted w;
     abortAfter := abortAfter w; streams := streams w; trace := trace w;
     received := received w |}.

Definition set_signal (a : bool) (after : option nat) (w : World) : World :=
  {| server := server w; requests := requests w; aborted := a;
     abortAfter := after; streams := streams w; trace := trace w;
     received := received w |}.

Definition set_streams (ss : list MessageStream) (w : World) : World :=
  {| server := server w; requests := requests w; aborted := aborted w;
     abortAfter := abortAfter w; streams := ss; trace := trace w;
     received := received w |}.

(** [controller.abort()] *)
Definition abort (w : World) : World := set_signal true None w.

(** [controller?.signal.aborted] *)
Definition signal_aborted (c : option AbortController) (w : World) : bool :=
  match c with
  | Some _ => aborted w
  | None => false
  end.

(** One suspension of the iterator (a pending [fetch], timer or read):
    tells whether the signal listened to fires meanwhile. *)
Definition suspend (c : option AbortController) (w : World) : bool * World :=
  match c with
  | None => (false, w)
  | Some _ =>
      match abortAfter w with
      | Some O => (true, abort w)
      | Some (S k) => (false, set_signal (aborted w) (Some k) w)
      | None => (false, w)
      end
  end.

(* ================================================================== *)
(** ** A state-and-exception monad for the methods of the class *)
(* ================================================================== *)

(** How a computation ends: normally, by throwing (an [async] method
    rejecting), or still pending when the fuel of the model ran out. *)
Inductive Completion (A : Type) : Type :=
| Normal (a : A)
| Throw (e : JsError)
| Pending.

Arguments Normal {A} a.
Arguments Throw {A} e.
Arguments Pending {A}.

(** The instance together with its environment. *)
Definition Sigma : Type := (BetterSSEStream * World)%type.

Definition M (A : Type) : Type := Sigma -> Completion A * Sigma.

Definition ret {A} (a : A) : M A := fun st => (Normal a, st).

Definition throw {A} (e : JsError) : M A := fun st => (Throw e, st).

Definition pending {A} : M A := fun st => (Pending, st).

Definition bind {A B} (m : M A) (k : A -> M B) : M B :=
  fun st =>
    match m st with
    | (Normal a, st') => k a st'
    | (Throw e, st') => (Throw e, st')
    | (Pending, st') => (Pending, st')
    end.

(** [try { m } catch (error) { handler }] *)
Definition try_catch {A} (m : M A) (handler : JsError -> M A) : M A :=
  fun st =>
    match m st with
    | (Throw e, st') => handler e st'
    | other => other
    end.

Definition gets {A} (f : BetterSSEStream -> A) : M A :=
  fun st => (Normal (f (fst st)), st).

Definition modify (f : BetterSSEStream -> BetterSSEStream) : M unit :=
  fun st => (Normal tt, (f (fst st), snd st)).

Definition when (b : bool) (m : M unit) : M unit := if b then m else ret tt.

Declare Scope js_scope.
Delimit Scope js_scope with js.
Notation "x <- m ;; k" := (bind m (fun x => k))
  (at level 61, m at next level, right associativity) : js_scope.
Notation "m ;; k" := (bind m (fun _ => k))
  (at level 61, right associativity) : js_scope.
Local Open Scope js_scope.

(* ================================================================== *)
(** ** The host operations the class calls *)
(* ================================================================== *)

(** [fetch(url, { headers, credentials, signal })]: rejected at once, and
    nothing sent, when the signal is already aborted; rejected with
    [AbortError] when the signal fires while the request is pending. *)
Definition fetch (r : Request) : M Response :=
  fun st =>
    let (s, w) := st in
    if signal_aborted (req_signal r) w then (Throw AbortError, (s, w))
    else
      let answer := server w (requests w) in
      let (fired, w') := suspend (req_signal r) (count_request (log (Fetched r) w)) in
      if fired then (Throw AbortError, (s, w'))
      else match answer with
           | Unreachable => (Throw FetchFailed, (s, w'))
           | Responds resp => (Normal resp, (s, w'))
           end.

(** The promise of [reconnect]: a timer of [delay] milliseconds and an
    abort listener; the listener clears the timer and rejects. *)
Definition timer (delay : Delay) : M unit :=
  fun st =>
    let (s, w) := st in
    let (fired, w') := suspend (abortController (options s)) w in
    if fired then (Throw AbortError, (s, log (TimerCleared delay) w'))
    else (Normal tt, (s, log (TimerElapsed delay) w')).

(** [response.body.pipeThrough(...)...]: the stream of messages made of a
    response body, holding the events that reach the reader.  A body that
    fails never gets flushed, and the last [lost] events made of it are
    dropped. *)
Definition pipe_body (b : Body) : MessageStream :=
  {| queue := match ending b with
              | BodyCloses => drain (processedStream isValidString) (chunks b)
              | BodyFails =>
                  let events := drain_unflushed (processedStream isValidString) (chunks b) in
                  firstn (List.length events - lost b) events
              end;
     stream_end := ending b;
     cancelled := false |}.

(** Registers a new stream and returns its index. *)
Definition new_stream (ms : MessageStream) : M nat :=
  fun st =>
    let (s, w) := st in
    (Normal (List.length (streams w)), (s, set_streams (streams w ++ [ms]) w)).

Fixpoint replace_nth {A} (n : nat) (x : A) (l : list A) : list A :=
  match l, n with
  | [], _ => []
  | _ :: l', O => x :: l'
  | y :: l', S k => y :: replace_nth k x l'
  end.

(** The result of [reader.read()]. *)
Inductive ReadResult : Type :=
| ReadValue (value : SSEMessage.t)
| ReadDone.

(** What [reader.read()] gets from the stream [h] as it is: the next
    queued event, or the end of the stream. *)
Definition deliver (h : nat) : M ReadResult :=
  fun st =>
    let (s, w) := st in
    match nth_error (streams w) h with
    | None => (Throw ReadFailed, (s, w))
    | Some ms =>
        if cancelled ms then (Normal ReadDone, (s, w))
        else match queue ms with
             | m :: rest =>
                 (Normal (ReadValue m),
                  (s, set_streams
                        (replace_nth h
                           {| queue := rest; stream_end := stream_end ms;
                              cancelled := false |} (streams w)) w))
             | [] =>
                 match stream_end ms with
                 | BodyCloses => (Normal ReadDone, (s, w))
                 | BodyFails => (Throw ReadFailed, (s, w))
                 end
             end
    end.

(** Whether the abort of the signal has made the stream [h] fail: the
    signal is aborted, the body was still open, and the stream was not
    cancelled before. *)
Definition struck (h : nat) (w : World) : bool :=
  aborted w && negb (received w h) &&
  match nth_error (streams w) h with
  | Some ms => negb (cancelled ms)
  | None => true
  end.

(** [reader.read()] on the stream [h].  [next] does not look at the signal;
    the stream does: aborting the request makes a stream whose body is
    still open fail with [AbortError], and a read that is pending when the
    signal fires is rejected with it. *)
Definition read (h : nat) : M ReadResult :=
  fun st =>
    let (s, w) := st in
    let c := abortController (options s) in
    if signal_aborted c w then
      if struck h w then (Throw AbortError, (s, w)) else deliver h (s, w)
    else
      let (fired, w') := suspend c w in
      if fired then (Throw AbortError, (s, w'))
      else deliver h (s, w').

(** A stream that has failed: its body failed and nothing is left to
    read before the failure. *)
Definition failed (ms : MessageStream) : bool :=
  negb (cancelled ms) &&
  match queue ms, stream_end ms with
  | [], BodyFails => true
  | _, _ => false
  end.

(** [reader.cancel()] on the stream [h]: it rejects with the stored error
    when the failure of the body has reached the stream, and otherwise
    discards what is queued and closes the stream.  In [close()] it is
    called in the turn of [abort()], before the abort reaches the
    stream. *)
Definition cancel (h : nat) : M unit :=
  fun st =>
    let (s, w) := st in
    match nth_error (streams w) h with
    | None => (Normal tt, (s, w))
    | Some ms =>
        if failed ms then (Throw ReadFailed, (s, w))
        else
          (Normal tt,
           (s, set_streams
                 (replace_nth h {| queue := []; stream_end := stream_end ms;
                                   cancelled := true |} (streams w)) w))
    end.

(** A promise nobody awaits: its rejection is not seen. *)
Definition unawaited (m : M unit) : M unit :=
  fun st =>
    match m st with
    | (_, st') => (Normal tt, st')
    end.

(** [controller?.abort()] *)
Definition abort_signal (c : option AbortController) : M unit :=
  fun st =>
    match c with
    | Some _ => (Normal tt, (fst st, abort (snd st)))
    | None => (Normal tt, st)
    end.

(** [controller?.signal.aborted] *)
Definition is_aborted (c : option AbortController) : M bool :=
  fun st => (Normal (signal_aborted c (snd st)), st).

(* ================================================================== *)
(** ** The class BetterSSEStream *)
(* ================================================================== *)

(** An [IteratorResult<SSEMessage>]. *)
Inductive IteratorResult : Type :=
| IterValue (value : SSEMessage.t)
| IterDone.

(** [shouldRetry()] *)
Definition shouldRetry (s : BetterSSEStream) : bool :=
  let maxRetries := nullish (maxRetries (options s)) Infinity in
  num_lt (Z.of_nat (retryCount s)) maxRetries.

(** The delay [reconnect] computes after [done] consecutive retries:
    [this.retryCount] is [done + 1] by then, and the exponent
    [this.retryCount - 1] is [done]. *)
Definition delay_after (o : SSEStreamOptions) (done : nat) : Delay :=
  let initialDelay := nullish (initialRetryDelay o) 1000%Z in
  let maxDelay := nullish (maxRetryDelay o) 30000%Z in
  min_with (times initialDelay (pow2 done)) maxDelay.

Section Class.

(** [new URL(text)] of the host, [None] when it throws. *)
Variable parseURL : string -> option URL.

(** The headers [connect] builds, [None] when [headers.set] throws. *)
Definition connect_headers (s : BetterSSEStream) : option Headers :=
  let headers := new_Headers (headers (options s)) in
  match headers_set "Accept" "text/event-stream" headers with
  | None => None
  | Some headers =>
      match headers_set "Cache-Control" "no-cache" headers with
      | None => None
      | Some headers =>
          if truthy_string (currentLastEventId s)
          then headers_set "Last-Event-ID"
                 (nullish (currentLastEventId s) EmptyString) headers
          else Some headers
      end
  end.

(** The headers [connect] sends, when it gets to send a request. *)
Definition request_headers (s : BetterSSEStream) : Headers :=
  nullish (connect_headers s) [].

(** [input instanceof URL ? input : new URL(input)] *)
Definition as_URL (input : UrlInput) : M URL :=
  match input with
  | UrlObject u => ret u
  | UrlString text =>
      match parseURL text with
      | Some u => ret u
      | None => throw InvalidURL
      end
  end.

(** The body of the [try] block of [connect]. *)
Definition connect_try : M unit :=
  opts <- gets options ;;
  url <- as_URL (url opts) ;;
  built <- gets connect_headers ;;
  headers <- match built with
             | Some headers => ret headers
             | None => throw InvalidHeaderValue
             end ;;
  response <- fetch {| req_url := url;
                       req_headers := headers;
                       req_credentials :=
                         if truthy_bool (withCredentials opts)
                         then "include" else "same-origin";
                       req_signal := abortController opts |} ;;
  if negb (ok response) then throw (HttpError (status response))
  else match body response with
       | None => throw BodyNull
       | Some b =>
           modify (set_retryCount 0) ;;
           h <- new_stream (pipe_body b) ;;
           modify (set_stream (Some h))
       end.

(** [connect()] and [reconnect()]; they call each other, and each call
    uses up one unit of fuel. *)
Fixpoint connect (fuel : nat) : M unit :=
  match fuel with
  | O => pending
  | S fuel' =>
      try_catch connect_try
        (fun error =>
           if instanceof_Error error then
             opts <- gets options ;;
             retry <- gets shouldRetry ;;
             if truthy_bool (retryStrategy opts) && retry
             then reconnect fuel'
             else throw error
           else ret tt)
  end
with reconnect (fuel : nat) : M unit :=
  match fuel with
  | O => pending
  | S fuel' =>
      done <- gets retryCount ;;
      modify (set_retryCount (S done)) ;;
      opts <- gets options ;;
      let delay := delay_after opts done in
      gone <- is_aborted (abortController opts) ;;
      (if gone then throw AbortError else ret tt) ;;
      timer delay ;;
      connect fuel'
  end.

(** [close()]; the promise of [cancel()] is not awaited. *)
Definition close : M unit :=
  opts <- gets options ;;
  abort_signal (abortController opts) ;;
  r <- gets reader ;;
  match r with Some h => unawaited (cancel h) | None => ret tt end ;;
  modify (set_stream None) ;;
  modify (set_reader None).

(** What the [try] block and the [catch] block of [next] come to:
    a result to return, or the call [return this.next()], which is made
    after the block is left. *)
Inductive Step : Type :=
| Return (r : IteratorResult)
| Again.

(** The [try] block of [next], the reader being [h]. *)
Definition next_try (reconnect_ : M unit) (h : nat) : M Step :=
  rd <- read h ;;
  match rd with
  | ReadDone =>
      modify (set_reader None) ;;
      opts <- gets options ;;
      retry <- gets shouldRetry ;;
      if truthy_bool (retryStrategy opts) && retry
      then modify (set_stream None) ;; reconnect_ ;; ret Again
      else ret (Return IterDone)
  | ReadValue value =>
      when (truthy_string (SSEMessage.id value))
        (modify (set_currentLastEventId (SSEMessage.id value))) ;;
      ret (Return (IterValue value))
  end.

(** The [catch] block of [next]. *)
Definition next_catch (reconnect_ : M unit) (error : JsError) : M Step :=
  if instanceof_Error error && negb (named_AbortError error) then
    opts <- gets options ;;
    retry <- gets shouldRetry ;;
    if truthy_bool (retryStrategy opts) && retry
    then
      modify (set_reader None) ;;
      modify (set_stream None) ;;
      reconnect_ ;;
      ret Again
    else
      modify (set_reader None) ;;
      ret (Return IterDone)
  else
    modify (set_reader None) ;;
    ret (Return IterDone).

(** The opening of [next]: get a reader, connecting first when there is
    no stream. *)
Definition next_reader (connect_ : M unit) : M nat :=
  r <- gets reader ;;
  match r with
  | Some h => ret h
  | None =>
      st <- gets stream ;;
      match st with None => connect_ | Some _ => ret tt end ;;
      st <- gets stream ;;
      match st with
      | None => throw NoConnection
      | Some h => modify (set_reader (Some h)) ;; ret h
      end
  end.

(** [next()] *)
Fixpoint next (fuel : nat) : M IteratorResult :=
  match fuel with
  | O => pending
  | S fuel' =>
      h <- next_reader (connect fuel') ;;
      step <- try_catch (next_try (reconnect fuel') h)
                        (next_catch (reconnect fuel')) ;;
      match step with
      | Return r => ret r
      | Again => next fuel'
      end
  end.

(** [return()] *)
Definition return_ : M IteratorResult :=
  r <- gets reader ;;
  match r with
  | Some h => cancel h ;; modify (set_reader None)
  | None => ret tt
  end ;;
  ret IterDone.

(** *** index.ts *)

(** The errors [useSSEStream] throws. *)
Inductive ConfigError : Type :=
| UrlRequired
| InvalidSSEUrl
| NegativeInitialRetryDelay
| MaxRetryDelayBelowInitial
| NegativeMaxRetries.

(** [useSSEStream(options)] *)
Definition useSSEStream (o : SSEStreamOptions) : ConfigError + BetterSSEStream :=
  match url o with
  | UrlString EmptyString => inl UrlRequired
  | _ =>
      match match url o with
            | UrlObject u => Some u
            | UrlString text => parseURL text
            end with
      | None => inl InvalidSSEUrl
      | Some u =>
          if negb (String.eqb (protocol u) "http:" || String.eqb (protocol u) "https:")
          then inl InvalidSSEUrl
          else
            let normalizedOptions :=
              {| url := UrlObject u;
                 withCredentials := Some (nullish (withCredentials o) false);
                 retryStrategy := Some (nullish (retryStrategy o) true);
                 initialRetryDelay := Some (nullish (initialRetryDelay o) 1000%Z);
                 maxRetryDelay := Some (nullish (maxRetryDelay o) 30000%Z);
                 maxRetries := Some (nullish (maxRetries o) Infinity);
                 abortController := abortController o;
                 headers := headers o;
                 lastEventId := lastEventId o |} in
            let initial := nullish (initialRetryDelay normalizedOptions) 0%Z in
            let maximal := nullish (maxRetryDelay normalizedOptions) 0%Z in
            if (initial <? 0)%Z then inl NegativeInitialRetryDelay
            else if (maximal <? initial)%Z then inl MaxRetryDelayBelowInitial
            else if match nullish (maxRetries normalizedOptions) Infinity with
                    | Finite z => (z <? 0)%Z
                    | Infinity => false
                    end
            then inl NegativeMaxRetries
            else inr (new_BetterSSEStream normalizedOptions)
      end
  end.

(** *** The consumer *)

(** What a consumer may do with an iterator and its controller. *)
Inductive Call : Type :=
| Pull      (* await sse.next() *)
| Close     (* sse.close() *)
| Finish    (* await sse.return() *)
| Abort.    (* controller.abort(), when a controller was supplied *)

Definition yielded (r : IteratorResult) : M unit :=
  fun st =>
    match r with
    | IterValue value => (Normal tt, (fst st, log (Yielded value) (snd st)))
    | IterDone => (Normal tt, st)
    end.

(** One call of the consumer; a pull notes the event it got. *)
Definition perform (fuel : nat) (c : Call) : M IteratorResult :=
  match c with
  | Pull => r <- next fuel ;; yielded r ;; ret r
  | Close => close ;; ret IterDone
  | Finish => return_
  | Abort => opts <- gets options ;; abort_signal (abortController opts) ;; ret IterDone
  end.

(** A sequence of calls, each awaited before the following one is made;
    the completions of the calls and the state reached. *)
Fixpoint session (fuel : nat) (calls : list Call) (st : Sigma)
  : list (Completion IteratorResult) * Sigma :=
  match calls with
  | [] => ([], st)
  | c :: calls' =>
      let (r, st') := perform fuel c st in
      let (rs, st'') := session fuel calls' st' in
      (r :: rs, st'')
  end.

End Class.

(* ================================================================== *)
(** ** The cursor, read off the history of an iterator *)
(* ================================================================== *)

Definition option_string_eqb (a b : option string) : bool :=
  match a, b with
  | Some x, Some y => String.eqb x y
  | None, None => true
  | _, _ => false
  end.

(** The cursor after an event was handed over, for a test [has_id] of
    what counts as an event carrying an id. *)
Definition advance (has_id : option string -> bool) (cur : option string)
    (value : SSEMessage.t) : option string :=
  if has_id (SSEMessage.id value) then SSEMessage.id value else cur.

(** The cursor a history leads to, starting from [cur]: the id of the most
    recently yielded event carrying an id. *)
Fixpoint cursor_after (has_id : option string -> bool) (cur : option string)
    (history : list Effect) : option string :=
  match history with
  | [] => cur
  | Yielded value :: rest => cursor_after has_id (advance has_id cur value) rest
  | _ :: rest => cursor_after has_id cur rest
  end.

(** An id that is present, empty or not ([id !== undefined]). *)
Definition present (v : option string) : bool :=
  match v with Some _ => true | None => false end.

(** The [Last-Event-ID] header a request is to carry when the cursor is
    [cur]: the cursor as [Headers] stores it when there is one to send,
    otherwise whatever the custom headers of the options say. *)
Definition cursor_header (o : SSEStreamOptions) (cur : option string) : option string :=
  if truthy_string cur then option_map normalize cur
  else headers_get "Last-Event-ID" (new_Headers (headers o)).

(** A cursor [headers.set] accepts: none to send, or one whose normalized
    value holds no forbidden byte. *)
Definition cursor_accepted (cur : option string) : bool :=
  negb (truthy_string cur) || validValue (normalize (nullish cur EmptyString)).

(** Every request of the history was sent with a cursor [headers.set]
    accepts and carries the cursor reached when it was sent. *)
Fixpoint requests_carry (o : SSEStreamOptions) (cur : option string)
    (history : list Effect) : bool :=
  match history with
  | [] => true
  | Fetched r :: rest =>
      cursor_accepted cur
      && option_string_eqb (headers_get "Last-Event-ID" (req_headers r))
                           (cursor_header o cur)
      && requests_carry o cur rest
  | Yielded value :: rest =>
      requests_carry o (advance truthy_string cur value) rest
  | _ :: rest => requests_carry o cur rest
  end.

(** The delays of the backoff timers that ran out, and the number of
    requests sent, in a history. *)
Fixpoint delays (history : list Effect) : list Delay :=
  match history with
  | [] => []
  | TimerElapsed d :: rest => d :: delays rest
  | _ :: rest => delays rest
  end.

Fixpoint sent (history : list Effect) : nat :=
  match history with
  | [] => 0
  | Fetched _ :: rest => S (sent rest)
  | _ :: rest => sent rest
  end.

(* ================================================================== *)
(** ** Relations the proofs are stated with *)
(* ================================================================== *)

(** Splitting a text in two pieces [x ++ y]: the complete frames of [x]
    stay what they are, and the incomplete tail of [x] is split again
    together with [y]. *)
Definition resumable (x : string) : Prop :=
  forall y,
    Js.split (x ++ y)%string DELIM =
    removelast (Js.split x DELIM)
    ++ Js.split (last (Js.split x DELIM) EmptyString ++ y)%string DELIM.


(** A request carrying the headers [connect] builds from the instance. *)
Definition carries (s : BetterSSEStream) (e : Effect) : Prop :=
  match e with
  | Fetched r => connect_headers s = Some (req_headers r)
  | Yielded _ => False
  | _ => True
  end.

(** From one state to a later one the options are the same, the history
    grew only by timers and by requests carrying the headers of the
    earlier cursor, and the cursor moved on by the event [v] handed over,
    if any. *)
Definition moved (v : option SSEMessage.t) (st st' : Sigma) : Prop :=
  options (fst st') = options (fst st) /\
  currentLastEventId (fst st') =
    match v with
    | Some value => advance truthy_string (currentLastEventId (fst st)) value
    | None => currentLastEventId (fst st)
    end /\
  exists new,
    trace (snd st') = trace (snd st) ++ new /\ Forall (carries (fst st)) new.

(** The same with the cursor where it was. *)
Definition steady (st st' : Sigma) : Prop := moved None st st'.


(** The event a block of [next] hands over, if any. *)
Definition step_value (c : Completion Step) : option SSEMessage.t :=
  match c with
  | Normal (Return (IterValue value)) => Some value
  | _ => None
  end.

Definition pull_value (c : Completion IteratorResult) : option SSEMessage.t :=
  match c with
  | Normal (IterValue value) => Some value
  | _ => None
  end.

(** A call that neither moves the cursor nor adds to the history. *)
Definition quiet (st st' : Sigma) : Prop :=
  options (fst st') = options (fst st) /\
  currentLastEventId (fst st') = currentLastEventId (fst st) /\
  trace (snd st') = trace (snd st).

(** The cursor is the one the history leads to, and every request of the
    history carried the cursor of its time. *)
Definition tracked (o : SSEStreamOptions) (st : Sigma) : Prop :=
  options (fst st) = o /\
  currentLastEventId (fst st)
    = cursor_after truthy_string (lastEventId o) (trace (snd st)) /\
  requests_carry o (lastEventId o) (trace (snd st)) = true.


(** The [Last-Event-ID] headers of the requests of a history. *)
Fixpoint last_event_ids (history : list Effect) : list (option string) :=
  match history with
  | [] => []
  | Fetched r :: rest =>
      headers_get "Last-Event-ID" (req_headers r) :: last_event_ids rest
  | _ :: rest => last_event_ids rest
  end.

(* ================================================================== *)
(** ** Situations of a connection attempt *)
(* ================================================================== *)

(** No abort can disturb the iterator: it has no controller, or the signal
    is neither aborted nor going to fire. *)
Definition calm (s : BetterSSEStream) (w : World) : bool :=
  match abortController (options s) with
  | None => true
  | Some _ =>
      negb (aborted w) && match abortAfter w with None => true | Some _ => false end
  end.

(** The error [connect] raises for an answer of the server, [None] for an
    answer it accepts. *)
Definition failure (a : FetchResult) : option JsError :=
  match a with
  | Unreachable => Some FetchFailed
  | Responds r =>
      if negb (ok r) then Some (HttpError (status r))
      else match body r with
           | None => Some BodyNull
           | Some _ => None
           end
  end.

(** The URL [connect] sends its request to: the one of the options, when
    [new URL] accepts it and [headers.set] accepts the cursor; [None] when
    one of them throws, so that no request is sent. *)
Definition target (parseURL : string -> option URL) (s : BetterSSEStream) : option URL :=
  match connect_headers s with
  | None => None
  | Some _ =>
      match url (options s) with
      | UrlObject u => Some u
      | UrlString text => parseURL text
      end
  end.

(** The request [connect] sends to the URL [u]. *)
Definition request_to (u : URL) (s : BetterSSEStream) : Request :=
  {| req_url := u;
     req_headers := request_headers s;
     req_credentials :=
       if truthy_bool (withCredentials (options s)) then "include" else "same-origin";
     req_signal := abortController (options s) |}.

(** Whether a retry is permitted: [this.options.retryStrategy &&
    this.shouldRetry()]. *)
Definition may_retry (s : BetterSSEStream) : bool :=
  truthy_bool (retryStrategy (options s)) && shouldRetry s.

(** The history after [connect] sent its request. *)
Definition requested (u : URL) (s : BetterSSEStream) (w : World) : World :=
  count_request (log (Fetched (request_to u s)) w).



(* ================================================================== *)
(** ** Scenarios *)
(* ================================================================== *)

(** Concrete options, servers and hosts to run the iterator on. *)
Module Scenario.

Definition endpoint : URL :=
  {| protocol := "http:"; href := "http://localhost:3000/events" |}.

(** A host whose [new URL] accepts the texts beginning with a scheme
    it knows. *)
Definition parseURL (text : string) : option URL :=
  if Js.startsWith text "http://" then Some {| protocol := "http:"; href := text |}
  else if Js.startsWith text "https://" then Some {| protocol := "https:"; href := text |}
  else if Js.startsWith text "ftp://" then Some {| protocol := "ftp:"; href := text |}
  else None.

(** The options [{ url, retryStrategy: true, maxRetries, abortController }]. *)
Definition opts (limit : option Num) (controller : option AbortController)
  : SSEStreamOptions :=
  {| url := UrlObject endpoint; withCredentials := None;
     abortController := controller; retryStrategy := Some true;
     initialRetryDelay := None; maxRetryDelay := None;
     maxRetries := limit; headers := None; lastEventId := None |}.

(** The options [{ url, retryStrategy: true, initialRetryDelay: 0,
    maxRetryDelay: 0, maxRetries }]. *)
Definition zero_delays (limit : option Num) : SSEStreamOptions :=
  {| url := UrlObject endpoint; withCredentials := None;
     abortController := None; retryStrategy := Some true;
     initialRetryDelay := Some 0%Z; maxRetryDelay := Some 0%Z;
     maxRetries := limit; headers := None; lastEventId := None |}.

(** The options [{ url, retryStrategy: false, lastEventId }]. *)
Definition resuming_from (cursor : string) : SSEStreamOptions :=
  {| url := UrlObject endpoint; withCredentials := None;
     abortController := None; retryStrategy := Some false;
     initialRetryDelay := None; maxRetryDelay := None;
     maxRetries := None; headers := None; lastEventId := Some cursor |}.

(** The options [{ url }] handed to [useSSEStream]. *)
Definition bare : SSEStreamOptions :=
  {| url := UrlString "http://localhost:3000/events"; withCredentials := None;
     abortController := None; retryStrategy := None;
     initialRetryDelay := None; maxRetryDelay := None;
     maxRetries := None; headers := None; lastEventId := None |}.

(** A host that has seen nothing yet; the signal fires by itself as
    [firing] says, and the bodies stay open while they are read. *)
Definition host (srv : nat -> FetchResult) (firing : option nat) : World :=
  {| server := srv; requests := 0; aborted := false; abortAfter := firing;
     streams := []; trace := []; received := fun _ => false |}.

(** A 200 response whose body delivers the records [records], one chunk
    each, and ends as [e] says. *)
Definition record (ls : list string) : string :=
  (unlines ls ++ DELIM)%string.

Definition answers (records : list (list string)) (e : BodyEnd) : FetchResult :=
  Responds {| ok := true; status := 200%Z;
              body := Some {| chunks := map record records; ending := e;
                              lost := 0 |} |}.

Definition refuses : nat -> FetchResult := fun _ => Unreachable.

(** Fails [n] times, then answers with one record. *)
Definition recovers (n : nat) : nat -> FetchResult :=
  fun k => if (k <? n)%nat then Unreachable
           else answers [["data: back"]] BodyCloses.

(** Three connections: an event with id 42, then one with id 50, then
    one without id. *)
Definition resuming : nat -> FetchResult :=
  fun k => match k with
           | 0 => answers [["id: 42"; "data: a"]] BodyCloses
           | 1 => answers [["id: 50"; "data: b"]] BodyCloses
           | _ => answers [["data: c"]] BodyCloses
           end.

(** One connection: an event with id 42, then one with an empty id. *)
Definition blank_id : nat -> FetchResult :=
  fun _ => answers [["id: 42"; "data: a"]; ["id:"; "data: b"]] BodyCloses.

End Scenario.

(* ================================================================== *)
(** ** Further notions the properties are stated with *)
(* ================================================================== *)

(** [s.includes(p)] for any needle. *)
Fixpoint includes_text (s p : string) : bool :=
  Js.startsWith s p ||
  match s with
  | EmptyString => false
  | String _ s' => includes_text s' p
  end.

(** A line that begins with one of the four field names and a colon. *)
Definition recognized (line : string) : bool :=
  Js.startsWith line "event:" || Js.startsWith line "data:"
  || Js.startsWith line "id:" || Js.startsWith line "retry:".

(** The instance after a pull returned [value]. *)
Definition after_value (value : SSEMessage.t) (s : BetterSSEStream) : BetterSSEStream :=
  if truthy_string (SSEMessage.id value)
  then set_currentLastEventId (SSEMessage.id value) s
  else s.

(** The environment after one message was read from the stream [h]. *)
Definition after_read (h : nat) (ms : MessageStream) (rest : list SSEMessage.t)
    (w : World) : World :=
  set_streams
    (replace_nth h {| queue := rest; stream_end := stream_end ms; cancelled := false |}
       (streams w)) w.

(** A request with the headers every connection is to carry: the two
    fixed ones, and under every name but these and [Last-Event-ID] what
    the custom headers of the options [o] say. *)
Definition sse_headers (o : SSEStreamOptions) (e : Effect) : Prop :=
  match e with
  | Fetched r =>
      headers_get "Accept" (req_headers r) = Some "text/event-stream"%string /\
      headers_get "Cache-Control" (req_headers r) = Some "no-cache"%string /\
      forall name,
        lowercase name <> "accept"%string ->
        lowercase name <> "cache-control"%string ->
        lowercase name <> "last-event-id"%string ->
        headers_get name (req_headers r) = headers_get name (new_Headers (headers o))
  | _ => True
  end.

(* ================================================================== *)
(** * Properties *)
(* ================================================================== *)

(** ** Strings *)

Lemma append_nil_r_string (s : string) : (s ++ EmptyString)%string = s.
Proof. induction s as [|c s IH]; cbn [append]; [reflexivity | now rewrite IH]. Qed.

Lemma append_assoc_string (a b c : string) :
  ((a ++ b) ++ c)%string = (a ++ (b ++ c))%string.
Proof. induction a as [|x a IH]; cbn [append]; [reflexivity | now rewrite IH]. Qed.

(** ** Splitting on the record delimiter *)

Section DelimSplit.

Import Js.

Lemma split_from_not_nil sep k s : split_from sep k s <> [].
Proof.
  revert k; induction s as [|c s IH]; intros k; cbn [split_from].
  - discriminate.
  - destruct k as [|k]; [|apply IH].
    destruct (startsWith (String c s) sep); [discriminate|].
    destruct (split_from sep 0 s); discriminate.
Qed.

Lemma split_not_nil s sep : split s sep <> [].
Proof. apply split_from_not_nil. Qed.

Lemma startsWith_delim c d s :
  startsWith (String c (String d s)) DELIM = Ascii.eqb c LF && Ascii.eqb d LF.
Proof. simpl. now rewrite andb_true_r. Qed.

Lemma startsWith_delim_short c :
  startsWith (String c EmptyString) DELIM = false.
Proof. simpl. apply andb_false_r. Qed.

Lemma split_delim_here s :
  split (String LF (String LF s)) DELIM = EmptyString :: split s DELIM.
Proof. reflexivity. Qed.

Lemma split_delim_later c s :
  startsWith (String c s) DELIM = false ->
  split (String c s) DELIM = push_front c (split s DELIM).
Proof.
  intros H. unfold split. cbn [split_from]. now rewrite H.
Qed.

(** The first piece of a split either is empty because the text opens
    with the delimiter, or opens with the first code unit of the text. *)
Lemma split_delim_head d s :
  (exists ps, ps <> [] /\ split (String d s) DELIM = EmptyString :: ps) \/
  (exists p ps, split (String d s) DELIM = String d p :: ps).
Proof.
  destruct (startsWith (String d s) DELIM) eqn:E.
  - left. unfold split. cbn [split_from]. rewrite E.
    eexists; split; [|reflexivity]. apply split_from_not_nil.
  - right. rewrite (split_delim_later _ _ E).
    destruct (split s DELIM) as [|p ps] eqn:Es.
    + now apply split_not_nil in Es.
    + now exists p, ps.
Qed.

Lemma resumable_empty : resumable EmptyString.
Proof. intros y. reflexivity. Qed.

Lemma resumable_push c d s :
  startsWith (String c (String d s)) DELIM = false ->
  resumable (String d s) -> resumable (String c (String d s)).
Proof.
  intros Hc IH y.
  assert (Hcy : startsWith (String c (String d s ++ y)) DELIM = false).
  { cbn [append]. now rewrite startsWith_delim in *. }
  change (String c (String d s) ++ y)%string with (String c (String d s ++ y)).
  rewrite (split_delim_later _ _ Hcy), (split_delim_later _ _ Hc), IH.
  destruct (split_delim_head d s) as [(ps & Hne & E) | (p & ps & E)]; rewrite E.
  - destruct ps as [|q ps]; [contradiction|]. reflexivity.
  - destruct ps as [|q ps].
    + cbn [push_front removelast last app].
      change (String c (String d p) ++ y)%string with (String c (String d (p ++ y))).
      rewrite split_delim_later; [reflexivity|].
      now rewrite startsWith_delim in *.
    + reflexivity.
Qed.

Lemma resumable_all x : resumable x.
Proof.
  enough (H : resumable x /\ forall c, resumable (String c x)) by apply H.
  induction x as [|d x [IH1 IH2]].
  - split; [apply resumable_empty|]. intros c y.
    cbn [append]. rewrite (split_delim_later c EmptyString (startsWith_delim_short c)).
    reflexivity.
  - split; [apply IH2|]. intros c.
    destruct (startsWith (String c (String d x)) DELIM) eqn:E.
    + rewrite startsWith_delim in E. apply andb_true_iff in E as [Ec Ed].
      apply Ascii.eqb_eq in Ec, Ed. subst c d. intros y.
      change (String LF (String LF x) ++ y)%string
        with (String LF (String LF (x ++ y))).
      rewrite !split_delim_here, IH1.
      destruct (split x DELIM) as [|p ps] eqn:Es; [now apply split_not_nil in Es|].
      reflexivity.
    + now apply resumable_push.
Qed.

(** The piece kept in the buffer holds no delimiter. *)
Lemma split_last_whole x :
  split (last (split x DELIM) EmptyString) DELIM = [last (split x DELIM) EmptyString].
Proof.
  enough (H : (split (last (split x DELIM) EmptyString) DELIM
               = [last (split x DELIM) EmptyString]) /\
              forall c, split (last (split (String c x) DELIM) EmptyString) DELIM
                        = [last (split (String c x) DELIM) EmptyString]) by apply H.
  induction x as [|d x [IH1 IH2]].
  - split; [reflexivity|]. intros c.
    rewrite (split_delim_later c EmptyString (startsWith_delim_short c)).
    change (split EmptyString DELIM) with [EmptyString]. cbn [push_front last].
    now rewrite (split_delim_later c EmptyString (startsWith_delim_short c)).
  - split; [apply IH2|]. intros c.
    destruct (startsWith (String c (String d x)) DELIM) eqn:E.
    + rewrite startsWith_delim in E. apply andb_true_iff in E as [Ec Ed].
      apply Ascii.eqb_eq in Ec, Ed. subst c d.
      rewrite split_delim_here.
      destruct (split x DELIM) as [|p ps] eqn:Es; [now apply split_not_nil in Es|].
      exact IH1.
    + rewrite (split_delim_later _ _ E).
      specialize (IH2 d).
      destruct (split_delim_head d x) as [(ps & Hne & E1) | (p & ps & E1)];
        rewrite E1 in *.
      * destruct ps as [|q ps]; [contradiction|]. exact IH2.
      * destruct ps as [|q ps]; [|exact IH2].
        cbn [push_front last] in *.
        rewrite split_delim_later; [now rewrite IH2|].
        now rewrite startsWith_delim in *.
Qed.

End DelimSplit.

(** ** Transform streams compose *)

Lemma feed_app {I O : Type} (T : TransformStream I O) st xs ys :
  feed T st (xs ++ ys) =
  let (s1, o1) := feed T st xs in
  let (s2, o2) := feed T s1 ys in
  (s2, o1 ++ o2).
Proof.
  revert st; induction xs as [|x xs IH]; intros st; cbn [feed app].
  - now destruct (feed T st ys).
  - destruct (ts_transform T st x) as [s1 o1]. rewrite IH.
    destruct (feed T s1 xs) as [s2 o2], (feed T s2 ys) as [s3 o3].
    now rewrite app_assoc.
Qed.

Section Streams.

Context {I M O : Type}.

Lemma feed_pipeThrough (A : TransformStream I M) (B : TransformStream M O) sa sb cs :
  feed (pipeThrough A B) (sa, sb) cs =
  let (sa', mid) := feed A sa cs in
  let (sb', out) := feed B sb mid in
  ((sa', sb'), out).
Proof.
  revert sa sb; induction cs as [|c cs IH]; intros sa sb.
  - reflexivity.
  - cbn [feed pipeThrough ts_transform fst snd].
    destruct (ts_transform A sa c) as [sa1 mid1].
    destruct (feed B sb mid1) as [sb1 out1] eqn:E1.
    rewrite IH. destruct (feed A sa1 cs) as [sa2 mid2].
    rewrite feed_app, E1.
    now destruct (feed B sb1 mid2).
Qed.

(** Piping through [A] then [B] and closing is draining [B] on what
    draining [A] gives. *)
Lemma drain_pipeThrough (A : TransformStream I M) (B : TransformStream M O) cs :
  drain (pipeThrough A B) cs = drain B (drain A cs).
Proof.
  unfold drain. change (ts_start (pipeThrough A B)) with (ts_start A, ts_start B).
  rewrite feed_pipeThrough.
  destruct (feed A (ts_start A) cs) as [sa mid].
  rewrite feed_app.
  destruct (feed B (ts_start B) mid) as [sb out].
  cbn [pipeThrough ts_flush fst snd].
  destruct (feed B sb (ts_flush A sa)) as [sb' out'].
  now rewrite app_assoc.
Qed.

End Streams.

(** ** The framer emits the frames of the whole text *)

Section Framer.

Variable valid : string -> bool.

Lemma feed_createSplitStream cs : forall buffer,
  Js.split buffer DELIM = [buffer] ->
  (let (rest, out) := feed (createSplitStream valid) buffer cs in
   out ++ split_flush valid rest)
  = filter valid (Js.split (buffer ++ text_of cs)%string DELIM).
Proof.
  induction cs as [|c cs IH]; intros buffer Hb.
  - cbn [feed text_of fold_right app]. rewrite append_nil_r_string, Hb.
    reflexivity.
  - cbn [feed createSplitStream ts_transform]. unfold split_transform.
    specialize (IH _ (split_last_whole (buffer ++ c)%string)).
    destruct (feed (createSplitStream valid)
                (last (Js.split (buffer ++ c)%string DELIM) EmptyString) cs)
      as [rest out].
    rewrite <- app_assoc, IH, <- filter_app.
    cbn [text_of fold_right]. fold (text_of cs).
    now rewrite <- append_assoc_string, (resumable_all (buffer ++ c)%string).
Qed.

Lemma drain_createSplitStream cs :
  drain (createSplitStream valid) cs
  = filter valid (Js.split (text_of cs) DELIM).
Proof.
  unfold drain.
  exact (feed_createSplitStream cs EmptyString eq_refl).
Qed.

End Framer.

(** *** C1: chunk boundaries do not matter *)

(** C1.  For every document and every way of cutting it into text chunks
    (the cuts may fall anywhere, inside the delimiter or inside a field
    name), writing the chunks one at a time through the split stream piped
    into the parse stream yields exactly the events obtained by writing the
    whole document as a single chunk.  It holds whatever frame filter
    [isValidString] is. *)
Theorem chunking_invariance (valid : string -> bool) (doc : string) (chunks : list string) :
  text_of chunks = doc ->
  drain (processedStream valid) chunks = drain (processedStream valid) [doc].
Proof.
  intros <-. unfold processedStream.
  rewrite !drain_pipeThrough, !drain_createSplitStream.
  cbn [text_of fold_right]. now rewrite append_nil_r_string.
Qed.

(** A document of two records cut inside the delimiter and inside the
    field name [data]. *)
Lemma chunking_invariance_witness :
  drain (processedStream isValidString)
    ["data: a"; EOL; (EOL ++ "da")%string; "ta: b"; DELIM]
  = drain (processedStream isValidString)
      [unlines ["data: a"; ""; "data: b"; ""; ""]].
Proof.
  apply (chunking_invariance isValidString
           (unlines ["data: a"; ""; "data: b"; ""; ""])
           ["data: a"; EOL; (EOL ++ "da")%string; "ta: b"; DELIM]).
  reflexivity.
Defined.

(** ** Slices and the first colon *)

Section Slices.

Import Js.

Lemma length_append_string (a b : string) :
  String.length (a ++ b)%string = (String.length a + String.length b)%nat.
Proof. induction a as [|c a IH]; cbn [append String.length]; [reflexivity | now rewrite IH]. Qed.

Lemma substring_whole (s : string) : substring 0 (String.length s) s = s.
Proof. induction s as [|c s IH]; cbn; [reflexivity | now rewrite IH]. Qed.

Lemma substring_head (a b : string) :
  substring 0 (String.length a) (a ++ b)%string = a.
Proof.
  induction a as [|c a IH]; cbn [append String.length substring].
  - now destruct b.
  - now rewrite IH.
Qed.

Lemma substring_tail (a b : string) n :
  substring (String.length a) n (a ++ b)%string = substring 0 n b.
Proof. induction a as [|c a IH]; cbn [append String.length substring]; auto. Qed.

Lemma slice_head (a b : string) :
  slice (a ++ b)%string 0 (Z.of_nat (String.length a)) = a.
Proof.
  unfold slice, clampIndex. rewrite length_append_string.
  change (0 <? 0)%Z with false. cbv iota.
  replace (Z.of_nat (String.length a) <? 0)%Z with false
    by (symmetry; apply Z.ltb_ge; lia).
  rewrite Z.min_l, Z.min_l by lia.
  rewrite Z.sub_0_r, Z.max_l, Nat2Z.id by lia.
  apply substring_head.
Qed.

Lemma sliceFrom_tail (a b : string) :
  sliceFrom (a ++ b)%string (Z.of_nat (String.length a)) = b.
Proof.
  unfold sliceFrom, slice, clampIndex. rewrite length_append_string.
  replace (Z.of_nat (String.length a) <? 0)%Z with false
    by (symmetry; apply Z.ltb_ge; lia).
  replace (Z.of_nat (String.length a + String.length b) <? 0)%Z with false
    by (symmetry; apply Z.ltb_ge; lia).
  rewrite Z.min_l, Z.min_l by lia.
  replace (Z.max (Z.of_nat (String.length a + String.length b)
                  - Z.of_nat (String.length a)) 0)
    with (Z.of_nat (String.length b)) by lia.
  rewrite !Nat2Z.id, substring_tail. apply substring_whole.
Qed.

Lemma sliceFrom_one c (s : string) : sliceFrom (String c s) 1 = s.
Proof. exact (sliceFrom_tail (String c EmptyString) s). Qed.

(** The leading-space rule of the parser is [Wire.strip_space]. *)
Lemma strip_leading_space (value : string) :
  (if startsWith value " " then sliceFrom value 1 else value)
  = Wire.strip_space value.
Proof.
  destruct value as [|c v]; [reflexivity|].
  cbn [startsWith Wire.strip_space]. rewrite andb_true_r.
  destruct (Ascii.eqb c " "); [apply sliceFrom_one | reflexivity].
Qed.

Lemma indexOf_lower (s : string) c : (-1 <= indexOf s c)%Z.
Proof.
  induction s as [|a s IH]; cbn [indexOf]; [lia|].
  destruct (Ascii.eqb a c); [lia|].
  destruct (indexOf s c <? 0)%Z eqn:E; [lia|]. apply Z.ltb_ge in E. lia.
Qed.

(** [indexOf] and the slices around it, in terms of [Wire.cut]. *)
Lemma indexOf_cut (line : string) :
  match Wire.cut line with
  | Some (f, v) =>
      indexOf line ":" = Z.of_nat (String.length f) /\
      line = (f ++ String ":" v)%string
  | None => indexOf line ":" = (-1)%Z
  end.
Proof.
  induction line as [|c line IH]; cbn [Wire.cut indexOf]; [reflexivity|].
  destruct (Ascii.eqb_spec c ":") as [->|Hc]; [now split|].
  destruct (Wire.cut line) as [[f v]|].
  - destruct IH as [Hi Hl]. rewrite Hi.
    replace (Z.of_nat (String.length f) <? 0)%Z with false
      by (symmetry; apply Z.ltb_ge; lia).
    split; [cbn [String.length]; lia | cbn [append]; now rewrite <- Hl].
  - now rewrite IH.
Qed.

Lemma cut_no_colon (line f v : string) :
  Wire.cut line = Some (f, v) -> includes f ":" = false.
Proof.
  revert f v; induction line as [|c line IH]; intros f v; cbn [Wire.cut]; [discriminate|].
  destruct (Ascii.eqb c ":") eqn:Ec.
  - now intros [= <- <-].
  - destruct (Wire.cut line) as [[f' v']|]; [|discriminate].
    intros [= <- <-]. cbn [includes]. rewrite Ec. now apply (IH f' v').
Qed.

Lemma cut_app (f v : string) :
  includes f ":" = false -> Wire.cut (f ++ String ":" v)%string = Some (f, v).
Proof.
  induction f as [|c f IH]; cbn [append includes Wire.cut]; intros H.
  - reflexivity.
  - apply orb_false_iff in H as [Hc Hf]. now rewrite Hc, (IH Hf).
Qed.

Lemma cut_includes (line : string) :
  includes line ":" = false -> Wire.cut line = None.
Proof.
  induction line as [|c line IH]; cbn [includes Wire.cut]; [reflexivity|].
  intros H. apply orb_false_iff in H as [Hc Hl]. now rewrite Hc, (IH Hl).
Qed.

Lemma startsWith_char a (s : string) c :
  startsWith (String a s) (String c EmptyString) = Ascii.eqb a c.
Proof. cbn [startsWith]. apply andb_true_r. Qed.

(** One turn of the parser's loop: cut the line at its first colon,
    drop it when nothing precedes the colon, otherwise hand the field
    name and the value stripped of one leading space to the switch. *)
Lemma parse_line_cut (vars : ParseVars) (line : string) :
  parse_line vars line =
  match Wire.cut line with
  | Some (String c f, raw) => switch_field (String c f) (Wire.strip_space raw) vars
  | _ => vars
  end.
Proof.
  unfold parse_line.
  destruct line as [|a line]; [reflexivity|].
  change (String.eqb (String a line) EmptyString) with false.
  rewrite startsWith_char, orb_false_l.
  pose proof (indexOf_cut (String a line)) as H.
  cbn [Wire.cut] in *.
  destruct (Ascii.eqb a ":") eqn:Ea; [reflexivity|].
  destruct (Wire.cut line) as [[f v]|].
  - destruct H as [Hi Hl]. cbv zeta. rewrite Hi.
    replace (Z.of_nat (String.length (String a f)) =? -1)%Z with false
      by (symmetry; apply Z.eqb_neq; lia).
    rewrite Hl.
    rewrite slice_head.
    replace (Z.of_nat (String.length (String a f)) + 1)%Z
      with (Z.of_nat (String.length (String a f ++ ":")%string))
      by (rewrite length_append_string; cbn [String.length]; lia).
    replace (String a f ++ String ":" v)%string
      with ((String a f ++ ":") ++ v)%string
      by (now rewrite append_assoc_string).
    rewrite sliceFrom_tail, strip_leading_space.
    reflexivity.
  - cbv zeta. now rewrite H.
Qed.

End Slices.

(** ** The parser against the wire grammar *)

Section Parser.

Import Js.

Lemma startsWith_append (p r : string) : startsWith (p ++ r)%string p = true.
Proof.
  induction p as [|c p IH]; cbn [append startsWith]; [reflexivity|].
  now rewrite Ascii.eqb_refl, IH.
Qed.

Lemma startsWith_inv (s p : string) :
  startsWith s p = true -> s = (p ++ Wire.drop (String.length p) s)%string.
Proof.
  revert s; induction p as [|c p IH]; intros s; cbn [startsWith].
  - now destruct s.
  - destruct s as [|a s]; [discriminate|]. intros H.
    apply andb_true_iff in H as [Hc Hp]. apply Ascii.eqb_eq in Hc. subst a.
    cbn [String.length Wire.drop append]. now rewrite <- (IH s Hp).
Qed.

Lemma drop_append (p r : string) : Wire.drop (String.length p) (p ++ r)%string = r.
Proof. induction p as [|c p IH]; cbn [String.length append Wire.drop]; [now destruct r | exact IH]. Qed.

(** The lines that carry a field, seen through the cut at the first
    colon. *)
Lemma field_line_cut (name line : string) :
  includes name ":" = false ->
  Wire.field_line name line =
  match Wire.cut line with
  | Some (f, raw) => if String.eqb f name then Some (Wire.strip_space raw) else None
  | None => None
  end.
Proof.
  intros Hn. unfold Wire.field_line.
  destruct (startsWith line (name ++ ":")%string) eqn:E.
  - apply startsWith_inv in E.
    rewrite length_append_string in E. cbn [String.length] in E.
    set (r := Wire.drop (String.length name + 1) line) in *.
    replace (Wire.cut line) with (Wire.cut ((name ++ ":") ++ r)%string)
      by (now rewrite <- E).
    rewrite append_assoc_string. cbn [append].
    now rewrite (cut_app name r Hn), String.eqb_refl.
  - pose proof (indexOf_cut line) as H.
    destruct (Wire.cut line) as [[f raw]|]; [|reflexivity].
    destruct (String.eqb_spec f name) as [->|]; [|reflexivity].
    destruct H as [_ ->].
    replace (name ++ String ":" raw)%string with ((name ++ ":") ++ raw)%string in E
      by (now rewrite append_assoc_string).
    now rewrite startsWith_append in E.
Qed.

Lemma switch_field_data field value vars :
  v_data (switch_field field value vars) =
  v_data vars ++ (if String.eqb field "data" then [value] else []).
Proof.
  unfold switch_field.
  destruct (String.eqb_spec field "event") as [->|_]; [now rewrite app_nil_r|].
  destruct (String.eqb field "data"); [reflexivity|].
  destruct (String.eqb field "id").
  { destruct (negb (includes value NUL)); cbn [v_data]; now rewrite app_nil_r. }
  destruct (String.eqb field "retry"); [|now rewrite app_nil_r].
  cbv zeta. destruct (parseInt value); cbn [v_data]; now rewrite app_nil_r.
Qed.

Lemma parse_line_data vars line :
  v_data (parse_line vars line) =
  v_data vars ++ match Wire.field_line "data" line with
                 | Some v => [v]
                 | None => []
                 end.
Proof.
  rewrite parse_line_cut, (field_line_cut "data" line eq_refl).
  destruct (Wire.cut line) as [[[|c f] raw]|]; try now rewrite app_nil_r.
  rewrite switch_field_data.
  now destruct (String.eqb (String c f) "data").
Qed.

(** After the loop the array [data] holds the values of the data lines
    in their order of appearance. *)
Lemma fold_parse_line_data lines : forall vars,
  v_data (fold_left parse_line lines vars) = v_data vars ++ Wire.data_values lines.
Proof.
  induction lines as [|line lines IH]; intros vars; cbn [fold_left].
  - now rewrite app_nil_r.
  - rewrite IH, parse_line_data. unfold Wire.data_values. cbn [Wire.field_values].
    destruct (Wire.field_line "data" line); now rewrite <- app_assoc.
Qed.

Lemma switch_field_id field value vars :
  v_id (switch_field field value vars) =
  if String.eqb field "id" && Wire.id_ok value then Some value else v_id vars.
Proof.
  unfold switch_field, Wire.id_ok.
  destruct (String.eqb_spec field "event") as [->|_]; [reflexivity|].
  destruct (String.eqb_spec field "data") as [->|_]; [reflexivity|].
  destruct (String.eqb field "id").
  { now destruct (negb (includes value NUL)). }
  destruct (String.eqb field "retry"); [|reflexivity].
  cbv zeta. now destruct (parseInt value).
Qed.

(** After the loop the variable [id] holds the value of the last id
    line free of NUL. *)
Lemma fold_parse_line_id lines : forall vars,
  v_id (fold_left parse_line lines vars)
  = Wire.last_value Wire.id_ok "id" lines (v_id vars).
Proof.
  induction lines as [|line lines IH]; intros vars; cbn [fold_left Wire.last_value].
  - reflexivity.
  - rewrite IH, parse_line_cut, (field_line_cut "id" line eq_refl).
    destruct (Wire.cut line) as [[[|c f] raw]|]; try reflexivity.
    rewrite switch_field_id.
    destruct (String.eqb (String c f) "id"); [|reflexivity].
    now destruct (Wire.id_ok (Wire.strip_space raw)).
Qed.

Lemma switch_field_event field value vars :
  v_event (switch_field field value vars) =
  if String.eqb field "event" then value else v_event vars.
Proof.
  unfold switch_field.
  destruct (String.eqb field "event"); [reflexivity|].
  destruct (String.eqb field "data"); [reflexivity|].
  destruct (String.eqb field "id").
  { now destruct (negb (includes value NUL)). }
  destruct (String.eqb field "retry"); [|reflexivity].
  cbv zeta. now destruct (parseInt value).
Qed.

Lemma last_value_default accept name lines : forall cur,
  Wire.last_value accept name lines cur =
  match Wire.last_value accept name lines None with
  | Some v => Some v
  | None => cur
  end.
Proof.
  induction lines as [|line lines IH]; intros cur; cbn [Wire.last_value]; [reflexivity|].
  destruct (Wire.field_line name line) as [v|]; [|apply IH].
  destruct (accept v); [|apply IH].
  rewrite (IH (Some v)). now destruct (Wire.last_value accept name lines None).
Qed.

(** After the loop the variable [event] holds the value of the last event
    line, or its initial value. *)
Lemma fold_parse_line_event lines : forall vars,
  Some (v_event (fold_left parse_line lines vars))
  = Wire.last_value Wire.any_value "event" lines (Some (v_event vars)).
Proof.
  induction lines as [|line lines IH]; intros vars; cbn [fold_left Wire.last_value].
  - reflexivity.
  - rewrite IH, parse_line_cut, (field_line_cut "event" line eq_refl).
    destruct (Wire.cut line) as [[[|c f] raw]|]; try reflexivity.
    rewrite switch_field_event.
    now destruct (String.eqb (String c f) "event").
Qed.

Lemma switch_field_retry field value vars :
  v_retry (switch_field field value vars) =
  if String.eqb field "retry" && Wire.retry_ok value
  then parseInt value else v_retry vars.
Proof.
  unfold switch_field, Wire.retry_ok.
  destruct (String.eqb_spec field "event") as [->|_]; [reflexivity|].
  destruct (String.eqb_spec field "data") as [->|_]; [reflexivity|].
  destruct (String.eqb_spec field "id") as [->|_].
  { now destruct (negb (includes value NUL)). }
  destruct (String.eqb field "retry"); [|reflexivity].
  cbv zeta. now destruct (parseInt value).
Qed.

(** After the loop the variable [retry] holds what [parseInt] makes of the
    last retry line it makes a number of, whatever the sign of that number
    and whatever follows its digits. *)
Lemma fold_parse_line_retry lines : forall vars,
  v_retry (fold_left parse_line lines vars)
  = match Wire.last_value Wire.retry_ok "retry" lines None with
    | Some v => parseInt v
    | None => v_retry vars
    end.
Proof.
  induction lines as [|line lines IH]; intros vars; cbn [fold_left Wire.last_value].
  - reflexivity.
  - rewrite IH, parse_line_cut, (field_line_cut "retry" line eq_refl).
    destruct (Wire.cut line) as [[[|c f] raw]|]; try reflexivity.
    rewrite switch_field_retry.
    destruct (String.eqb (String c f) "retry"); cbn [andb]; [|reflexivity].
    destruct (Wire.retry_ok (Wire.strip_space raw)); [|reflexivity].
    rewrite (last_value_default _ _ lines (Some (Wire.strip_space raw))).
    now destruct (Wire.last_value Wire.retry_ok "retry" lines None).
Qed.

(** What the parser enqueues for a frame: nothing without a data line,
    otherwise one message made of the last event line (or "message"),
    the data lines joined, the last acceptable id line and the last retry
    line [parseInt] reads a number from. *)
Lemma parse_transform_spec frame :
  let lines := split frame EOL in
  parse_transform frame =
  match Wire.data_values lines with
  | [] => []
  | _ :: _ =>
      [ SSEMessage.mk
          (nullish (Wire.last_value Wire.any_value "event" lines (Some "message"%string))
                   "message"%string)
          (join (Wire.data_values lines) EOL)
          (Wire.last_value Wire.id_ok "id" lines None)
          (match Wire.last_value Wire.retry_ok "retry" lines None with
           | Some v => parseInt v
           | None => None
           end) ]
  end.
Proof.
  cbv zeta. unfold parse_transform.
  rewrite fold_parse_line_data, fold_parse_line_id, fold_parse_line_retry.
  change (Some "message"%string) with (Some (v_event parse_start)).
  rewrite <- (fold_parse_line_event (split frame EOL) parse_start).
  cbn [parse_start v_data v_id v_retry nullish app].
  now destruct (Wire.data_values (split frame EOL)).
Qed.

Lemma inert_no_field name line :
  includes name ":" = false -> name <> EmptyString ->
  Wire.inert line = true -> Wire.field_line name line = None.
Proof.
  intros Hn Hne H. rewrite (field_line_cut name line Hn).
  unfold Wire.inert in H.
  apply orb_true_iff in H as [H|H]; [apply orb_true_iff in H as [H|H]|].
  - apply String.eqb_eq in H. now subst line.
  - destruct line as [|a line]; [reflexivity|].
    rewrite startsWith_char in H. cbn [Wire.cut]. rewrite H.
    destruct (String.eqb_spec EmptyString name); [congruence | reflexivity].
  - apply negb_true_iff in H. now rewrite (cut_includes line H).
Qed.

Lemma inert_no_data lines :
  forallb Wire.inert lines = true -> Wire.data_values lines = [].
Proof.
  unfold Wire.data_values.
  induction lines as [|line lines IH]; cbn [forallb Wire.field_values]; [reflexivity|].
  intros H. apply andb_true_iff in H as [Hl Hr].
  rewrite (inert_no_field "data" line eq_refl); [now apply IH | discriminate | exact Hl].
Qed.

Lemma drain_createParseStream frames :
  drain createParseStream frames = flat_map parse_transform frames.
Proof.
  unfold drain. cbn [createParseStream ts_start].
  generalize tt as st.
  induction frames as [|f frames IH]; intros st; cbn [feed flat_map].
  - reflexivity.
  - cbn [createParseStream ts_transform]. specialize (IH st).
    destruct (feed createParseStream st frames) as [st' out].
    cbn [createParseStream ts_flush] in *.
    rewrite app_nil_r in *. now rewrite IH.
Qed.

End Parser.

(** *** C8: data lines are joined in order *)

(** C8.  For every raw frame that has data lines, the parser produces one
    event whose [data] is the values of those lines, in their order of
    appearance in the frame, joined with a line feed. *)
Theorem data_lines_joined (frame : string) :
  Wire.data_values (Js.split frame EOL) <> [] ->
  exists m,
    parse_transform frame = [m] /\
    SSEMessage.data m = Js.join (Wire.data_values (Js.split frame EOL)) EOL.
Proof.
  intros H. rewrite parse_transform_spec.
  destruct (Wire.data_values (Js.split frame EOL)) as [|v vs]; [contradiction|].
  eexists; split; reflexivity.
Qed.

(** The frame [data: a\ndata: b] yields the data [a\nb]. *)
Lemma data_lines_joined_witness :
  exists m,
    parse_transform (unlines ["data: a"; "data: b"]) = [m] /\
    SSEMessage.data m = unlines ["a"; "b"].
Proof.
  apply (data_lines_joined (unlines ["data: a"; "data: b"])).
  discriminate.
Defined.

(** *** C9: frames without a data line are absorbed *)

(** C9.  A raw frame with no data line produces no event, in particular a
    frame made only of comment lines, empty lines and lines without a
    colon; the parse stream goes on with the following frames as if the
    frame had not been there. *)
Theorem no_data_no_event (frame : string) :
  Wire.data_values (Js.split frame EOL) = [] \/
  forallb Wire.inert (Js.split frame EOL) = true ->
  parse_transform frame = [] /\
  forall before after,
    drain createParseStream (before ++ frame :: after)
    = drain createParseStream (before ++ after).
Proof.
  intros H.
  assert (Hd : Wire.data_values (Js.split frame EOL) = []).
  { destruct H as [H|H]; [exact H | now apply inert_no_data]. }
  assert (Hp : parse_transform frame = []).
  { rewrite parse_transform_spec. now rewrite Hd. }
  split; [exact Hp|]. intros before after.
  rewrite !drain_createParseStream, !flat_map_app. cbn [flat_map].
  now rewrite Hp.
Qed.

(** A keep-alive frame: a comment, a line without a colon, and an id. *)
Lemma no_data_no_event_witness :
  parse_transform (unlines [": keep-alive"; "data"; "id: 7"]) = [] /\
  forall before after,
    drain createParseStream
      (before ++ unlines [": keep-alive"; "data"; "id: 7"] :: after)
    = drain createParseStream (before ++ after).
Proof.
  apply (no_data_no_event (unlines [": keep-alive"; "data"; "id: 7"])).
  left. reflexivity.
Defined.

(** *** C6: what the parser takes for a retry value *)

(** C6.  The parser hands the value of a retry line to [parseInt] and keeps
    whatever is not [NaN]: a negative value is stored in the event, and so
    is the numeric prefix of a malformed value; only a value with no
    leading number at all is ignored, leaving an earlier value in place. *)
Theorem retry_accepts_negative_and_malformed :
  parse_transform (unlines ["retry: -5"; "data: x"])
    = [SSEMessage.mk "message" "x" None (Some (-5)%Z)] /\
  parse_transform (unlines ["retry: 12abc"; "data: x"])
    = [SSEMessage.mk "message" "x" None (Some 12%Z)] /\
  parse_transform (unlines ["retry: 3000"; "retry: soon"; "data: x"])
    = [SSEMessage.mk "message" "x" None (Some 3000%Z)] /\
  parse_transform (unlines ["retry: 3000"; "retry: -1"; "data: x"])
    = [SSEMessage.mk "message" "x" None (Some (-1)%Z)].
Proof. repeat split; reflexivity. Qed.

(** ** What the methods leave untouched *)

Lemma carries_same s s' e :
  options s' = options s -> currentLastEventId s' = currentLastEventId s ->
  carries s e -> carries s' e.
Proof.
  intros Ho Hc. destruct e; cbn [carries]; auto.
  unfold connect_headers. now rewrite Ho, Hc.
Qed.

Lemma steady_refl st : steady st st.
Proof.
  repeat split. exists []. split; [now rewrite app_nil_r | constructor].
Qed.

Lemma steady_trans st1 st2 st3 : steady st1 st2 -> steady st2 st3 -> steady st1 st3.
Proof.
  intros (Ho & Hc & n1 & Ht & Hf) (Ho' & Hc' & n2 & Ht' & Hf').
  split; [congruence|]. split; [congruence|].
  exists (n1 ++ n2). split.
  - now rewrite Ht', Ht, app_assoc.
  - apply Forall_app. split; [exact Hf|].
    eapply Forall_impl; [|exact Hf']. intros e. apply carries_same; congruence.
Qed.

Lemma steady_intro s w s' w' new :
  options s' = options s ->
  currentLastEventId s' = currentLastEventId s ->
  trace w' = trace w ++ new ->
  Forall (carries s) new ->
  steady (s, w) (s', w').
Proof. intros; repeat split; eauto. Qed.

(** Closes a goal [steady (s, w) (s', w')] whose right-hand state is
    written out: the history is the same or longer by one effect. *)
Ltac steady_leaf :=
  cbn [fst snd];
  first
    [ apply steady_refl
    | apply (steady_intro _ _ _ _ []);
      [reflexivity | reflexivity | cbn; now rewrite app_nil_r | constructor]
    | eapply (steady_intro _ _ _ _ [_]);
      [reflexivity | reflexivity | reflexivity
      | constructor; [cbn [carries req_headers]; auto | constructor]] ].

Lemma suspend_cases c w :
  suspend c w = (false, w) \/
  (exists k, suspend c w = (false, set_signal (aborted w) (Some k) w)) \/
  suspend c w = (true, abort w).
Proof.
  unfold suspend. destruct c; [|now left].
  destruct (abortAfter w) as [[|k]|]; [now right; right | right; left; now exists k | now left].
Qed.

Ltac split_suspend :=
  match goal with
  | |- context [suspend ?c ?w] =>
      let E := fresh "E" in
      destruct (suspend_cases c w) as [E|[[? E]|E]]; rewrite E; clear E
  end.

Section Steady.

Variable parseURL : string -> option URL.

Lemma connect_try_steady st : steady st (snd (connect_try parseURL st)).
Proof.
  destruct st as [s w].
  unfold connect_try, as_URL, bind, gets, fetch, modify, new_stream, throw, ret.
  cbn [fst snd].
  destruct (url (options s)) as [u|text].
  2: destruct (parseURL text) as [u|]; [|steady_leaf].
  all: cbn [fst snd].
  all: destruct (connect_headers s) as [hs|] eqn:Eh; [|steady_leaf].
  all: cbn [fst snd req_signal].
  all: destruct (signal_aborted (abortController (options s)) w); [steady_leaf|].
  all: split_suspend; try steady_leaf.
  all: destruct (server w (requests w)) as [|resp]; try steady_leaf.
  all: destruct (ok resp); cbn [negb]; try steady_leaf.
  all: destruct (body resp); steady_leaf.
Qed.

End Steady.

Lemma steady_moved v st1 st2 st3 :
  steady st1 st2 -> moved v st2 st3 -> moved v st1 st3.
Proof.
  intros (Ho & Hc & n1 & Ht & Hf) (Ho' & Hc' & n2 & Ht' & Hf').
  split; [congruence|]. split; [destruct v; congruence|].
  exists (n1 ++ n2). split.
  - now rewrite Ht', Ht, app_assoc.
  - apply Forall_app. split; [exact Hf|].
    eapply Forall_impl; [|exact Hf']. intros e. apply carries_same; congruence.
Qed.

Lemma moved_intro v s w s' w' new :
  options s' = options s ->
  currentLastEventId s' =
    match v with
    | Some value => advance truthy_string (currentLastEventId s) value
    | None => currentLastEventId s
    end ->
  trace w' = trace w ++ new ->
  Forall (carries s) new ->
  moved v (s, w) (s', w').
Proof. intros; repeat split; eauto. Qed.

Section SteadyMethods.

Variable parseURL : string -> option URL.

(** [connect] and [reconnect] never touch the cursor, and every request
    they send carries the headers built from it. *)
Lemma connect_reconnect_steady fuel :
  (forall st, steady st (snd (connect parseURL fuel st))) /\
  (forall st, steady st (snd (reconnect parseURL fuel st))).
Proof.
  induction fuel as [|fuel [IHc IHr]].
  - split; intros st; apply steady_refl.
  - split; intros st.
    + cbn [connect]. unfold try_catch.
      pose proof (connect_try_steady parseURL st) as H.
      destruct (connect_try parseURL st) as [[[]|e|] st1]; cbn [snd] in *; try exact H.
      cbn [instanceof_Error]. unfold bind, gets. cbn [fst snd].
      destruct (truthy_bool (retryStrategy (options (fst st1))) && shouldRetry (fst st1)).
      * eapply steady_trans; [exact H | apply IHr].
      * exact H.
    + cbn [reconnect]. destruct st as [s w].
      unfold bind, modify, gets, is_aborted, timer, throw, ret. cbn [fst snd options set_retryCount].
      destruct (signal_aborted (abortController (options s)) w); [steady_leaf|].
      split_suspend; try steady_leaf.
      all: eapply steady_trans; [|apply IHc]; steady_leaf.
Qed.

Lemma connect_steady fuel st : steady st (snd (connect parseURL fuel st)).
Proof. apply connect_reconnect_steady. Qed.

Lemma reconnect_steady fuel st : steady st (snd (reconnect parseURL fuel st)).
Proof. apply connect_reconnect_steady. Qed.

End SteadyMethods.

Ltac norm :=
  cbn [fst snd options retryCount currentLastEventId stream reader
       set_retryCount set_currentLastEventId set_stream set_reader] in *.

Lemma next_reader_steady (connect_ : M unit) st :
  (forall st, steady st (snd (connect_ st))) ->
  steady st (snd (next_reader connect_ st)).
Proof.
  intros Hc. destruct st as [s w].
  unfold next_reader, bind, gets, modify, throw, ret. norm.
  destruct (reader s); norm; [steady_leaf|].
  destruct (stream s) as [h|] eqn:Es; norm.
  - rewrite Es. steady_leaf.
  - pose proof (Hc (s, w)) as H.
    destruct (connect_ (s, w)) as [[[]|e|] [s1 w1]]; norm; try exact H.
    destruct (stream s1); norm; [|exact H].
    eapply steady_trans; [exact H|]. steady_leaf.
Qed.

Ltac leaf0 v :=
norm; apply (moved_intro v _ _ _ _ []); norm;
[reflexivity | reflexivity | now rewrite app_nil_r | constructor].

Ltac leaf :=
norm;
first
  [ leaf0 (@None SSEMessage.t)
  | match goal with
    | H : steady ?st1 ?st2 |- moved _ _ ?st2 =>
        refine (steady_moved _ _ st1 _ _ _); [|exact H]; leaf0 (@None SSEMessage.t)
    end ].

Ltac call_reconnect f Hr :=
match goal with
| |- context [f (?s1, ?w1)] =>
    let H := fresh "H" in
    pose proof (Hr (s1, w1)) as H;
    destruct (f (s1, w1)) as [[[]|?e|] [? ?]]; norm
end.


Ltac retry_cases s :=
change (shouldRetry (set_reader None s)) with (shouldRetry s) in *;
destruct (truthy_bool (retryStrategy (options s)) && shouldRetry s); norm.

Lemma next_catch_steady (reconnect_ : M unit) e st :
  (forall st, steady st (snd (reconnect_ st))) ->
  let r := next_catch reconnect_ e st in
  steady st (snd r) /\ step_value (fst r) = None.
Proof.
  intros Hr. destruct st as [s w]. cbv zeta.
  unfold next_catch, bind, gets, modify, throw, ret.
  cbn [instanceof_Error andb]. norm.
  destruct (named_AbortError e); cbn [negb]; norm.
  { split; [steady_leaf | reflexivity]. }
  retry_cases s.
  - call_reconnect reconnect_ Hr; (split; [|reflexivity]);
      (eapply steady_trans; [|eassumption]); steady_leaf.
  - split; [steady_leaf | reflexivity].
Qed.

(** A read leaves the instance and the history as they are. *)
Lemma deliver_quiet h s w :
  exists r w', deliver h (s, w) = (r, (s, w')) /\ trace w' = trace w.
Proof.
  unfold deliver.
  destruct (nth_error (streams w) h) as [ms|]; [|eauto].
  destruct (cancelled ms); [eauto|].
  destruct (queue ms) as [|m rest]; [destruct (stream_end ms)|]; eauto.
Qed.

Lemma read_quiet h s w :
  exists r w', read h (s, w) = (r, (s, w')) /\ trace w' = trace w.
Proof.
  unfold read.
  destruct (signal_aborted (abortController (options s)) w).
  - destruct (struck h w); [eauto | apply deliver_quiet].
  - destruct (suspend_cases (abortController (options s)) w) as [E|[[k E]|E]];
      rewrite E; [apply deliver_quiet | | eauto].
    destruct (deliver_quiet h s (set_signal (aborted w) (Some k) w)) as (r & w' & E' & Ht).
    exists r, w'. split; [exact E' | exact Ht].
Qed.

Lemma next_try_moved (reconnect_ : M unit) h st :
  (forall st, steady st (snd (reconnect_ st))) ->
  let r := next_try reconnect_ h st in
  moved (step_value (fst r)) st (snd r).
Proof.
  intros Hr. destruct st as [s w]. cbv zeta.
  destruct (read_quiet h s w) as (r & w' & E & Ht).
  unfold next_try, bind, gets, modify, when, throw, ret. rewrite E.
  destruct r as [[m|]|e|]; norm.
  - destruct (truthy_string (SSEMessage.id m)) eqn:Eid; norm; cbn [step_value];
      (apply (moved_intro (Some m) _ _ _ _ []);
       [ reflexivity | norm; unfold advance; now rewrite Eid
       | now rewrite app_nil_r | apply Forall_nil ]).
  - retry_cases s.
    + call_reconnect reconnect_ Hr; cbn [step_value];
        (refine (steady_moved _ _ (set_stream None (set_reader None s), w') _ _ _);
         [|eassumption]);
        (apply (moved_intro None _ _ _ _ []);
         [reflexivity | reflexivity | now rewrite app_nil_r | apply Forall_nil]).
    + cbn [step_value]. apply (moved_intro None _ _ _ _ []);
        [reflexivity | reflexivity | now rewrite app_nil_r | apply Forall_nil].
  - cbn [step_value]. apply (moved_intro None _ _ _ _ []);
      [reflexivity | reflexivity | now rewrite app_nil_r | apply Forall_nil].
  - cbn [step_value]. apply (moved_intro None _ _ _ _ []);
      [reflexivity | reflexivity | now rewrite app_nil_r | apply Forall_nil].
Qed.

Lemma next_block_moved (reconnect_ : M unit) h st :
  (forall st, steady st (snd (reconnect_ st))) ->
  let r := try_catch (next_try reconnect_ h) (next_catch reconnect_) st in
  moved (step_value (fst r)) st (snd r).
Proof.
  intros Hr. cbv zeta. unfold try_catch.
  pose proof (next_try_moved reconnect_ h st Hr) as H. cbv zeta in H.
  destruct (next_try reconnect_ h st) as [[a|e|] st1]; try exact H.
  destruct (next_catch_steady reconnect_ e st1 Hr) as [Hs Hv].
  rewrite Hv. eapply steady_trans; [exact H | exact Hs].
Qed.

Section SteadyNext.
Variable parseURL : string -> option URL.

(** A pull moves the cursor exactly when it returns an event, and then
    to the id of that event if it is truthy; the requests sent during
    the pull carry the cursor the pull started with. *)
Lemma next_moved fuel : forall st c st',
  next parseURL fuel st = (c, st') -> moved (pull_value c) st st'.
Proof.
  induction fuel as [|fuel IH]; intros st c st'.
  - intros [= <- <-]. apply steady_refl.
  - cbn [next]. unfold bind.
    pose proof (next_reader_steady (connect parseURL fuel) st
                  (connect_steady parseURL fuel)) as H1.
    destruct (next_reader (connect parseURL fuel) st) as [[h|e|] st1];
      cbn [fst snd] in H1.
    2,3: intros [= <- <-]; exact H1.
    pose proof (next_block_moved (reconnect parseURL fuel) h st1
                  (reconnect_steady parseURL fuel)) as H2.
    cbv zeta in H2.
    destruct (try_catch (next_try (reconnect parseURL fuel) h)
                (next_catch (reconnect parseURL fuel)) st1) as [[step|e|] st2];
      cbn [fst snd step_value] in H2.
    2,3: intros [= <- <-]; eapply steady_trans; [exact H1 | exact H2].
    destruct step as [r|].
    + unfold ret. intros [= <- <-]. eapply steady_moved; [exact H1|].
      destruct r; exact H2.
    + intros E. eapply steady_moved; [eapply steady_trans; [exact H1 | exact H2]|].
      now apply IH.
Qed.
End SteadyNext.

(** ** Headers *)

Lemma headers_get_set_same name value hs :
  headers_get name (headers_store name value hs) = Some value.
Proof.
  unfold headers_get, headers_store.
  induction hs as [|[k v] hs IH]; cbn [filter app find fst snd].
  - now rewrite String.eqb_refl.
  - destruct (String.eqb k (lowercase name)) eqn:E; cbn [negb]; [exact IH|].
    cbn [app find fst]. now rewrite E.
Qed.

Lemma headers_get_set_other name other value hs :
  lowercase other <> lowercase name ->
  headers_get name (headers_store other value hs) = headers_get name hs.
Proof.
  intros Hne. unfold headers_get, headers_store. f_equal.
  induction hs as [|[k v] hs IH]; cbn [filter app find fst snd].
  - destruct (String.eqb_spec (lowercase other) (lowercase name)); [contradiction | reflexivity].
  - destruct (String.eqb_spec k (lowercase other)) as [->|Hk]; cbn [negb].
    + destruct (String.eqb_spec (lowercase other) (lowercase name)); [contradiction | exact IH].
    + cbn [app find fst]. now destruct (String.eqb k (lowercase name)).
Qed.

(** The two fixed headers are always accepted; only the cursor may make
    [headers.set] throw. *)
Lemma connect_headers_cursor s :
  connect_headers s
  = let fixed := headers_store "Cache-Control" "no-cache"
                   (headers_store "Accept" "text/event-stream"
                      (new_Headers (headers (options s)))) in
    if truthy_string (currentLastEventId s)
    then headers_set "Last-Event-ID" (nullish (currentLastEventId s) EmptyString) fixed
    else Some fixed.
Proof. reflexivity. Qed.

(** The [Last-Event-ID] header of the requests of [connect]: a request is
    built only with a cursor [headers.set] accepts, and carries it
    normalized. *)
Lemma request_headers_cursor s hs :
  connect_headers s = Some hs ->
  cursor_accepted (currentLastEventId s) = true /\
  headers_get "Last-Event-ID" hs
  = cursor_header (options s) (currentLastEventId s).
Proof.
  rewrite connect_headers_cursor. cbv zeta. unfold cursor_header, cursor_accepted.
  destruct (currentLastEventId s) as [[|c v]|]; cbn [truthy_string nullish negb orb option_map].
  2: { unfold headers_set.
       destruct (validValue (normalize (String c v))); [|discriminate].
       intros [= <-]. split; [reflexivity|]. now rewrite headers_get_set_same. }
  all: intros [= <-]; split; [reflexivity|].
  all: rewrite !headers_get_set_other; [reflexivity | discriminate | discriminate].
Qed.

(** With no cursor to send, the request carries the [Last-Event-ID] of
    the custom headers. *)
Lemma request_headers_no_cursor s :
  truthy_string (currentLastEventId s) = false ->
  headers_get "Last-Event-ID" (request_headers s)
  = headers_get "Last-Event-ID" (new_Headers (headers (options s))).
Proof.
  intros H. unfold request_headers. rewrite connect_headers_cursor. cbv zeta.
  rewrite H. cbn [nullish].
  rewrite !headers_get_set_other; [reflexivity | discriminate | discriminate].
Qed.

(** ** Histories *)

Lemma cursor_after_app has_id a : forall cur b,
  cursor_after has_id cur (a ++ b)
  = cursor_after has_id (cursor_after has_id cur a) b.
Proof. induction a as [|[] a IH]; intros cur b; cbn [app cursor_after]; auto. Qed.

Lemma requests_carry_app o a : forall cur b,
  requests_carry o cur (a ++ b)
  = requests_carry o cur a && requests_carry o (cursor_after truthy_string cur a) b.
Proof.
  induction a as [|[] a IH]; intros cur b; cbn [app cursor_after requests_carry]; auto.
  now rewrite IH, andb_assoc.
Qed.

Lemma option_string_eqb_refl a : option_string_eqb a a = true.
Proof. destruct a; cbn; [apply String.eqb_refl | reflexivity]. Qed.

Lemma carries_history s new :
  Forall (carries s) new ->
  forall has_id,
    cursor_after has_id (currentLastEventId s) new = currentLastEventId s /\
    requests_carry (options s) (currentLastEventId s) new = true.
Proof.
  intros H has_id. induction H as [|e new He _ [IH1 IH2]]; [now split|].
  destruct e; cbn [carries] in He; cbn [cursor_after requests_carry];
    try contradiction; auto.
  split; [exact IH1|].
  destruct (request_headers_cursor s _ He) as [Ha Hh].
  now rewrite Ha, Hh, option_string_eqb_refl.
Qed.

(** ** Sessions *)

Lemma cancel_quiet h st : quiet st (snd (cancel h st)).
Proof.
  destruct st as [s w]. unfold cancel.
  destruct (nth_error (streams w) h) as [ms|]; [|repeat split].
  destruct (failed ms); repeat split.
Qed.

Lemma close_quiet st : quiet st (snd (close st)).
Proof.
  destruct st as [s w].
  unfold close, bind, gets, modify, abort_signal, unawaited, ret. norm.
  destruct (abortController (options s)); norm.
  all: destruct (reader s) as [h|]; norm; [|repeat split].
  all: match goal with
       | |- context [cancel ?h ?st] =>
           destruct (cancel_quiet h st) as (Ho & Hc & Ht);
           destruct (cancel h st) as [c [s1 w1]]; norm
       end.
  all: repeat split; assumption.
Qed.

Lemma return_quiet st : quiet st (snd (return_ st)).
Proof.
  destruct st as [s w].
  unfold return_, bind, gets, modify, ret. norm.
  destruct (reader s) as [h|]; norm; [|repeat split].
  destruct (cancel_quiet h (s, w)) as (Ho & Hc & Ht).
  destruct (cancel h (s, w)) as [[[]|e|] [s1 w1]]; norm; repeat split; assumption.
Qed.

Section Sessions.

Variable parseURL : string -> option URL.

Lemma tracked_quiet o st st' : tracked o st -> quiet st st' -> tracked o st'.
Proof.
  intros (Ho & Hc & Hr) (Ho' & Hc' & Ht). unfold tracked.
  rewrite Ho', Hc', Ht. auto.
Qed.

Lemma perform_tracked o fuel c st :
  tracked o st -> tracked o (snd (perform parseURL fuel c st)).
Proof.
  intros Ht. destruct c; cbn [perform].
  - unfold bind.
    destruct (next parseURL fuel st) as [r [s1 w1]] eqn:E.
    apply next_moved in E. destruct E as (Ho & Hc & new & Hn & Hf).
    destruct Ht as (Ht1 & Ht2 & Ht3). destruct st as [s w]. norm.
    destruct (carries_history s new Hf truthy_string) as [Hq1 Hq2].
    assert (Hbase : cursor_after truthy_string (lastEventId o) (trace w1)
                    = currentLastEventId s /\
                    requests_carry o (lastEventId o) (trace w1) = true).
    { rewrite Hn, cursor_after_app, requests_carry_app, <- Ht2, Hq1, Ht3.
      rewrite <- Ht1. now rewrite Hq2. }
    destruct Hbase as [Hb1 Hb2].
    destruct r as [[m|]|e|]; cbn [pull_value] in Hc; unfold yielded, ret; norm.
    all: unfold tracked; norm.
    2-4: repeat split; [congruence | now rewrite Hc, Hb1 | exact Hb2].
    repeat split; [congruence | |].
    + cbn [log trace]. rewrite cursor_after_app, Hb1. cbn [cursor_after]. exact Hc.
    + cbn [log trace]. rewrite requests_carry_app, Hb2. reflexivity.
  - unfold bind. pose proof (close_quiet st) as H.
    destruct (close st) as [[[]|e|] st1]; cbn [snd] in *; eapply tracked_quiet; eauto.
  - eapply tracked_quiet; [exact Ht | apply return_quiet].
  - destruct st as [s w]. unfold bind, gets, abort_signal, ret. norm.
    destruct (abortController (options s)); norm; [|exact Ht].
    eapply tracked_quiet; [exact Ht | repeat split].
Qed.

Lemma session_tracked o fuel calls : forall st,
  tracked o st -> tracked o (snd (session parseURL fuel calls st)).
Proof.
  induction calls as [|c calls IH]; intros st Ht; cbn [session]; [exact Ht|].
  pose proof (perform_tracked o fuel c st Ht) as H.
  destruct (perform parseURL fuel c st) as [r st1]. cbn [snd] in H.
  specialize (IH st1 H).
  now destruct (session parseURL fuel calls st1).
Qed.

End Sessions.

(** *** C4: the cursor and the resumption header *)

(** C4 as stated fails on an empty id: after the events with ids [42] and
    [] (empty) were handed over, the empty id is the id of the most
    recently emitted event carrying one, yet the cursor still is [42]. *)
Lemma cursor_is_not_latest_id :
  let st := snd (session Scenario.parseURL 10 [Pull; Pull]
                   (new_BetterSSEStream (Scenario.opts None None),
                    Scenario.host Scenario.blank_id None)) in
  cursor_after present None (trace (snd st)) = Some EmptyString /\
  currentLastEventId (fst st) = Some "42"%string /\
  currentLastEventId (fst st) <> cursor_after present None (trace (snd st)).
Proof. vm_compute. repeat split. discriminate. Qed.

(** C4, amended.  Throughout every session of calls on a new iterator the
    cursor is the id of the most recently yielded event whose id is not
    empty (the configured [lastEventId] if there was none); it only ever
    changes to such an id; and every request sent while the cursor was not
    empty was sent with a cursor [headers.set] accepts, and carried it as
    its [Last-Event-ID] the way [Headers] stores it: without the spaces,
    tabs, carriage returns and line feeds at its two ends
    ([requests_carry]).  So no request is sent while the cursor, trimmed
    in this way, holds a NUL, a carriage return or a line feed. *)
Theorem cursor_tracks_nonempty_ids (parseURL : string -> option URL)
    (o : SSEStreamOptions) (w : World) (fuel : nat) (calls : list Call) :
  trace w = [] ->
  let st := snd (session parseURL fuel calls (new_BetterSSEStream o, w)) in
  currentLastEventId (fst st)
    = cursor_after truthy_string (lastEventId o) (trace (snd st)) /\
  requests_carry o (lastEventId o) (trace (snd st)) = true.
Proof.
  intros Hw. cbv zeta.
  assert (H0 : tracked o (new_BetterSSEStream o, w)).
  { unfold tracked. cbn [fst snd new_BetterSSEStream options currentLastEventId].
    rewrite Hw. repeat split. }
  destruct (session_tracked parseURL o fuel calls _ H0) as (_ & Hc & Hr).
  now split.
Qed.

(** Three connections: the first request carries no cursor, the second
    one, made after the event with id 42, carries 42, and the third one,
    made after the event with id 50, carries 50. *)
Lemma cursor_tracks_nonempty_ids_witness :
  let st := snd (session Scenario.parseURL 10 [Pull; Pull; Pull]
                   (new_BetterSSEStream (Scenario.opts None None),
                    Scenario.host Scenario.resuming None)) in
  (currentLastEventId (fst st)
     = cursor_after truthy_string None (trace (snd st)) /\
   requests_carry (Scenario.opts None None) None (trace (snd st)) = true) /\
  last_event_ids (trace (snd st)) = [None; Some "42"%string; Some "50"%string].
Proof.
  split.
  - apply (cursor_tracks_nonempty_ids Scenario.parseURL (Scenario.opts None None)
             (Scenario.host Scenario.resuming None) 10 [Pull; Pull; Pull]).
    reflexivity.
  - vm_compute. reflexivity.
Defined.

(** A cursor ending in a carriage return is sent without it. *)
Example cursor_is_sent_normalized :
  let cursor := String "4" (String "2" (String "013" EmptyString)) in
  let st := snd (session Scenario.parseURL 10 [Pull]
                   (new_BetterSSEStream (Scenario.resuming_from cursor),
                    Scenario.host (Scenario.recovers 0) None)) in
  currentLastEventId (fst st) = Some cursor /\
  last_event_ids (trace (snd st)) = [Some "42"%string].
Proof. vm_compute. split; reflexivity. Qed.

(** A cursor with a carriage return inside makes [headers.set] throw: the
    pull rejects and no request is sent. *)
Example invalid_cursor_sends_nothing :
  let cursor := String "4" (String "013" (String "2" EmptyString)) in
  let r := session Scenario.parseURL 10 [Pull]
             (new_BetterSSEStream (Scenario.resuming_from cursor),
              Scenario.host (Scenario.recovers 0) None) in
  fst r = [Throw InvalidHeaderValue] /\ trace (snd (snd r)) = [].
Proof. vm_compute. split; reflexivity. Qed.

(** *** C10: an event with an empty id *)

(** C10.  An event parsed from a frame whose last acceptable id line has an
    empty value is emitted with the empty string as its id; a pull that
    returns it leaves the cursor as it was; and a cursor that is empty is
    not put in the [Last-Event-ID] header: the request carries what the
    custom headers say for that name, if anything. *)
Theorem empty_id_keeps_cursor (parseURL : string -> option URL)
    (frame : string) (m : SSEMessage.t) :
  parse_transform frame = [m] ->
  Wire.last_value Wire.id_ok "id" (Js.split frame EOL) None = Some EmptyString ->
  SSEMessage.id m = Some EmptyString /\
  (forall fuel st st',
      next parseURL fuel st = (Normal (IterValue m), st') ->
      currentLastEventId (fst st') = currentLastEventId (fst st)) /\
  (forall s,
      currentLastEventId s = SSEMessage.id m ->
      headers_get "Last-Event-ID" (request_headers s)
      = headers_get "Last-Event-ID" (new_Headers (headers (options s)))).
Proof.
  intros Hp Hid.
  assert (Hm : SSEMessage.id m = Some EmptyString).
  { rewrite parse_transform_spec in Hp. cbv zeta in Hp. rewrite Hid in Hp.
    destruct (Wire.data_values (Js.split frame EOL)); [discriminate|].
    now injection Hp as <-. }
  split; [exact Hm|]. split.
  - intros fuel st st' E. apply next_moved in E.
    destruct E as (_ & Hc & _). cbn [pull_value] in Hc.
    unfold advance in Hc. now rewrite Hm in Hc.
  - intros s Hs. apply request_headers_no_cursor.
    now rewrite Hs, Hm.
Qed.

(** The frame [id:\ndata: b]. *)
Lemma empty_id_keeps_cursor_witness :
  SSEMessage.id (SSEMessage.mk "message" "b" (Some EmptyString) None)
    = Some EmptyString /\
  (forall fuel st st',
      next Scenario.parseURL fuel st
        = (Normal (IterValue (SSEMessage.mk "message" "b" (Some EmptyString) None)), st') ->
      currentLastEventId (fst st') = currentLastEventId (fst st)) /\
  (forall s,
      currentLastEventId s
        = SSEMessage.id (SSEMessage.mk "message" "b" (Some EmptyString) None) ->
      headers_get "Last-Event-ID" (request_headers s)
      = headers_get "Last-Event-ID" (new_Headers (headers (options s)))).
Proof.
  apply (empty_id_keeps_cursor Scenario.parseURL (unlines ["id:"; "data: b"])
           (SSEMessage.mk "message" "b" (Some EmptyString) None)).
  - reflexivity.
  - reflexivity.
Defined.

(** Such an event does reach the consumer: the second pull below returns
    the event with the empty id, and the cursor stays at 42. *)
Example empty_id_is_yielded :
  let r := session Scenario.parseURL 10 [Pull; Pull]
             (new_BetterSSEStream (Scenario.opts None None),
              Scenario.host Scenario.blank_id None) in
  fst r = [ Normal (IterValue (SSEMessage.mk "message" "a" (Some "42"%string) None));
            Normal (IterValue (SSEMessage.mk "message" "b" (Some EmptyString) None)) ] /\
  currentLastEventId (fst (snd r)) = Some "42"%string.
Proof. vm_compute. split; reflexivity. Qed.

(** ** Connection attempts, one at a time *)

Lemma calm_signal s w :
  calm s w = true ->
  signal_aborted (abortController (options s)) w = false /\
  forall w', abortAfter w' = abortAfter w ->
             suspend (abortController (options s)) w' = (false, w').
Proof.
  unfold calm, signal_aborted, suspend.
  destruct (abortController (options s)); [|now split].
  destruct (aborted w); [discriminate|].
  destruct (abortAfter w); [discriminate|].
  intros _. split; [reflexivity|]. intros w' ->. reflexivity.
Qed.

Section Rounds.

Variable parseURL : string -> option URL.

Lemma as_URL_target s st u :
  target parseURL s = Some u ->
  as_URL parseURL (url (options s)) st = (Normal u, st).
Proof.
  unfold target, as_URL. destruct (connect_headers s); [|discriminate].
  destruct (url (options s)) as [u0|text].
  - now intros [= ->].
  - destruct (parseURL text); [now intros [= ->] | discriminate].
Qed.

Lemma target_headers s u :
  target parseURL s = Some u ->
  connect_headers s = Some (request_headers s).
Proof.
  unfold target, request_headers.
  destruct (connect_headers s); [reflexivity | discriminate].
Qed.

(** The timer of [reconnect] runs out and [connect] is called. *)
Lemma reconnect_waits fuel s w :
  calm s w = true ->
  let s1 := set_retryCount (S (retryCount s)) s in
  reconnect parseURL (S fuel) (s, w)
  = connect parseURL fuel
      (s1, log (TimerElapsed (delay_after (options s) (retryCount s))) w).
Proof.
  intros Hc. cbv zeta. destruct (calm_signal s w Hc) as [Ha Hs].
  cbn [reconnect]. unfold bind, modify, gets, is_aborted, timer, throw, ret.
  norm. rewrite Ha. norm.
  now rewrite (Hs w eq_refl).
Qed.

(** [connect] on a failing answer: one request, then the retry decision. *)
Lemma connect_fails fuel s w u e :
  calm s w = true ->
  target parseURL s = Some u ->
  failure (server w (requests w)) = Some e ->
  connect parseURL (S fuel) (s, w)
  = if may_retry s
    then reconnect parseURL fuel (s, requested u s w)
    else (Throw e, (s, requested u s w)).
Proof.
  intros Hc Hu Hf. destruct (calm_signal s w Hc) as [Ha Hs].
  cbn [connect]. unfold try_catch, connect_try, bind, gets, ret, throw, fetch, modify.
  norm.
  rewrite (as_URL_target s _ u Hu). norm.
  rewrite (target_headers s u Hu). norm. cbn [req_signal]. rewrite Ha.
  rewrite (Hs (count_request (log (Fetched _) w)) eq_refl).
  unfold failure in Hf. unfold may_retry, requested, request_to.
  destruct (server w (requests w)) as [|resp].
  - injection Hf as <-. cbn [instanceof_Error fst snd].
    now destruct (truthy_bool (retryStrategy (options s)) && shouldRetry s).
  - destruct (ok resp); cbn [negb] in *.
    + destruct (body resp); [discriminate|]. injection Hf as <-.
      cbn [instanceof_Error fst snd].
      now destruct (truthy_bool (retryStrategy (options s)) && shouldRetry s).
    + injection Hf as <-. cbn [instanceof_Error fst snd].
      now destruct (truthy_bool (retryStrategy (options s)) && shouldRetry s).
Qed.

(** [connect] on a good answer: one request, the counter back to 0, the
    processed stream installed. *)
Lemma connect_succeeds fuel s w u resp b :
  calm s w = true ->
  target parseURL s = Some u ->
  server w (requests w) = Responds resp -> ok resp = true -> body resp = Some b ->
  connect parseURL (S fuel) (s, w)
  = (Normal tt,
     (set_stream (Some (List.length (streams w))) (set_retryCount 0 s),
      set_streams (streams w ++ [pipe_body b]) (requested u s w))).
Proof.
  intros Hc Hu Hsrv Hok Hb. destruct (calm_signal s w Hc) as [Ha Hs].
  cbn [connect]. unfold try_catch, connect_try, bind, gets, ret, throw, fetch, modify, new_stream.
  norm.
  rewrite (as_URL_target s _ u Hu). norm.
  rewrite (target_headers s u Hu). norm. cbn [req_signal]. rewrite Ha.
  rewrite (Hs (count_request (log (Fetched _) w)) eq_refl).
  rewrite Hsrv, Hok, Hb. reflexivity.
Qed.

Lemma delays_app a b : delays (a ++ b) = delays a ++ delays b.
Proof. induction a as [|[] a IH]; cbn [app delays]; auto. now rewrite IH. Qed.

Lemma sent_app a b : sent (a ++ b) = (sent a + sent b)%nat.
Proof. induction a as [|[] a IH]; cbn [app sent]; auto. now rewrite IH. Qed.

Lemma num_lt_mono a b limit :
  (a <= b)%Z -> num_lt b limit = true -> num_lt a limit = true.
Proof.
  destruct limit as [z|]; cbn [num_lt]; [|reflexivity].
  intros Hab H. apply Z.ltb_lt in H. apply Z.ltb_lt. lia.
Qed.

(** [n] failed attempts in a row and then a good answer: [reconnect] waits
    [n + 1] times, each time for the delay of the retry count reached. *)
Lemma reconnect_rounds n : forall fuel s w u resp b,
  calm s w = true ->
  target parseURL s = Some u ->
  truthy_bool (retryStrategy (options s)) = true ->
  num_lt (Z.of_nat (retryCount s + n)) (nullish (maxRetries (options s)) Infinity) = true ->
  (forall k, (k < n)%nat -> failure (server w (requests w + k)) <> None) ->
  server w (requests w + n) = Responds resp -> ok resp = true -> body resp = Some b ->
  exists s' w' new,
    reconnect parseURL (2 * n + 2 + fuel) (s, w) = (Normal tt, (s', w')) /\
    trace w' = trace w ++ new /\
    delays new = map (fun k => delay_after (options s) (retryCount s + k)) (seq 0 (S n)) /\
    sent new = S n /\
    retryCount s' = 0.
Proof.
  induction n as [|n IH]; intros fuel s w u resp b Hc Hu Hr Hlim Hfail Hsrv Hok Hb.
  - cbn [Nat.mul Nat.add]. rewrite (reconnect_waits _ s w Hc). cbv zeta.
    rewrite Nat.add_0_r in Hsrv.
    erewrite connect_succeeds; eauto.
    do 3 eexists. split; [reflexivity|].
    split; [cbn; rewrite <- app_assoc; reflexivity|].
    cbn [delays map seq sent]. rewrite Nat.add_0_r. auto.
  - replace (2 * S n + 2 + fuel)%nat with (S (S (2 * n + 2 + fuel))) by lia.
    rewrite (reconnect_waits _ s w Hc). cbv zeta.
    set (s1 := set_retryCount (S (retryCount s)) s).
    set (w1 := log (TimerElapsed (delay_after (options s) (retryCount s))) w).
    assert (Hc1 : calm s1 w1 = true) by exact Hc.
    destruct (failure (server w1 (requests w1))) as [e|] eqn:Ef.
    2: { exfalso. apply (Hfail 0%nat); [lia|]. now rewrite Nat.add_0_r. }
    rewrite (connect_fails _ s1 w1 u e Hc1 Hu Ef).
    assert (Hm : may_retry s1 = true).
    { unfold may_retry, shouldRetry, s1. cbn [options retryCount set_retryCount].
      rewrite Hr. cbn [andb].
      eapply num_lt_mono; [|exact Hlim]. lia. }
    rewrite Hm.
    destruct (IH fuel s1 (requested u s1 w1) u resp b) as (s' & w' & new & E & Ht & Hd & Hn & H0).
    + exact Hc.
    + exact Hu.
    + exact Hr.
    + unfold s1. cbn [options retryCount set_retryCount].
      now replace (S (retryCount s) + n)%nat with (retryCount s + S n)%nat by lia.
    + intros k Hk. unfold w1. cbn [requested count_request log requests server].
      replace (S (requests w) + k)%nat with (requests w + S k)%nat by lia.
      apply Hfail. lia.
    + unfold w1. cbn [requested count_request log requests server].
      now replace (S (requests w) + n)%nat with (requests w + S n)%nat by lia.
    + exact Hok.
    + exact Hb.
    + exists s', w', (TimerElapsed (delay_after (options s) (retryCount s)) :: Fetched (request_to u s1) :: new).
      split; [exact E|]. split.
      { rewrite Ht. unfold w1. cbn [requested count_request log trace].
        now rewrite <- !app_assoc. }
      split.
      { cbn [delays]. rewrite Hd. unfold s1.
        cbn [options retryCount set_retryCount].
        change (seq 0 (S (S n))) with (0%nat :: seq 1 (S n)).
        cbn [map]. rewrite Nat.add_0_r. f_equal.
        rewrite <- seq_shift, map_map. apply map_ext. intros k.
        now replace (S (retryCount s) + k)%nat with (retryCount s + S k)%nat by lia. }
      split; [cbn [sent]; now rewrite Hn | exact H0].
Qed.

End Rounds.


(** *** The backoff schedule *)

(** Where the delay [reconnect] computes is the one of the formula
    [min (initial * 2^k) max]: the initial delay is not negative, the
    maximal delay is a finite double, and the power of two has not
    overflowed when the initial delay is 0.  A product that overflows to
    [Infinity] is capped like any other. *)
Lemma delay_after_exact o (k : nat) :
  (0 <= nullish (initialRetryDelay o) 1000)%Z ->
  (nullish (maxRetryDelay o) 30000 < 2 ^ 1024)%Z ->
  (nullish (initialRetryDelay o) 1000%Z = 0%Z -> (Z.of_nat k <= 1023)%Z) ->
  delay_after o k
  = Millis (Z.min (nullish (initialRetryDelay o) 1000 * 2 ^ Z.of_nat k)
                  (nullish (maxRetryDelay o) 30000))%Z.
Proof.
  intros Ha Hb Hz. unfold delay_after. cbv zeta.
  set (a := nullish (initialRetryDelay o) 1000%Z) in *.
  set (b := nullish (maxRetryDelay o) 30000%Z) in *.
  assert (Hp : (0 < 2 ^ Z.of_nat k)%Z) by (apply Z.pow_pos_nonneg; lia).
  assert (HB : (0 < 2 ^ 1024)%Z) by (apply Z.pow_pos_nonneg; lia).
  unfold pow2. destruct (Z.leb_spec (Z.of_nat k) 1023) as [Hk|Hk].
  - cbn [times]. cbv zeta.
    destruct (Z.leb_spec (2 ^ 1024) (a * 2 ^ Z.of_nat k)) as [Ho|Ho].
    + cbn [min_with]. f_equal. lia.
    + destruct (Z.leb_spec (a * 2 ^ Z.of_nat k) (- 2 ^ 1024)) as [Hn|Hn]; [nia|].
      reflexivity.
  - assert (Hpos : (0 < a)%Z).
    { destruct (Z.eq_dec a 0) as [E|E]; [specialize (Hz E); lia | lia]. }
    cbn [times]. destruct (Z.ltb_spec 0 a) as [_|]; [|lia].
    cbn [min_with]. f_equal.
    assert (Hbig : (2 ^ 1024 <= 2 ^ Z.of_nat k)%Z) by (apply Z.pow_le_mono_r; lia).
    nia.
Qed.

(** X26.  Starting from a retry counter at 0, as every established
    connection leaves it, when [n] attempts in a row fail and the next one
    succeeds, [reconnect] waits [n + 1] times, the i-th time for
    [min (initialDelay * 2^(i-1)) maxDelay], and the success puts the
    counter back to 0.  This is for delays that are integers, an initial
    delay that is not negative, a maximal delay below [2^1024] and, when
    the initial delay is 0, for at most 1024 retries in a row. *)
Theorem backoff_schedule (parseURL : string -> option URL) (n fuel : nat)
    (s : BetterSSEStream) (w : World) (u : URL) (resp : Response) (b : Body) :
  retryCount s = 0%nat ->
  calm s w = true ->
  target parseURL s = Some u ->
  truthy_bool (retryStrategy (options s)) = true ->
  num_lt (Z.of_nat n) (nullish (maxRetries (options s)) Infinity) = true ->
  (forall k, (k < n)%nat -> failure (server w (requests w + k)) <> None) ->
  server w (requests w + n) = Responds resp -> ok resp = true -> body resp = Some b ->
  (0 <= nullish (initialRetryDelay (options s)) 1000)%Z ->
  (nullish (maxRetryDelay (options s)) 30000 < 2 ^ 1024)%Z ->
  (nullish (initialRetryDelay (options s)) 1000%Z = 0%Z -> (Z.of_nat n <= 1023)%Z) ->
  exists s' w' new,
    reconnect parseURL (2 * n + 2 + fuel) (s, w) = (Normal tt, (s', w')) /\
    trace w' = trace w ++ new /\
    delays new
    = map (fun i => Millis (Z.min (nullish (initialRetryDelay (options s)) 1000
                                   * 2 ^ (Z.of_nat i - 1))
                                  (nullish (maxRetryDelay (options s)) 30000))%Z)
          (seq 1 (S n)) /\
    retryCount s' = 0%nat.
Proof.
  intros H0 Hc Hu Hr Hlim Hfail Hsrv Hok Hb Hinit Hmax Hzero.
  destruct (reconnect_rounds parseURL n fuel s w u resp b)
    as (s' & w' & new & E & Ht & Hd & _ & Hz); auto.
  { now rewrite H0. }
  exists s', w', new. repeat split; auto.
  rewrite Hd, <- seq_shift, map_map. apply map_ext_in. intros k Hk.
  apply in_seq in Hk. rewrite H0. cbn [Nat.add].
  rewrite delay_after_exact; auto.
  - now replace (Z.of_nat (S k) - 1)%Z with (Z.of_nat k) by lia.
  - intros E0. specialize (Hzero E0). lia.
Qed.

(** With the default delays, five failures in a row and then a success:
    the six retries wait 1000, 2000, 4000, 8000, 16000 and 30000 ms. *)
Lemma backoff_schedule_witness :
  exists s' w' new,
    reconnect Scenario.parseURL 12
      (new_BetterSSEStream (Scenario.opts None None),
       Scenario.host (Scenario.recovers 5) None)
    = (Normal tt, (s', w')) /\
    trace w' = trace (Scenario.host (Scenario.recovers 5) None) ++ new /\
    delays new = [Millis 1000; Millis 2000; Millis 4000; Millis 8000;
                  Millis 16000; Millis 30000] /\
    retryCount s' = 0%nat.
Proof.
  apply (backoff_schedule Scenario.parseURL 5 0
           (new_BetterSSEStream (Scenario.opts None None))
           (Scenario.host (Scenario.recovers 5) None)
           Scenario.endpoint
           {| ok := true; status := 200%Z;
              body := Some {| chunks := [Scenario.record ["data: back"%string]];
                              ending := BodyCloses; lost := 0 |} |}
           {| chunks := [Scenario.record ["data: back"%string]];
              ending := BodyCloses; lost := 0 |}).
  - reflexivity.
  - reflexivity.
  - reflexivity.
  - reflexivity.
  - reflexivity.
  - intros k Hk. do 5 (destruct k as [|k]; [discriminate|]). lia.
  - reflexivity.
  - reflexivity.
  - reflexivity.
  - cbn. lia.
  - apply Z.ltb_lt. reflexivity.
  - cbn. discriminate.
Defined.

(** The same delays seen from a pull: the stream of the first connection
    ends, five reconnections fail, the sixth succeeds. *)
Example backoff_seen_from_next :
  let srv := fun k => match k with
                      | 0%nat => Scenario.answers [] BodyCloses
                      | S k' => Scenario.recovers 5 k'
                      end in
  let r := next Scenario.parseURL 20
             (new_BetterSSEStream (Scenario.opts None None), Scenario.host srv None) in
  fst r = Normal (IterValue (SSEMessage.mk "message" "back" None None)) /\
  delays (trace (snd (snd r))) = [Millis 1000; Millis 2000; Millis 4000; Millis 8000;
                                  Millis 16000; Millis 30000] /\
  sent (trace (snd (snd r))) = 7%nat.
Proof. vm_compute. repeat split. Qed.

(** *** C2: transport failures when no retry is permitted *)

(** C2 as stated fails: with [maxRetries: 0] and a transport that always
    fails, the pull makes one connection attempt and waits for no delay,
    but it rejects with the transport error instead of resolving as
    end-of-sequence. *)
Lemma connection_failure_is_thrown :
  let r := next Scenario.parseURL 10
             (new_BetterSSEStream (Scenario.opts (Some (Finite 0)) None),
              Scenario.host Scenario.refuses None) in
  fst r = Throw FetchFailed /\
  fst r <> Normal IterDone /\
  sent (trace (snd (snd r))) = 1%nat /\
  delays (trace (snd (snd r))) = [].
Proof. vm_compute. repeat split. discriminate. Qed.

Section NoRetry.

Variable parseURL : string -> option URL.

(** A read that fails on a stream, when no retry is permitted: the pull
    resolves as end-of-sequence, whether or not the signal gets in the
    way, and nothing is sent. *)
Lemma read_failure_ends fuel s w h ms :
  may_retry s = false ->
  reader s = Some h ->
  nth_error (streams w) h = Some ms ->
  cancelled ms = false -> queue ms = [] -> stream_end ms = BodyFails ->
  exists s' w',
    next parseURL (S fuel) (s, w) = (Normal IterDone, (s', w')) /\
    trace w' = trace w.
Proof.
  unfold may_retry. intros Hm Hr Hn Hcan Hq He.
  assert (Hd : forall w', streams w' = streams w ->
                          deliver h (s, w') = (Throw ReadFailed, (s, w'))).
  { intros w' Hw. unfold deliver. now rewrite Hw, Hn, Hcan, Hq, He. }
  assert (Hread : exists e w', read h (s, w) = (Throw e, (s, w')) /\ trace w' = trace w).
  { unfold read.
    destruct (signal_aborted (abortController (options s)) w).
    - destruct (struck h w); [eauto|]. rewrite (Hd w eq_refl). eauto.
    - split_suspend; [rewrite (Hd w eq_refl) | rewrite Hd by reflexivity |]; eauto. }
  destruct Hread as (e & w' & E & Ht).
  cbn [next]. unfold bind at 1. unfold next_reader, bind, gets, ret. norm.
  rewrite Hr. norm.
  unfold bind, try_catch, next_try, next_catch, bind, gets, modify, throw, ret.
  rewrite E. norm.
  cbn [instanceof_Error andb].
  destruct (named_AbortError e); cbn [negb]; norm; [eauto|].
  rewrite Hm; norm; eauto.
Qed.

(** A pull that has to connect, when the attempt fails and no retry is
    permitted: one request, no timer, and the error is thrown. *)
Lemma connection_failure_throws fuel s w u e :
  may_retry s = false ->
  reader s = None -> stream s = None ->
  calm s w = true ->
  target parseURL s = Some u ->
  failure (server w (requests w)) = Some e ->
  next parseURL (S (S fuel)) (s, w) = (Throw e, (s, requested u s w)).
Proof.
  intros Hm Hr Hs Hc Hu Hf.
  cbn [next]. unfold bind at 1. unfold next_reader, bind, gets, ret. norm.
  rewrite Hr. norm. rewrite Hs.
  rewrite (connect_fails parseURL fuel s w u e Hc Hu Hf), Hm. reflexivity.
Qed.

End NoRetry.

(** C2, amended.  When no retry is permitted (retry disabled, or the retry
    count has reached [maxRetries]): a read that fails in mid-stream makes
    the pull resolve as end-of-sequence, with nothing thrown and nothing
    sent; a connection that cannot be established (refused, non-2xx
    response, missing body) on a pull that has to connect makes the pull
    reject with that error, after exactly one request and no backoff
    delay. *)
Theorem failures_without_retry (parseURL : string -> option URL) (fuel : nat)
    (s : BetterSSEStream) (w : World) :
  may_retry s = false ->
  (forall h ms,
      reader s = Some h -> nth_error (streams w) h = Some ms ->
      cancelled ms = false -> queue ms = [] -> stream_end ms = BodyFails ->
      exists s' w',
        next parseURL (S fuel) (s, w) = (Normal IterDone, (s', w')) /\
        trace w' = trace w) /\
  (forall u e,
      reader s = None -> stream s = None -> calm s w = true ->
      target parseURL s = Some u ->
      failure (server w (requests w)) = Some e ->
      exists w',
        next parseURL (S (S fuel)) (s, w) = (Throw e, (s, w')) /\
        trace w' = trace w ++ [Fetched (request_to u s)] /\
        requests w' = S (requests w)).
Proof.
  intros Hm. split.
  - intros h ms. now apply read_failure_ends.
  - intros u e Hr Hs Hc Hu Hf. exists (requested u s w).
    split; [now apply connection_failure_throws|]. split; reflexivity.
Qed.

(** [maxRetries: 0]: an iterator reading a stream that fails with nothing
    left on it, and a new iterator whose server cannot be reached. *)
Lemma failures_without_retry_witness :
  let reading := {| options := Scenario.opts (Some (Finite 0)) None; retryCount := 0;
                    currentLastEventId := None; stream := Some 0%nat;
                    reader := Some 0%nat |} in
  let broken := {| queue := []; stream_end := BodyFails; cancelled := false |} in
  let w := set_streams [broken] (Scenario.host Scenario.refuses None) in
  let fresh := new_BetterSSEStream (Scenario.opts (Some (Finite 0)) None) in
  let w0 := Scenario.host Scenario.refuses None in
  (exists s' w',
      next Scenario.parseURL 1 (reading, w) = (Normal IterDone, (s', w')) /\
      trace w' = trace w) /\
  (exists w',
      next Scenario.parseURL 2 (fresh, w0) = (Throw FetchFailed, (fresh, w')) /\
      trace w' = trace w0 ++ [Fetched (request_to Scenario.endpoint fresh)] /\
      requests w' = S (requests w0)).
Proof.
  cbv zeta. split.
  - apply (proj1 (failures_without_retry Scenario.parseURL 0
                    {| options := Scenario.opts (Some (Finite 0)) None; retryCount := 0;
                       currentLastEventId := None; stream := Some 0%nat;
                       reader := Some 0%nat |}
                    (set_streams [{| queue := []; stream_end := BodyFails;
                                     cancelled := false |}]
                       (Scenario.host Scenario.refuses None))
                    eq_refl)
             0%nat {| queue := []; stream_end := BodyFails; cancelled := false |});
      reflexivity.
  - apply (proj2 (failures_without_retry Scenario.parseURL 0
                    (new_BetterSSEStream (Scenario.opts (Some (Finite 0)) None))
                    (Scenario.host Scenario.refuses None)
                    eq_refl)
             Scenario.endpoint FetchFailed);
      reflexivity.
Defined.

(** A body that fails after one event, retry disabled: the first pull
    returns the event, the second one resolves as end-of-sequence. *)
Example read_failure_without_retry :
  let o := {| url := UrlObject Scenario.endpoint; withCredentials := None;
              abortController := None; retryStrategy := Some false;
              initialRetryDelay := None; maxRetryDelay := None;
              maxRetries := None; headers := None; lastEventId := None |} in
  let r := session Scenario.parseURL 10 [Pull; Pull]
             (new_BetterSSEStream o,
              Scenario.host (fun _ => Scenario.answers [["data: a"%string]] BodyFails) None) in
  fst r = [ Normal (IterValue (SSEMessage.mk "message" "a" None None));
            Normal IterDone ] /\
  sent (trace (snd (snd r))) = 1%nat.
Proof. vm_compute. split; reflexivity. Qed.

(** *** C3: cancellation *)

(** C3.  What the code does with an abort depends on where the pull is.
    (1) The stream ended, the pull is in the backoff wait of the [try]
    block: the wait is cut short and the pull resolves as end-of-sequence.
    (2) The read failed, the pull is in the backoff wait of the [catch]
    block: the wait is cut short and the pull rejects with [AbortError].
    (3) The pull is in its first [fetch]: it rejects with [AbortError].
    (4) After an abort in mid-read the pull resolves as end-of-sequence,
    and so does the following one; (5) but after case (1) the following
    pull, which has to connect, rejects with [AbortError]. *)
Theorem abort_is_thrown_outside_the_try_block :
  let o := Scenario.opts None (Some Controller) in
  let ends := fun _ : nat => Scenario.answers [] BodyCloses in
  let breaks := fun _ : nat => Scenario.answers [] BodyFails in
  let run := fun srv firing calls =>
    session Scenario.parseURL 20 calls
      (new_BetterSSEStream o, Scenario.host srv (Some firing)) in
  let timers := fun r : list (Completion IteratorResult) * Sigma =>
    filter (fun e => match e with TimerCleared _ => true | TimerElapsed _ => true
                                  | _ => false end) (trace (snd (snd r))) in
  (fst (run ends 2%nat [Pull]) = [Normal IterDone] /\
   timers (run ends 2%nat [Pull]) = [TimerCleared 1000]) /\
  (fst (run breaks 2%nat [Pull]) = [Throw AbortError] /\
   timers (run breaks 2%nat [Pull]) = [TimerCleared 1000]) /\
  fst (run ends 0%nat [Pull]) = [Throw AbortError] /\
  fst (run (fun _ => Scenario.answers [["data: a"%string]] BodyCloses) 2%nat
         [Pull; Pull; Pull])
    = [Normal (IterValue (SSEMessage.mk "message" "a" None None));
       Normal IterDone; Normal IterDone] /\
  fst (run ends 2%nat [Pull; Pull]) = [Normal IterDone; Throw AbortError].
Proof. vm_compute. repeat split. Qed.

(** *** C7: close and the cancellation handle *)


Lemma nth_error_replace_nth {A} (l : list A) : forall n x y,
  nth_error l n = Some y -> nth_error (replace_nth n x l) n = Some x.
Proof.
  induction l as [|a l IH]; intros [|n] x y; cbn [nth_error replace_nth];
    try discriminate; auto. apply IH.
Qed.

Section CloseFacts.

Variable parseURL : string -> option URL.


(** With the signal aborted, [connect] sends nothing and rejects: with the
    error of the URL or of the headers, or with [AbortError]. *)
Lemma connect_aborted fuel s w c :
  abortController (options s) = Some c -> aborted w = true ->
  exists r s',
    connect parseURL fuel (s, w) = (r, (s', w)) /\
    r <> Normal tt /\ reader s' = reader s /\ stream s' = stream s /\
    options s' = options s /\
    (2 <= fuel -> r <> Pending)%nat.
Proof.
  intros Hc Ha.
  assert (Hsig : signal_aborted (abortController (options s)) w = true)
    by now rewrite Hc.
  destruct fuel as [|fuel]; [exists Pending, s; repeat split; [discriminate | lia]|].
  cbn [connect]. unfold try_catch, connect_try, as_URL, bind, gets, fetch, throw, ret. norm.
  cbn [instanceof_Error].
  destruct (url (options s)) as [u|text]; [|destruct (parseURL text) as [u|]]; norm.
  all: try (destruct (connect_headers s) as [hs|]; norm).
  all: cbn [req_signal]; try rewrite Hsig; norm.
  all: destruct (truthy_bool (retryStrategy (options s)) && shouldRetry s); norm.
  all: try (eexists; exists s; repeat split; discriminate).
  all: destruct fuel as [|fuel]; [exists Pending, s; repeat split; [discriminate | lia]|].
  all: cbn [reconnect]; unfold bind, modify, gets, is_aborted, throw, ret; norm.
  all: rewrite Hsig; norm.
  all: eexists; eexists; split; [reflexivity|]; repeat split; discriminate.
Qed.




End CloseFacts.



(* ================================================================== *)
(** * Further properties of the code *)
(* ================================================================== *)

(** ** Splitting and joining *)

Section SplitJoin.

Import Js.

Lemma join_push_front c parts sep :
  parts <> [] -> join (push_front c parts) sep = String c (join parts sep).
Proof.
  destruct parts as [|p [|q ps]]; [contradiction| |]; reflexivity.
Qed.

Lemma join_cons p parts sep :
  parts <> [] -> join (p :: parts) sep = (p ++ sep ++ join parts sep)%string.
Proof. destruct parts; [contradiction | reflexivity]. Qed.

(** Joining the pieces of a split by the delimiter gives the text back. *)
Lemma join_split_delim s : join (split s DELIM) DELIM = s.
Proof.
  enough (H : join (split s DELIM) DELIM = s /\
              forall c, join (split (String c s) DELIM) DELIM = String c s) by apply H.
  induction s as [|d s [IH1 IH2]].
  - split; [reflexivity|]. intros c.
    now rewrite (split_delim_later c EmptyString (startsWith_delim_short c)).
  - split; [apply IH2|]. intros c.
    destruct (startsWith (String c (String d s)) DELIM) eqn:E.
    + rewrite startsWith_delim in E. apply andb_true_iff in E as [Ec Ed].
      apply Ascii.eqb_eq in Ec, Ed. subst c d.
      rewrite split_delim_here, join_cons by apply split_not_nil.
      now rewrite IH1.
    + rewrite (split_delim_later _ _ E), join_push_front by apply split_not_nil.
      now rewrite IH2.
Qed.

Lemma split_eol_cons c s :
  split (String c s) EOL
  = if Ascii.eqb c LF then EmptyString :: split s EOL
    else push_front c (split s EOL).
Proof.
  unfold split. cbn [split_from]. change (startsWith (String c s) EOL)
    with (Ascii.eqb c LF && true). rewrite andb_true_r.
  now destruct (Ascii.eqb c LF).
Qed.

(** Joining the lines of a text by line feeds gives the text back. *)
Lemma join_split_eol s : join (split s EOL) EOL = s.
Proof.
  induction s as [|c s IH]; [reflexivity|].
  rewrite split_eol_cons. destruct (Ascii.eqb_spec c LF) as [->|_].
  - rewrite join_cons by apply split_not_nil. now rewrite IH.
  - rewrite join_push_front by apply split_not_nil. now rewrite IH.
Qed.

(** No line of a text holds a line feed. *)
Lemma split_eol_lines s : Forall (fun l => includes l LF = false) (split s EOL).
Proof.
  induction s as [|c s IH]; [repeat constructor|].
  rewrite split_eol_cons. destruct (Ascii.eqb c LF) eqn:Ec.
  - constructor; [reflexivity | exact IH].
  - destruct (split s EOL) as [|p ps] eqn:Es; [now apply split_not_nil in Es|].
    inversion IH; subst. constructor; [|assumption].
    cbn [includes]. now rewrite Ec.
Qed.

Lemma split_eol_whole a : includes a LF = false -> split a EOL = [a].
Proof.
  induction a as [|c a IH]; [reflexivity|].
  cbn [includes]. intros H. apply orb_false_iff in H as [Hc Ha].
  now rewrite split_eol_cons, Hc, (IH Ha).
Qed.

Lemma split_eol_app a b :
  includes a LF = false ->
  split (a ++ String LF b)%string EOL = a :: split b EOL.
Proof.
  induction a as [|c a IH]; cbn [append].
  - intros _. now rewrite split_eol_cons, Ascii.eqb_refl.
  - cbn [includes]. intros H. apply orb_false_iff in H as [Hc Ha].
    now rewrite split_eol_cons, Hc, (IH Ha).
Qed.

(** Lines free of line feeds are what their join splits into. *)
Lemma split_unlines ls :
  ls <> [] -> Forall (fun l => includes l LF = false) ls ->
  split (unlines ls) EOL = ls.
Proof.
  induction ls as [|a ls IH]; [contradiction|]. intros _ H.
  inversion H as [|? ? Ha Hls]; subst.
  destruct ls as [|b ls].
  - now apply split_eol_whole.
  - unfold unlines in *. rewrite join_cons by discriminate.
    cbn [append]. change (EOL ++ ?x)%string with (String LF x).
    rewrite split_eol_app by exact Ha. f_equal. apply IH; [discriminate | exact Hls].
Qed.

Lemma includes_text_delim_cons c s :
  includes_text (String c s) DELIM
  = startsWith (String c s) DELIM || includes_text s DELIM.
Proof. reflexivity. Qed.

(** No piece of a split holds the delimiter. *)
Lemma split_delim_pieces s :
  Forall (fun p => includes_text p DELIM = false) (split s DELIM).
Proof.
  enough (H : Forall (fun p => includes_text p DELIM = false) (split s DELIM) /\
              forall c, Forall (fun p => includes_text p DELIM = false)
                          (split (String c s) DELIM)) by apply H.
  induction s as [|d s [IH1 IH2]].
  - split; [repeat constructor|]. intros c.
    rewrite (split_delim_later c EmptyString (startsWith_delim_short c)).
    repeat constructor. cbn. now rewrite andb_false_r.
  - split; [apply IH2|]. intros c.
    destruct (startsWith (String c (String d s)) DELIM) eqn:E.
    + rewrite startsWith_delim in E. apply andb_true_iff in E as [Ec Ed].
      apply Ascii.eqb_eq in Ec, Ed. subst c d.
      rewrite split_delim_here. constructor; [reflexivity | exact IH1].
    + rewrite (split_delim_later _ _ E).
      specialize (IH2 d).
      destruct (split_delim_head d s) as [(ps & Hne & E1) | (p & ps & E1)];
        rewrite E1 in *; cbn [push_front]; inversion IH2; subst;
        constructor; try assumption.
      * cbn. now rewrite andb_false_r.
      * rewrite includes_text_delim_cons, startsWith_delim.
        rewrite startsWith_delim in E. rewrite E. assumption.
Qed.

End SplitJoin.

(** ** The framer, chunk by chunk *)

Section FramerState.

Variable valid : string -> bool.

Lemma last_app_nonempty {A} (a b : list A) d : b <> [] -> last (a ++ b) d = last b d.
Proof.
  intros Hb. induction a as [|x a IH]; [reflexivity|].
  cbn [app]. destruct (a ++ b) eqn:E; [|exact IH].
  apply app_eq_nil in E. now destruct E.
Qed.

Lemma last_in {A} (l : list A) d : l <> [] -> In (last l d) l.
Proof.
  induction l as [|x [|y l] IH]; [contradiction | now left |].
  intros _. right. apply IH. discriminate.
Qed.

(** After any chunks the buffer is the last piece of the text received so
    far, and what was emitted are the valid ones among the other pieces. *)
Lemma feed_createSplitStream_state cs : forall buffer,
  Js.split buffer DELIM = [buffer] ->
  feed (createSplitStream valid) buffer cs
  = (last (Js.split (buffer ++ text_of cs)%string DELIM) EmptyString,
     filter valid (removelast (Js.split (buffer ++ text_of cs)%string DELIM))).
Proof.
  induction cs as [|c cs IH]; intros buffer Hb.
  - cbn [feed text_of fold_right]. now rewrite append_nil_r_string, Hb.
  - cbn [feed createSplitStream ts_transform]. unfold split_transform.
    fold (createSplitStream valid).
    rewrite (IH _ (split_last_whole (buffer ++ c)%string)).
    cbn [text_of fold_right]. fold (text_of cs).
    rewrite <- append_assoc_string, (resumable_all (buffer ++ c)%string).
    rewrite last_app_nonempty by apply split_not_nil.
    rewrite removelast_app by apply split_not_nil.
    now rewrite filter_app.
Qed.

End FramerState.

(** X1.  However the text arrives, the frames the split stream has emitted
    when it closes are the pieces of the whole text between delimiters that
    pass the filter, in order; these pieces, joined by the delimiter, are
    the text, and none of them holds a delimiter. *)
Theorem framer_frames (valid : string -> bool) (chunks : list string) :
  drain (createSplitStream valid) chunks
    = filter valid (Js.split (text_of chunks) DELIM) /\
  Js.join (Js.split (text_of chunks) DELIM) DELIM = text_of chunks /\
  Forall (fun p => includes_text p DELIM = false) (Js.split (text_of chunks) DELIM).
Proof.
  split; [apply drain_createSplitStream|].
  split; [apply join_split_delim | apply split_delim_pieces].
Qed.

(** X2.  While the stream is open the buffer of the split stream is the
    piece after the last delimiter received: it never holds a delimiter,
    and every piece before it has been emitted already if it passes the
    filter. *)
Theorem framer_buffer (valid : string -> bool) (chunks : list string) :
  let pieces := Js.split (text_of chunks) DELIM in
  feed (createSplitStream valid) EmptyString chunks
    = (last pieces EmptyString, filter valid (removelast pieces)) /\
  includes_text (last pieces EmptyString) DELIM = false.
Proof.
  cbv zeta. split.
  - exact (feed_createSplitStream_state valid chunks EmptyString eq_refl).
  - pose proof (split_delim_pieces (text_of chunks)) as H.
    rewrite Forall_forall in H. apply H, last_in, split_not_nil.
Qed.

(** ** More on the parser *)

Section ParserMore.

Import Js.

Lemma field_line_none name line :
  startsWith line (name ++ ":")%string = false -> Wire.field_line name line = None.
Proof. unfold Wire.field_line. now intros ->. Qed.

(** Any other line leaves the variables of the parser as they are. *)
Lemma parse_line_unrecognized vars line :
  recognized line = false -> parse_line vars line = vars.
Proof.
  unfold recognized. intros H.
  apply orb_false_iff in H as [H Hr]. apply orb_false_iff in H as [H Hi].
  apply orb_false_iff in H as [He Hd].
  pose proof (field_line_cut "event" line eq_refl) as Ce.
  pose proof (field_line_cut "data" line eq_refl) as Cd.
  pose proof (field_line_cut "id" line eq_refl) as Ci.
  pose proof (field_line_cut "retry" line eq_refl) as Cr.
  rewrite (field_line_none "event" line He) in Ce.
  rewrite (field_line_none "data" line Hd) in Cd.
  rewrite (field_line_none "id" line Hi) in Ci.
  rewrite (field_line_none "retry" line Hr) in Cr.
  rewrite parse_line_cut.
  destruct (Wire.cut line) as [[[|c f] raw]|]; try reflexivity.
  unfold switch_field.
  destruct (String.eqb (String c f) "event"); [discriminate|].
  destruct (String.eqb (String c f) "data"); [discriminate|].
  destruct (String.eqb (String c f) "id"); [discriminate|].
  destruct (String.eqb (String c f) "retry"); [discriminate|].
  reflexivity.
Qed.

Lemma fold_parse_line_recognized lines : forall vars,
  fold_left parse_line (filter recognized lines) vars
  = fold_left parse_line lines vars.
Proof.
  induction lines as [|line lines IH]; intros vars; cbn [filter fold_left]; [reflexivity|].
  destruct (recognized line) eqn:E; cbn [fold_left].
  - apply IH.
  - now rewrite (parse_line_unrecognized vars line E).
Qed.

(** The loop over the lines of a frame written as [unlines ls]. *)
Lemma fold_parse_line_unlines ls vars :
  Forall (fun l => includes l LF = false) ls ->
  fold_left parse_line (split (unlines ls) EOL) vars = fold_left parse_line ls vars.
Proof.
  intros H. destruct ls as [|a ls]; [reflexivity|].
  now rewrite split_unlines.
Qed.

Lemma includes_drop n : forall s c,
  includes s c = false -> includes (Wire.drop n s) c = false.
Proof.
  induction n as [|n IH]; intros [|a s] c; cbn [Wire.drop includes]; auto.
  intros H. apply orb_false_iff in H as [_ H]. now apply IH.
Qed.

Lemma includes_strip_space s c :
  includes s c = false -> includes (Wire.strip_space s) c = false.
Proof.
  destruct s as [|a s]; cbn [Wire.strip_space includes]; auto.
  intros H. destruct (Ascii.eqb a " "); [|exact H].
  now apply orb_false_iff in H as [_ H].
Qed.

(** The value of a field line holds no line feed when the line holds
    none. *)
Lemma field_line_clean name line v :
  includes line LF = false -> Wire.field_line name line = Some v ->
  includes v LF = false.
Proof.
  unfold Wire.field_line. intros Hl.
  destruct (startsWith line (name ++ ":")%string); [|discriminate].
  intros [= <-]. now apply includes_strip_space, includes_drop.
Qed.

(** What [last_value] finds is the value of one of the lines, and an
    acceptable one. *)
Lemma last_value_found accept name lines v :
  Wire.last_value accept name lines None = Some v ->
  accept v = true /\ exists line, In line lines /\ Wire.field_line name line = Some v.
Proof.
  induction lines as [|line lines IH]; cbn [Wire.last_value]; [discriminate|].
  destruct (Wire.field_line name line) as [x|] eqn:E.
  - destruct (accept x) eqn:Ea.
    + rewrite last_value_default.
      destruct (Wire.last_value accept name lines None) as [y|] eqn:El.
      * intros [= <-]. destruct (IH eq_refl) as (Hy & l & Hin & Hl).
        split; [exact Hy|]. exists l. split; [now right | exact Hl].
      * intros [= <-]. split; [exact Ea|]. exists line. split; [now left | exact E].
    + intros H. destruct (IH H) as (Hy & l & Hin & Hl).
      split; [exact Hy|]. exists l. split; [now right | exact Hl].
  - intros H. destruct (IH H) as (Hy & l & Hin & Hl).
    split; [exact Hy|]. exists l. split; [now right | exact Hl].
Qed.

Lemma field_values_clean name lines :
  Forall (fun l => includes l LF = false) lines ->
  Forall (fun v => includes v LF = false) (Wire.field_values name lines).
Proof.
  induction 1 as [|line lines Hl _ IH]; cbn [Wire.field_values]; [constructor|].
  destruct (Wire.field_line name line) as [v|] eqn:E; [|exact IH].
  constructor; [|exact IH]. eapply field_line_clean; eauto.
Qed.

End ParserMore.

(** X3.  Lines that do not begin with [event:], [data:], [id:] or
    [retry:] (comments, empty lines, lines without a colon, unknown
    fields, field names in another case or preceded by a space) do not
    count: a frame parses as the frame without them. *)
Theorem unrecognized_lines_ignored (lines : list string) :
  Forall (fun l => Js.includes l Js.LF = false) lines ->
  parse_transform (unlines lines) = parse_transform (unlines (filter recognized lines)).
Proof.
  intros H. unfold parse_transform. cbv zeta.
  assert (Hf : Forall (fun l => Js.includes l Js.LF = false) (filter recognized lines)).
  { rewrite Forall_forall in *. intros l Hl. apply filter_In in Hl. now apply H. }
  rewrite !(fold_parse_line_unlines lines _ H),
          !(fold_parse_line_unlines (filter recognized lines) _ Hf),
          !fold_parse_line_recognized.
  reflexivity.
Qed.

Lemma unrecognized_lines_ignored_witness :
  parse_transform
    (unlines [": comment"; "Data: x"; "event: tick"; ""; "data";
              " data: y"; "data: z"; "foo: bar"]%string)
  = parse_transform (unlines ["event: tick"; "data: z"]%string).
Proof.
  apply (unrecognized_lines_ignored
           [": comment"; "Data: x"; "event: tick"; ""; "data";
            " data: y"; "data: z"; "foo: bar"]%string).
  repeat constructor.
Defined.

(** X4.  In every message the parser makes, the id holds neither a NUL nor
    a line feed, the event name holds no line feed, and splitting the data
    at the line feeds gives back the values of the data lines. *)
Theorem message_fields_clean (frame : string) (m : SSEMessage.t) :
  parse_transform frame = [m] ->
  (forall v, SSEMessage.id m = Some v ->
             Js.includes v NUL = false /\ Js.includes v Js.LF = false) /\
  Js.includes (SSEMessage.event m) Js.LF = false /\
  Js.split (SSEMessage.data m) EOL = Wire.data_values (Js.split frame EOL).
Proof.
  intros Hp. rewrite parse_transform_spec in Hp. cbv zeta in Hp.
  pose proof (split_eol_lines frame) as Hl.
  destruct (Wire.data_values (Js.split frame EOL)) as [|d ds] eqn:Ed; [discriminate|].
  injection Hp as <-. cbn [SSEMessage.id SSEMessage.event SSEMessage.data].
  rewrite Forall_forall in Hl.
  split; [|split].
  - intros v Hv. apply last_value_found in Hv as (Hok & line & Hin & Hf).
    split.
    + unfold Wire.id_ok in Hok. now apply negb_true_iff in Hok.
    + eapply field_line_clean; [|exact Hf]. now apply Hl.
  - rewrite last_value_default.
    destruct (Wire.last_value Wire.any_value "event" (Js.split frame EOL) None)
      as [v|] eqn:Ev; cbn [nullish]; [|reflexivity].
    apply last_value_found in Ev as (_ & line & Hin & Hf).
    eapply field_line_clean; [|exact Hf]. now apply Hl.
  - change (Js.split (unlines (d :: ds)) EOL = d :: ds).
    apply split_unlines; [discriminate|].
    rewrite <- Ed. apply field_values_clean. now apply Forall_forall.
Qed.

Lemma message_fields_clean_witness :
  (forall v, SSEMessage.id (SSEMessage.mk "tick" (unlines ["a"; ""; "b"]%string)
                              (Some "7"%string) None) = Some v ->
             Js.includes v NUL = false /\ Js.includes v Js.LF = false) /\
  Js.includes (SSEMessage.event (SSEMessage.mk "tick" (unlines ["a"; ""; "b"]%string)
                                   (Some "7"%string) None)) Js.LF = false /\
  Js.split (SSEMessage.data (SSEMessage.mk "tick" (unlines ["a"; ""; "b"]%string)
                               (Some "7"%string) None)) EOL
  = Wire.data_values
      (Js.split (unlines ["event: tick"; "data: a"; "id: 7"; "data:"; "data: b"]%string) EOL).
Proof.
  apply (message_fields_clean
           (unlines ["event: tick"; "data: a"; "id: 7"; "data:"; "data: b"]%string)).
  reflexivity.
Defined.

(** X5.  The event name of a message is the value of the last event line
    of its frame, and [message] when the frame has none. *)
Theorem event_last_wins (frame : string) (m : SSEMessage.t) :
  parse_transform frame = [m] ->
  SSEMessage.event m
  = nullish (Wire.last_value Wire.any_value "event" (Js.split frame EOL) None)
            "message"%string.
Proof.
  intros Hp. rewrite parse_transform_spec in Hp. cbv zeta in Hp.
  destruct (Wire.data_values (Js.split frame EOL)); [discriminate|].
  injection Hp as <-. cbn [SSEMessage.event].
  rewrite last_value_default.
  now destruct (Wire.last_value Wire.any_value "event" (Js.split frame EOL) None).
Qed.

Lemma event_last_wins_witness :
  SSEMessage.event (SSEMessage.mk "b" "x" None None)
  = nullish (Wire.last_value Wire.any_value "event"
               (Js.split (unlines ["event: a"; "data: x"; "event:b"]%string) EOL) None)
            "message"%string.
Proof.
  apply (event_last_wins (unlines ["event: a"; "data: x"; "event:b"]%string)).
  reflexivity.
Defined.

(** X6.  The retry of a message is what [parseInt] reads from the last
    retry line it reads a number from, and is absent when there is no such
    line: a line with no leading number changes nothing, while a sign or
    trailing text does not prevent a line from being taken. *)
Theorem retry_last_number (frame : string) (m : SSEMessage.t) :
  parse_transform frame = [m] ->
  SSEMessage.retry m
  = match Wire.last_value Wire.retry_ok "retry" (Js.split frame EOL) None with
    | Some v => Js.parseInt v
    | None => None
    end.
Proof.
  intros Hp. rewrite parse_transform_spec in Hp. cbv zeta in Hp.
  destruct (Wire.data_values (Js.split frame EOL)); [discriminate|].
  now injection Hp as <-.
Qed.

Lemma retry_last_number_witness :
  SSEMessage.retry (SSEMessage.mk "message" "x" None (Some 2500%Z))
  = match Wire.last_value Wire.retry_ok "retry"
            (Js.split (unlines ["retry: 100"; "retry: 2500ms"; "retry: soon"; "data: x"]%string)
               EOL) None with
    | Some v => Js.parseInt v
    | None => None
    end.
Proof.
  apply (retry_last_number
           (unlines ["retry: 100"; "retry: 2500ms"; "retry: soon"; "data: x"]%string)).
  reflexivity.
Defined.

(** ** Reading a stream *)

Section Reading.

Variable parseURL : string -> option URL.

Lemma calm_suspend s w :
  calm s w = true ->
  signal_aborted (abortController (options s)) w = false /\
  suspend (abortController (options s)) w = (false, w).
Proof.
  intros H. destruct (calm_signal s w H) as [Ha Hs]. split; [exact Ha | now apply Hs].
Qed.

(** With a reader at hand and a message waiting, a pull returns that
    message and takes it off the stream; nothing else changes but the
    cursor. *)
Lemma next_reads fuel s w h ms m rest :
  calm s w = true ->
  reader s = Some h ->
  nth_error (streams w) h = Some ms ->
  cancelled ms = false -> queue ms = m :: rest ->
  next parseURL (S fuel) (s, w)
  = (Normal (IterValue m), (after_value m s, after_read h ms rest w)).
Proof.
  intros Hc Hr Hn Hcan Hq. destruct (calm_suspend s w Hc) as [Ha Hs].
  cbn [next]. unfold bind at 1. unfold next_reader, bind, gets, ret. norm.
  rewrite Hr. norm.
  unfold bind, try_catch, next_try, bind, read, deliver, gets, modify, when, throw, ret. norm.
  rewrite Ha, Hs, Hn, Hcan, Hq. norm.
  unfold after_value, after_read.
  now destruct (truthy_string (SSEMessage.id m)).
Qed.

(** With a reader at hand on a stream that is exhausted and closed, or
    cancelled, and no retry permitted, a pull resolves as end-of-sequence
    and releases the reader. *)
Lemma next_ends fuel s w h ms :
  calm s w = true ->
  may_retry s = false ->
  reader s = Some h ->
  nth_error (streams w) h = Some ms ->
  cancelled ms = true \/ (queue ms = [] /\ stream_end ms = BodyCloses) ->
  next parseURL (S fuel) (s, w) = (Normal IterDone, (set_reader None s, w)).
Proof.
  unfold may_retry. intros Hc Hm Hr Hn Hend. destruct (calm_suspend s w Hc) as [Ha Hs].
  cbn [next]. unfold bind at 1. unfold next_reader, bind, gets, ret. norm.
  rewrite Hr. norm.
  unfold bind, try_catch, next_try, bind, read, deliver, gets, modify, when, throw, ret. norm.
  rewrite Ha, Hs, Hn.
  destruct Hend as [Hcan | [Hq He]].
  - rewrite Hcan. norm.
    change (shouldRetry (set_reader None s)) with (shouldRetry s). now rewrite Hm.
  - destruct (cancelled ms); norm.
    + change (shouldRetry (set_reader None s)) with (shouldRetry s). now rewrite Hm.
    + rewrite Hq, He. norm.
      change (shouldRetry (set_reader None s)) with (shouldRetry s). now rewrite Hm.
Qed.

(** A pull without a reader on an iterator that has a stream takes a
    reader on that stream and goes on as if it had had it. *)
Lemma next_takes_reader fuel s w h :
  reader s = None -> stream s = Some h ->
  next parseURL (S fuel) (s, w) = next parseURL (S fuel) (set_reader (Some h) s, w).
Proof.
  intros Hr Hs. cbn [next]. unfold bind at 1 3. unfold next_reader, bind, gets, modify, ret.
  norm. rewrite Hr. norm. rewrite Hs. norm. rewrite ?Hs. norm. reflexivity.
Qed.

End Reading.

Lemma session_app parseURL fuel a : forall b st,
  session parseURL fuel (a ++ b) st =
  let (r1, st1) := session parseURL fuel a st in
  let (r2, st2) := session parseURL fuel b st1 in
  (r1 ++ r2, st2).
Proof.
  induction a as [|c a IH]; intros b st; cbn [app session].
  - now destruct (session parseURL fuel b st).
  - destruct (perform parseURL fuel c st) as [r st1]. rewrite IH.
    destruct (session parseURL fuel a st1) as [r1 st2].
    now destruct (session parseURL fuel b st2).
Qed.

Section Delivery.

Variable parseURL : string -> option URL.

(** A pull by the consumer that reads a waiting message. *)
Lemma perform_reads fuel s w h ms m rest :
  calm s w = true ->
  reader s = Some h ->
  nth_error (streams w) h = Some ms ->
  cancelled ms = false -> queue ms = m :: rest ->
  perform parseURL (S fuel) Pull (s, w)
  = (Normal (IterValue m),
     (after_value m s, log (Yielded m) (after_read h ms rest w))).
Proof.
  intros. cbn [perform]. unfold bind.
  erewrite next_reads by eassumption. reflexivity.
Qed.

Lemma pulls_read fuel ahead : forall s w h ms rest,
  calm s w = true ->
  reader s = Some h ->
  nth_error (streams w) h = Some ms ->
  cancelled ms = false -> queue ms = ahead ++ rest ->
  exists s' w' ms',
    session parseURL (S fuel) (repeat Pull (List.length ahead)) (s, w)
    = (map (fun m => Normal (IterValue m)) ahead, (s', w')) /\
    nth_error (streams w') h = Some ms' /\
    queue ms' = rest /\ cancelled ms' = false /\ stream_end ms' = stream_end ms /\
    trace w' = trace w ++ map Yielded ahead /\
    calm s' w' = true /\ reader s' = Some h /\ stream s' = stream s /\
    options s' = options s /\ retryCount s' = retryCount s.
Proof.
  induction ahead as [|m ahead IH]; intros s w h ms rest Hc Hr Hn Hcan Hq.
  - exists s, w, ms. cbn [List.length repeat session map].
    rewrite app_nil_r. repeat split; auto.
  - cbn [List.length repeat session].
    rewrite (perform_reads fuel s w h ms m (ahead ++ rest) Hc Hr Hn Hcan Hq).
    set (s1 := after_value m s).
    set (w1 := log (Yielded m) (after_read h ms (ahead ++ rest) w)).
    assert (Ho : options s1 = options s /\ reader s1 = reader s /\
                 stream s1 = stream s /\ retryCount s1 = retryCount s).
    { unfold s1, after_value. destruct (truthy_string (SSEMessage.id m)); repeat split. }
    destruct Ho as (Ho & Hr1 & Hs1 & Hrc).
    assert (Hc1 : calm s1 w1 = true).
    { unfold calm in *. rewrite Ho. exact Hc. }
    assert (Hn1 : nth_error (streams w1) h
                  = Some {| queue := ahead ++ rest; stream_end := stream_end ms;
                            cancelled := false |}).
    { unfold w1, after_read. cbn [log set_streams streams].
      eapply nth_error_replace_nth; eassumption. }
    destruct (IH s1 w1 h _ rest Hc1 (eq_trans Hr1 Hr) Hn1 eq_refl eq_refl)
      as (s' & w' & ms' & E & Hn' & Hq' & Hcan' & He' & Ht' & Hc' & Hr' & Hs' & Ho' & Hrc').
    rewrite E. exists s', w', ms'. repeat split; auto; try congruence.
    rewrite Ht'. unfold w1, after_read. cbn [log set_streams trace map].
    now rewrite <- app_assoc.
Qed.

(** Pulls at the end of a stream that closed, no retry being permitted. *)
Lemma pulls_end fuel n : forall s w h ms,
  calm s w = true ->
  may_retry s = false ->
  stream s = Some h -> reader s = None \/ reader s = Some h ->
  nth_error (streams w) h = Some ms ->
  cancelled ms = true \/ (queue ms = [] /\ stream_end ms = BodyCloses) ->
  exists s',
    session parseURL (S fuel) (repeat Pull n) (s, w)
    = (repeat (Normal IterDone) n, (s', w)) /\
    options s' = options s /\ stream s' = Some h /\
    currentLastEventId s' = currentLastEventId s.
Proof.
  induction n as [|n IH]; intros s w h ms Hc Hm Hs Hr Hn Hend.
  - exists s. repeat split; auto.
  - cbn [repeat session perform]. unfold bind at 1.
    assert (E : next parseURL (S fuel) (s, w)
                = (Normal IterDone, (set_reader None s, w))).
    { destruct Hr as [Hr|Hr].
      - rewrite (next_takes_reader parseURL fuel s w h Hr Hs).
        rewrite (next_ends parseURL fuel (set_reader (Some h) s) w h ms); auto.
      - now rewrite (next_ends parseURL fuel s w h ms). }
    rewrite E. unfold bind, yielded, ret. cbn [fst snd].
    destruct (IH (set_reader None s) w h ms) as (s' & E' & Ho & Hs' & Hcur); auto.
    rewrite E'. exists s'. repeat split; auto.
Qed.

End Delivery.

(** X7.  While messages are waiting on the stream being read, a stream
    that does not fail, and the signal stays quiet, each pull returns the
    next message, in the order of the stream; the pulls send nothing and
    start no timer, and leave on the stream exactly the messages not yet
    returned. *)
Theorem pulls_follow_the_stream (parseURL : string -> option URL) (fuel : nat)
    (s : BetterSSEStream) (w : World) (h : nat) (ms : MessageStream)
    (ahead rest : list SSEMessage.t) :
  calm s w = true ->
  reader s = Some h ->
  nth_error (streams w) h = Some ms ->
  stream_end ms = BodyCloses ->
  cancelled ms = false -> queue ms = ahead ++ rest ->
  exists s' w' ms',
    session parseURL (S fuel) (repeat Pull (List.length ahead)) (s, w)
    = (map (fun m => Normal (IterValue m)) ahead, (s', w')) /\
    trace w' = trace w ++ map Yielded ahead /\
    nth_error (streams w') h = Some ms' /\ queue ms' = rest /\
    stream_end ms' = BodyCloses.
Proof.
  intros Hc Hr Hn Hend Hcan Hq.
  destruct (pulls_read parseURL fuel ahead s w h ms rest Hc Hr Hn Hcan Hq)
    as (s' & w' & ms' & E & Hn' & Hq' & _ & He' & Ht & _).
  exists s', w', ms'. rewrite Hend in He'. auto 6.
Qed.

Section OneConnection.

Variable parseURL : string -> option URL.

(** The first pull of an iterator that connects with success goes on as a
    pull on the new stream. *)
Lemma next_connects fuel s w u resp b :
  reader s = None -> stream s = None ->
  calm s w = true ->
  target parseURL s = Some u ->
  server w (requests w) = Responds resp -> ok resp = true -> body resp = Some b ->
  next parseURL (S (S fuel)) (s, w)
  = next parseURL (S (S fuel))
      (set_reader (Some (List.length (streams w)))
         (set_stream (Some (List.length (streams w))) (set_retryCount 0 s)),
       set_streams (streams w ++ [pipe_body b]) (requested u s w)).
Proof.
  intros Hr Hs Hc Hu Hsrv Hok Hb.
  cbn [next]. unfold bind at 1 3. unfold next_reader, bind, gets, modify, ret.
  norm. rewrite Hr. norm. rewrite Hs.
  rewrite (connect_succeeds parseURL fuel s w u resp b Hc Hu Hsrv Hok Hb).
  norm. reflexivity.
Qed.

End OneConnection.

(** X8.  One connection from end to end.  An iterator that has to connect,
    on which no retry is permitted once connected, whose request is
    answered by a body that closes: the pulls return the events of the
    body as the split and parse streams make them, in order, and then
    end-of-sequence each time; one request is sent in all. *)
Theorem one_connection_delivers (parseURL : string -> option URL) (fuel k : nat)
    (s : BetterSSEStream) (w : World) (u : URL) (resp : Response) (b : Body) :
  reader s = None -> stream s = None ->
  calm s w = true ->
  may_retry (set_retryCount 0 s) = false ->
  target parseURL s = Some u ->
  server w (requests w) = Responds resp -> ok resp = true -> body resp = Some b ->
  ending b = BodyCloses ->
  let events := drain (processedStream isValidString) (chunks b) in
  exists s' w',
    session parseURL (S (S fuel)) (repeat Pull (List.length events + S k)) (s, w)
    = (map (fun m => Normal (IterValue m)) events ++ repeat (Normal IterDone) (S k),
       (s', w')) /\
    trace w' = trace w ++ Fetched (request_to u s) :: map Yielded events.
Proof.
  intros Hr Hs Hc Hm Hu Hsrv Hok Hb He events.
  set (h := List.length (streams w)).
  set (s1 := set_reader (Some h) (set_stream (Some h) (set_retryCount 0 s))).
  set (w1 := set_streams (streams w ++ [pipe_body b]) (requested u s w)).
  assert (E0 : forall calls,
             session parseURL (S (S fuel)) (Pull :: calls) (s, w)
             = session parseURL (S (S fuel)) (Pull :: calls) (s1, w1)).
  { intros calls. cbn [session perform]. unfold bind at 1 4.
    now rewrite (next_connects parseURL fuel s w u resp b Hr Hs Hc Hu Hsrv Hok Hb). }
  assert (Hc1 : calm s1 w1 = true) by exact Hc.
  assert (Hn1 : nth_error (streams w1) h = Some (pipe_body b)).
  { unfold w1, h. cbn [set_streams streams].
    rewrite nth_error_app2, Nat.sub_diag by lia. reflexivity. }
  assert (Hq1 : queue (pipe_body b) = events ++ []).
  { unfold pipe_body. cbn [queue]. rewrite He. now rewrite app_nil_r. }
  destruct (pulls_read parseURL (S fuel) events s1 w1 h (pipe_body b) [] Hc1
              eq_refl Hn1 eq_refl Hq1)
    as (s2 & w2 & ms2 & E1 & Hn2 & Hq2 & Hcan2 & He2 & Ht2 & Hc2 & Hr2 & Hs2 & Ho2 & Hrc2).
  destruct (pulls_end parseURL (S fuel) (S k) s2 w2 h ms2) as (s3 & E2 & _).
  - exact Hc2.
  - unfold may_retry, shouldRetry in *. rewrite Ho2, Hrc2. exact Hm.
  - now rewrite Hs2.
  - now right.
  - exact Hn2.
  - right. split; [exact Hq2|]. rewrite He2. unfold pipe_body. cbn [stream_end]. exact He.
  - exists s3, w2. split.
    + replace (List.length events + S k)%nat with (S (List.length events + k)) by lia.
      cbn [repeat]. rewrite E0.
      change (Pull :: repeat Pull (List.length events + k))
        with (repeat Pull (S (List.length events + k))).
      replace (S (List.length events + k)) with (List.length events + S k)%nat by lia.
      rewrite repeat_app, session_app, E1, E2. reflexivity.
    + rewrite Ht2. unfold w1. cbn [set_streams requested count_request log trace].
      now rewrite <- app_assoc.
Qed.

Lemma pulls_follow_the_stream_witness :
  let m := fun d => SSEMessage.mk "message" d None None in
  let s := {| options := Scenario.opts None None; retryCount := 0;
              currentLastEventId := None; stream := Some 0%nat; reader := Some 0%nat |} in
  let ms := {| queue := [m "a"; m "b"; m "c"]%string; stream_end := BodyCloses;
               cancelled := false |} in
  let w := set_streams [ms] (Scenario.host Scenario.refuses None) in
  exists s' w' ms',
    session Scenario.parseURL 1 [Pull; Pull] (s, w)
    = ([Normal (IterValue (m "a"%string)); Normal (IterValue (m "b"%string))], (s', w')) /\
    trace w' = trace w ++ [Yielded (m "a"%string); Yielded (m "b"%string)] /\
    nth_error (streams w') 0 = Some ms' /\ queue ms' = [m "c"%string] /\
    stream_end ms' = BodyCloses.
Proof.
  cbv zeta.
  apply (pulls_follow_the_stream Scenario.parseURL 0 _ _ 0
           {| queue := [SSEMessage.mk "message" "a" None None;
                        SSEMessage.mk "message" "b" None None;
                        SSEMessage.mk "message" "c" None None];
              stream_end := BodyCloses; cancelled := false |}
           [SSEMessage.mk "message" "a" None None; SSEMessage.mk "message" "b" None None]
           [SSEMessage.mk "message" "c" None None]); reflexivity.
Defined.

Lemma one_connection_delivers_witness :
  let s := new_BetterSSEStream (Scenario.opts (Some (Finite 0)) None) in
  let w := Scenario.host Scenario.blank_id None in
  exists s' w',
    session Scenario.parseURL 2 [Pull; Pull; Pull; Pull] (s, w)
    = ([Normal (IterValue (SSEMessage.mk "message" "a" (Some "42"%string) None));
        Normal (IterValue (SSEMessage.mk "message" "b" (Some EmptyString) None));
        Normal IterDone; Normal IterDone], (s', w')) /\
    trace w' = trace w ++
      [Fetched (request_to Scenario.endpoint s);
       Yielded (SSEMessage.mk "message" "a" (Some "42"%string) None);
       Yielded (SSEMessage.mk "message" "b" (Some EmptyString) None)].
Proof.
  cbv zeta.
  apply (one_connection_delivers Scenario.parseURL 0 1
           (new_BetterSSEStream (Scenario.opts (Some (Finite 0)) None))
           (Scenario.host Scenario.blank_id None) Scenario.endpoint
           {| ok := true; status := 200%Z;
              body := Some {| chunks := map Scenario.record
                                          [["id: 42"; "data: a"]; ["id:"; "data: b"]]%string;
                              ending := BodyCloses; lost := 0 |} |}
           {| chunks := map Scenario.record
                          [["id: 42"; "data: a"]; ["id:"; "data: b"]]%string;
              ending := BodyCloses; lost := 0 |}); reflexivity.
Defined.

(** ** Running out of retries *)

Section Exhaustion.

Variable parseURL : string -> option URL.

(** [n + 1] retries are left and every attempt fails: [reconnect] waits
    and tries [n + 1] times and throws the error of the last attempt. *)
Lemma reconnect_exhausts n : forall fuel s w u,
  calm s w = true ->
  target parseURL s = Some u ->
  truthy_bool (retryStrategy (options s)) = true ->
  maxRetries (options s) = Some (Finite (Z.of_nat (retryCount s + S n))) ->
  (forall k, (k <= n)%nat -> failure (server w (requests w + k)) <> None) ->
  exists e s' w' new,
    reconnect parseURL (2 * n + 2 + fuel) (s, w) = (Throw e, (s', w')) /\
    failure (server w (requests w + n)) = Some e /\
    retryCount s' = (retryCount s + S n)%nat /\ options s' = options s /\
    reader s' = reader s /\ stream s' = stream s /\
    requests w' = (requests w + S n)%nat /\
    trace w' = trace w ++ new /\
    delays new = map (fun k => delay_after (options s) (retryCount s + k)) (seq 0 (S n)) /\
    sent new = S n.
Proof.
  induction n as [|n IH]; intros fuel s w u Hc Hu Hr Hmax Hfail.
  - cbn [Nat.mul Nat.add]. rewrite (reconnect_waits _ _ s w Hc). cbv zeta.
    set (s1 := set_retryCount (S (retryCount s)) s).
    set (w1 := log (TimerElapsed (delay_after (options s) (retryCount s))) w).
    destruct (failure (server w1 (requests w1))) as [e|] eqn:Ef.
    2: { exfalso. apply (Hfail 0%nat); [lia|]. now rewrite Nat.add_0_r. }
    rewrite (connect_fails _ _ s1 w1 u e Hc Hu Ef).
    assert (Hm : may_retry s1 = false).
    { unfold may_retry, shouldRetry, s1. cbn [options retryCount set_retryCount].
      rewrite Hr, Hmax. cbn [andb nullish num_lt]. apply Z.ltb_ge. lia. }
    rewrite Hm. exists e, s1, (requested u s1 w1), [TimerElapsed (delay_after (options s) (retryCount s)); Fetched (request_to u s1)].
    unfold s1 at 2 3 4 5. cbn [options retryCount reader stream set_retryCount].
    repeat split; try reflexivity.
    + now rewrite Nat.add_0_r.
    + lia.
    + unfold w1. cbn [requested count_request log requests]. lia.
    + unfold w1. cbn [requested count_request log trace]. now rewrite <- app_assoc.
    + cbn [delays map seq]. now rewrite Nat.add_0_r.
  - replace (2 * S n + 2 + fuel)%nat with (S (S (2 * n + 2 + fuel))) by lia.
    rewrite (reconnect_waits _ _ s w Hc). cbv zeta.
    set (s1 := set_retryCount (S (retryCount s)) s).
    set (w1 := log (TimerElapsed (delay_after (options s) (retryCount s))) w).
    destruct (failure (server w1 (requests w1))) as [e|] eqn:Ef.
    2: { exfalso. apply (Hfail 0%nat); [lia|]. now rewrite Nat.add_0_r. }
    rewrite (connect_fails _ _ s1 w1 u e Hc Hu Ef).
    assert (Hm : may_retry s1 = true).
    { unfold may_retry, shouldRetry, s1. cbn [options retryCount set_retryCount].
      rewrite Hr, Hmax. cbn [andb nullish num_lt]. apply Z.ltb_lt. lia. }
    rewrite Hm.
    destruct (IH fuel s1 (requested u s1 w1) u)
      as (e' & s' & w' & new & E & He & Hrc & Ho & Hrd & Hst & Hreq & Ht & Hd & Hn).
    + exact Hc.
    + exact Hu.
    + exact Hr.
    + unfold s1. cbn [options retryCount set_retryCount]. rewrite Hmax.
      do 3 f_equal. lia.
    + intros k Hk. unfold w1. cbn [requested count_request log requests server].
      replace (S (requests w) + k)%nat with (requests w + S k)%nat by lia.
      apply Hfail. lia.
    + exists e', s', w', (TimerElapsed (delay_after (options s) (retryCount s)) :: Fetched (request_to u s1) :: new).
      split; [exact E|].
      unfold s1, w1 in *. cbn [options retryCount reader stream set_retryCount
                               requested count_request log requests server trace] in *.
      repeat split; try assumption.
      * now replace (requests w + S n)%nat with (S (requests w) + n)%nat by lia.
      * lia.
      * lia.
      * rewrite Ht. now rewrite <- !app_assoc.
      * cbn [delays]. rewrite Hd.
        change (seq 0 (S (S n))) with (0%nat :: seq 1 (S n)).
        cbn [map]. rewrite Nat.add_0_r. f_equal.
        rewrite <- seq_shift, map_map. apply map_ext. intros k.
        now replace (S (retryCount s) + k)%nat with (retryCount s + S k)%nat by lia.
      * cbn [sent]. now rewrite Hn.
Qed.

(** A pull that has to connect, with [M] retries allowed and every attempt
    failing: [M + 1] requests, [M] waits, and the error of the last
    attempt is thrown. *)
Lemma next_exhausts (M fuel : nat) (s : BetterSSEStream) (w : World) (u : URL) :
  retryCount s = 0%nat -> reader s = None -> stream s = None ->
  calm s w = true ->
  target parseURL s = Some u ->
  truthy_bool (retryStrategy (options s)) = true ->
  maxRetries (options s) = Some (Finite (Z.of_nat M)) ->
  (forall k, (k <= M)%nat -> failure (server w (requests w + k)) <> None) ->
  exists e s' w' new,
    next parseURL (2 * M + 2 + fuel) (s, w) = (Throw e, (s', w')) /\
    failure (server w (requests w + M)) = Some e /\
    trace w' = trace w ++ new /\
    sent new = S M /\
    delays new = map (delay_after (options s)) (seq 0 M) /\
    retryCount s' = M.
Proof.
  intros H0 Hr Hs Hc Hu Hre Hmax Hfail.
  replace (2 * M + 2 + fuel)%nat with (S (S (2 * M + fuel))) by lia.
  cbn [next]. unfold bind at 1. unfold next_reader, bind, gets, ret. norm.
  rewrite Hr. norm. rewrite Hs.
  destruct (failure (server w (requests w))) as [e0|] eqn:Ef.
  2: { exfalso. apply (Hfail 0%nat); [lia|]. now rewrite Nat.add_0_r. }
  rewrite (connect_fails parseURL _ s w u e0 Hc Hu Ef).
  destruct M as [|n].
  - assert (Hm : may_retry s = false).
    { unfold may_retry, shouldRetry. rewrite Hre, Hmax, H0. reflexivity. }
    rewrite Hm. exists e0, s, (requested u s w), [Fetched (request_to u s)].
    rewrite Nat.add_0_r. repeat split; auto.
  - assert (Hm : may_retry s = true).
    { unfold may_retry, shouldRetry. rewrite Hre, Hmax, H0. cbn [andb nullish num_lt].
      apply Z.ltb_lt. lia. }
    rewrite Hm.
    replace (2 * S n + fuel)%nat with (2 * n + 2 + fuel)%nat by lia.
    destruct (reconnect_exhausts n fuel s (requested u s w) u)
      as (e & s' & w' & new & E & He & Hrc & _ & _ & _ & _ & Ht & Hd & Hn); auto.
    + rewrite Hmax, H0. reflexivity.
    + intros k Hk. cbn [requested count_request log requests server].
      replace (S (requests w) + k)%nat with (requests w + S k)%nat by lia.
      apply Hfail. lia.
    + rewrite E. exists e, s', w', (Fetched (request_to u s) :: new).
      cbn [requested count_request log requests server trace] in *.
      repeat split.
      * now replace (requests w + S n)%nat with (S (requests w) + n)%nat by lia.
      * rewrite Ht. now rewrite <- app_assoc.
      * cbn [sent]. now rewrite Hn.
      * cbn [delays]. rewrite Hd, H0. reflexivity.
      * rewrite Hrc, H0. reflexivity.
Qed.

End Exhaustion.

Lemma failure_not_abort a e : failure a = Some e -> named_AbortError e = false.
Proof.
  unfold failure. destruct a as [|r]; [now intros [= <-]|].
  destruct (negb (ok r)); [now intros [= <-]|].
  destruct (body r); [discriminate | now intros [= <-]].
Qed.

(** X9.  A pull that has to connect, with retries enabled, [maxRetries]
    equal to [M] and a transport that fails every time: it sends [M + 1]
    requests, waits between them [M] times, before the i-th retry for the
    delay [reconnect] computes after [i - 1] retries, and rejects with the
    error of the last attempt. *)
Theorem retries_exhausted_on_connect (parseURL : string -> option URL)
    (M fuel : nat) (s : BetterSSEStream) (w : World) (u : URL) :
  retryCount s = 0%nat -> reader s = None -> stream s = None ->
  calm s w = true ->
  target parseURL s = Some u ->
  truthy_bool (retryStrategy (options s)) = true ->
  maxRetries (options s) = Some (Finite (Z.of_nat M)) ->
  (forall k, (k <= M)%nat -> failure (server w (requests w + k)) <> None) ->
  exists e s' w' new,
    next parseURL (2 * M + 2 + fuel) (s, w) = (Throw e, (s', w')) /\
    failure (server w (requests w + M)) = Some e /\
    trace w' = trace w ++ new /\
    sent new = S M /\
    delays new = map (delay_after (options s)) (seq 0 M) /\
    retryCount s' = M.
Proof.
  intros H0 Hr Hs Hc Hu Hre Hmax Hfail.
  exact (next_exhausts parseURL M fuel s w u H0 Hr Hs Hc Hu Hre Hmax Hfail).
Qed.

Lemma retries_exhausted_on_connect_witness :
  let s := new_BetterSSEStream (Scenario.opts (Some (Finite 3)) None) in
  let w := Scenario.host Scenario.refuses None in
  exists e s' w' new,
    next Scenario.parseURL 8 (s, w) = (Throw e, (s', w')) /\
    failure (server w (requests w + 3)) = Some e /\
    trace w' = trace w ++ new /\
    sent new = 4%nat /\
    delays new = [Millis 1000; Millis 2000; Millis 4000] /\
    retryCount s' = 3%nat.
Proof.
  cbv zeta.
  apply (retries_exhausted_on_connect Scenario.parseURL 3 0
           (new_BetterSSEStream (Scenario.opts (Some (Finite 3)) None))
           (Scenario.host Scenario.refuses None) Scenario.endpoint);
    try reflexivity.
  intros k _. discriminate.
Defined.

(** *** C5: the backoff delay beyond the range of the doubles *)

(** C5.  With an initial delay of 0, [maxRetries: 1030] and a transport
    that fails every time, the pull makes 1031 attempts; the delays handed
    to [setTimeout] before the first 1024 retries are 0, as the formula
    [min (initial * 2^(n-1)) max] has it, but from the 1025th retry on
    they are [NaN]: [Math.pow(2, 1024)] is [Infinity], and [0 * Infinity]
    is [NaN]. *)
Theorem backoff_overflows_to_nan :
  let s := new_BetterSSEStream (Scenario.zero_delays (Some (Finite 1030))) in
  let w := Scenario.host Scenario.refuses None in
  exists e s' w' new,
    next Scenario.parseURL (2 * 1030 + 2 + 0) (s, w) = (Throw e, (s', w')) /\
    trace w' = trace w ++ new /\
    sent new = 1031%nat /\
    firstn 1024 (delays new) = repeat (Millis 0) 1024 /\
    skipn 1024 (delays new) = repeat NaN 6 /\
    Z.min (0 * 2 ^ 1024) 0 = 0%Z.
Proof.
  cbv zeta.
  destruct (next_exhausts Scenario.parseURL 1030 0
              (new_BetterSSEStream (Scenario.zero_delays (Some (Finite 1030))))
              (Scenario.host Scenario.refuses None) Scenario.endpoint)
    as (e & s' & w' & new & E & _ & Ht & Hn & Hd & _); try reflexivity.
  { intros k _. discriminate. }
  exists e, s', w', new.
  split; [exact E|]. split; [exact Ht|]. split; [exact Hn|].
  rewrite Hd. repeat split; vm_compute; reflexivity.
Qed.

(** X10.  The stream being read has ended, retries are enabled with
    [maxRetries] equal to [n + 1], the counter is at 0 and every attempt
    to reconnect fails: the pull sends [n + 1] requests, waits before each
    of them for the delay [reconnect] computes, and then resolves as
    end-of-sequence, the error of the last attempt being swallowed. *)
Theorem retries_exhausted_after_end (parseURL : string -> option URL)
    (n fuel : nat) (s : BetterSSEStream) (w : World) (u : URL) (h : nat)
    (ms : MessageStream) :
  retryCount s = 0%nat -> reader s = Some h ->
  nth_error (streams w) h = Some ms ->
  cancelled ms = true \/ (queue ms = [] /\ stream_end ms = BodyCloses) ->
  calm s w = true ->
  target parseURL s = Some u ->
  truthy_bool (retryStrategy (options s)) = true ->
  maxRetries (options s) = Some (Finite (Z.of_nat (S n))) ->
  (forall k, (k <= n)%nat -> failure (server w (requests w + k)) <> None) ->
  exists s' w' new,
    next parseURL (S (2 * n + 2 + fuel)) (s, w) = (Normal IterDone, (s', w')) /\
    trace w' = trace w ++ new /\
    sent new = S n /\
    delays new = map (delay_after (options s)) (seq 0 (S n)) /\
    reader s' = None /\ stream s' = None /\ retryCount s' = S n.
Proof.
  intros H0 Hr Hn Hend Hc Hu Hre Hmax Hfail.
  destruct (calm_suspend s w Hc) as [Ha Hsus].
  assert (Hm : may_retry s = true).
  { unfold may_retry, shouldRetry. rewrite Hre, Hmax, H0. cbn [andb nullish num_lt].
    apply Z.ltb_lt. lia. }
  set (s0 := set_stream None (set_reader None s)).
  destruct (reconnect_exhausts parseURL n fuel s0 w u)
    as (e & s' & w' & new & E & He & Hrc & Ho & Hrd & Hst & _ & Ht & Hd & Hsn); auto.
  { unfold s0. cbn [options retryCount set_stream set_reader]. now rewrite Hmax, H0. }
  unfold s0 in Hrc, Ho, Hrd, Hst, Hd.
  cbn [options retryCount reader stream set_stream set_reader] in Hrc, Ho, Hrd, Hst, Hd.
  assert (Hm' : may_retry s' = false).
  { unfold may_retry, shouldRetry. rewrite Ho, Hre, Hmax, Hrc, H0.
    cbn [andb nullish num_lt]. apply Z.ltb_ge. lia. }
  pose proof (failure_not_abort _ _ He) as Hna.
  assert (Eread : read h (s, w) = (Normal ReadDone, (s, w))).
  { unfold read, deliver. rewrite Ha, Hsus, Hn.
    destruct Hend as [Hcan | [Hq Hend]].
    - now rewrite Hcan.
    - destruct (cancelled ms); [reflexivity|]. now rewrite Hq, Hend. }
  exists (set_reader None s'), w', new.
  split; [|cbn [reader stream retryCount set_reader]; repeat split; auto;
            [now rewrite Hd, H0 | now rewrite Hrc, H0]].
  cbn [next]. unfold bind at 1. unfold next_reader, bind, gets, ret. norm.
  rewrite Hr. norm.
  unfold try_catch, next_try. unfold bind at 1. rewrite Eread.
  unfold bind, gets, modify, ret. norm.
  unfold may_retry in Hm.
  change (shouldRetry (set_reader None s)) with (shouldRetry s). rewrite Hm. norm.
  fold s0. rewrite E.
  unfold next_catch. cbn [instanceof_Error andb]. rewrite Hna. cbn [negb].
  unfold bind, gets, modify, ret. norm.
  unfold may_retry in Hm'. rewrite Hm'. norm. reflexivity.
Qed.

Lemma retries_exhausted_after_end_witness :
  let s := {| options := Scenario.opts (Some (Finite 2)) None; retryCount := 0;
              currentLastEventId := None; stream := Some 0%nat; reader := Some 0%nat |} in
  let ms := {| queue := []; stream_end := BodyCloses; cancelled := false |} in
  let w := set_streams [ms] (Scenario.host Scenario.refuses None) in
  exists s' w' new,
    next Scenario.parseURL 5 (s, w) = (Normal IterDone, (s', w')) /\
    trace w' = trace w ++ new /\
    sent new = 2%nat /\
    delays new = [Millis 1000; Millis 2000] /\
    reader s' = None /\ stream s' = None /\ retryCount s' = 2%nat.
Proof.
  cbv zeta.
  apply (retries_exhausted_after_end Scenario.parseURL 1 0
           {| options := Scenario.opts (Some (Finite 2)) None; retryCount := 0;
              currentLastEventId := None; stream := Some 0%nat; reader := Some 0%nat |}
           (set_streams [{| queue := []; stream_end := BodyCloses; cancelled := false |}]
              (Scenario.host Scenario.refuses None))
           Scenario.endpoint 0%nat
           {| queue := []; stream_end := BodyCloses; cancelled := false |});
    try reflexivity.
  - right. split; reflexivity.
  - intros k _. discriminate.
Defined.

Section Idle.

Variable parseURL : string -> option URL.

(** A pull with the signal aborted, the iterator holding no stream and no
    reader. *)
Lemma next_idle_aborted fuel s w c :
  abortController (options s) = Some c -> aborted w = true ->
  reader s = None -> stream s = None ->
  exists r s',
    next parseURL fuel (s, w) = (r, (s', w)) /\
    pull_value r = None /\ options s' = options s /\
    reader s' = None /\ stream s' = None /\
    ((3 <= fuel)%nat -> exists e, r = Throw e).
Proof.
  intros Hc Ha Hr Hs.
  destruct fuel as [|fuel].
  { exists Pending, s. repeat split; auto. lia. }
  cbn [next]. unfold bind at 1. unfold next_reader, bind, gets, modify, ret, throw. norm.
  rewrite Hr. norm. rewrite Hs.
  destruct (connect_aborted parseURL fuel s w c Hc Ha)
    as (r & s' & E & Hn & Hrd & Hst & Ho & Hp).
  rewrite E.
  destruct r as [[]|e|]; [congruence| |].
  - exists (Throw e), s'. repeat split; auto; try congruence. intros _. now exists e.
  - exists Pending, s'. repeat split; auto; try congruence.
    intros H. exfalso. apply Hp; [lia | reflexivity].
Qed.

(** Any call of the consumer in that situation leaves it as it is. *)
Lemma perform_idle_aborted fuel call s w c :
  abortController (options s) = Some c -> aborted w = true ->
  reader s = None -> stream s = None ->
  exists r s' w',
    perform parseURL fuel call (s, w) = (r, (s', w')) /\
    pull_value r = None /\ options s' = options s /\
    reader s' = None /\ stream s' = None /\ aborted w' = true /\
    trace w' = trace w /\ requests w' = requests w.
Proof.
  intros Hc Ha Hr Hs. destruct call; cbn [perform].
  - destruct (next_idle_aborted fuel s w c Hc Ha Hr Hs)
      as (r & s' & E & Hv & Ho & Hr' & Hs' & _).
    unfold bind at 1. rewrite E.
    destruct r as [[v|]|e|]; [discriminate| | |].
    + exists (Normal IterDone), s', w. repeat split; auto.
    + exists (Throw e), s', w. repeat split; auto.
    + exists Pending, s', w. repeat split; auto.
  - unfold close, bind, gets, modify, abort_signal, ret. norm.
    rewrite Hc. norm. rewrite Hr. norm.
    eexists; eexists; eexists; split; [reflexivity|]; repeat split; auto.
  - unfold return_, bind, gets, modify, ret. norm. rewrite Hr. norm.
    eexists; eexists; eexists; split; [reflexivity|]; repeat split; auto.
  - unfold bind, gets, abort_signal, ret. norm. rewrite Hc.
    eexists; eexists; eexists; split; [reflexivity|]; repeat split; auto.
Qed.

Lemma session_idle_aborted fuel calls : forall s w c,
  abortController (options s) = Some c -> aborted w = true ->
  reader s = None -> stream s = None ->
  let r := session parseURL fuel calls (s, w) in
  Forall (fun x => pull_value x = None) (fst r) /\
  trace (snd (snd r)) = trace w /\ requests (snd (snd r)) = requests w.
Proof.
  induction calls as [|call calls IH]; intros s w c Hc Ha Hr Hs; cbv zeta.
  - cbn. repeat split; auto.
  - cbn [session].
    destruct (perform_idle_aborted fuel call s w c Hc Ha Hr Hs)
      as (r & s' & w' & E & Hv & Ho & Hr' & Hs' & Ha' & Ht & Hq).
    rewrite E.
    assert (Hc' : abortController (options s') = Some c) by now rewrite Ho.
    specialize (IH s' w' c Hc' Ha' Hr' Hs'). cbv zeta in IH.
    destruct (session parseURL fuel calls (s', w')) as [rs [s2 w2]].
    cbn [fst snd] in *. destruct IH as (IH1 & IH2 & IH3).
    repeat split; [constructor; auto | congruence | congruence].
Qed.

(** [close()] with a controller leaves the iterator without stream and
    reader, the signal aborted. *)
Lemma close_aborts s w c :
  abortController (options s) = Some c ->
  exists w',
    close (s, w) = (Normal tt, (set_reader None (set_stream None s), w')) /\
    aborted w' = true /\ trace w' = trace w /\ requests w' = requests w.
Proof.
  intros Hc.
  unfold close, bind, gets, modify, abort_signal, unawaited, cancel, ret. norm.
  rewrite Hc. norm.
  destruct (reader s) as [h|]; norm.
  - cbn [abort set_signal streams].
    destruct (nth_error (streams w) h) as [ms|]; norm.
    + destruct (failed ms); norm;
        (eexists; split; [reflexivity|]; repeat split).
    + eexists; split; [reflexivity|]; repeat split.
  - eexists; split; [reflexivity|]; repeat split.
Qed.

End Idle.

(** X11.  Once the signal of the supplied controller is aborted, a pull
    of an iterator that holds no stream and no reader sends nothing and
    rejects; it leaves the environment as it is, and the iterator without
    stream and reader. *)
Theorem pull_after_abort (parseURL : string -> option URL) (fuel : nat)
    (s : BetterSSEStream) (w : World) (c : AbortController) :
  abortController (options s) = Some c -> aborted w = true ->
  reader s = None -> stream s = None ->
  exists r s',
    next parseURL fuel (s, w) = (r, (s', w)) /\
    pull_value r = None /\ options s' = options s /\
    reader s' = None /\ stream s' = None /\
    ((3 <= fuel)%nat -> exists e, r = Throw e).
Proof.
  intros Hc Ha Hr Hs.
  exact (next_idle_aborted parseURL fuel s w c Hc Ha Hr Hs).
Qed.

Lemma pull_after_abort_witness :
  let s := new_BetterSSEStream (Scenario.opts None (Some Controller)) in
  let w := abort (Scenario.host (Scenario.recovers 0) None) in
  exists r s',
    next Scenario.parseURL 3 (s, w) = (r, (s', w)) /\
    pull_value r = None /\ options s' = options s /\
    reader s' = None /\ stream s' = None /\
    ((3 <= 3)%nat -> exists e, r = Throw e).
Proof.
  cbv zeta.
  apply (pull_after_abort Scenario.parseURL 3
           (new_BetterSSEStream (Scenario.opts None (Some Controller)))
           (abort (Scenario.host (Scenario.recovers 0) None)) Controller);
    reflexivity.
Defined.

(** X12.  After [close()] on an iterator that was given a controller,
    whatever the consumer calls next and however often: no call delivers
    an event, no request is sent and the history stays as it was. *)
Theorem nothing_after_close (parseURL : string -> option URL) (fuel : nat)
    (calls : list Call) (s : BetterSSEStream) (w : World)
    (c : AbortController) :
  abortController (options s) = Some c ->
  let r := session parseURL fuel (Close :: calls) (s, w) in
  Forall (fun x => pull_value x = None) (fst r) /\
  trace (snd (snd r)) = trace w /\
  requests (snd (snd r)) = requests w.
Proof.
  intros Hc. cbv zeta. cbn [session perform].
  destruct (close_aborts s w c Hc) as (w' & E & Ha & Ht & Hq).
  unfold bind, ret. rewrite E.
  pose proof (session_idle_aborted parseURL fuel calls
                (set_reader None (set_stream None s)) w' c Hc Ha eq_refl eq_refl) as IH.
  cbv zeta in IH.
  destruct (session parseURL fuel calls (set_reader None (set_stream None s), w'))
    as [rs [s2 w2]].
  cbn [fst snd] in *. destruct IH as (IH1 & IH2 & IH3).
  repeat split; [constructor; auto | congruence | congruence].
Qed.

Lemma nothing_after_close_witness :
  let s := {| options := Scenario.opts None (Some Controller); retryCount := 0;
              currentLastEventId := None; stream := Some 0%nat; reader := Some 0%nat |} in
  let ms := {| queue := [SSEMessage.mk "message" "unread" None None];
               stream_end := BodyCloses; cancelled := false |} in
  let w := set_streams [ms] (Scenario.host Scenario.resuming None) in
  let r := session Scenario.parseURL 5 [Close; Pull; Finish; Pull] (s, w) in
  Forall (fun x => pull_value x = None) (fst r) /\
  trace (snd (snd r)) = trace w /\
  requests (snd (snd r)) = requests w.
Proof.
  cbv zeta.
  apply (nothing_after_close Scenario.parseURL 5 [Pull; Finish; Pull]
           {| options := Scenario.opts None (Some Controller); retryCount := 0;
              currentLastEventId := None; stream := Some 0%nat; reader := Some 0%nat |}
           (set_streams [{| queue := [SSEMessage.mk "message" "unread" None None];
                            stream_end := BodyCloses; cancelled := false |}]
              (Scenario.host Scenario.resuming None)) Controller).
  reflexivity.
Defined.

Section Reconnection.

Variable parseURL : string -> option URL.

(** A pull on a stream that has ended, in whatever way, with a retry
    permitted and a server that answers: the pull waits for the delay of
    the retry, sends one request and goes on with the new stream. *)
Lemma next_reconnects fuel s w h ms u resp b :
  calm s w = true -> may_retry s = true ->
  reader s = Some h -> nth_error (streams w) h = Some ms ->
  cancelled ms = true \/ queue ms = [] ->
  target parseURL s = Some u ->
  server w (requests w) = Responds resp -> ok resp = true -> body resp = Some b ->
  let s1 := set_retryCount (S (retryCount s)) (set_stream None (set_reader None s)) in
  let w1 := log (TimerElapsed (delay_after (options s) (retryCount s))) w in
  next parseURL (S (S (S fuel))) (s, w)
  = next parseURL (S (S fuel))
      (set_stream (Some (List.length (streams w))) (set_retryCount 0 s1),
       set_streams (streams w ++ [pipe_body b]) (requested u s w1)).
Proof.
  intros Hc Hm Hr Hn Hend Hu Hsrv Hok Hb. cbv zeta.
  destruct (calm_suspend s w Hc) as [Ha Hsus].
  set (s0 := set_stream None (set_reader None s)).
  assert (Hc0 : calm s0 w = true) by exact Hc.
  assert (Erec : reconnect parseURL (S (S fuel)) (s0, w)
                 = (Normal tt,
                    (set_stream (Some (List.length (streams w)))
                       (set_retryCount 0 (set_retryCount (S (retryCount s)) s0)),
                     set_streams (streams w ++ [pipe_body b])
                       (requested u s
                          (log (TimerElapsed (delay_after (options s) (retryCount s))) w))))).
  { rewrite (reconnect_waits parseURL _ s0 w Hc0). cbv zeta.
    change (retryCount s0) with (retryCount s).
    change (options s0) with (options s).
    erewrite connect_succeeds; [reflexivity | exact Hc | exact Hu | exact Hsrv | exact Hok | exact Hb]. }
  unfold may_retry in Hm.
  cbn [next]. unfold bind at 1. unfold next_reader, bind, gets, ret. norm.
  rewrite Hr. norm.
  unfold try_catch, next_try. unfold bind at 1.
  unfold read, deliver. rewrite Ha, Hsus, Hn.
  assert (Htry :
    (modify (set_reader None) ;;
     opts <- gets options ;;
     retry <- gets shouldRetry ;;
     if truthy_bool (retryStrategy opts) && retry
     then modify (set_stream None) ;; reconnect parseURL (S (S fuel)) ;; ret Again
     else ret (Return IterDone))%js (s, w)
    = (Normal Again,
       (set_stream (Some (List.length (streams w)))
          (set_retryCount 0 (set_retryCount (S (retryCount s)) s0)),
        set_streams (streams w ++ [pipe_body b])
          (requested u s
             (log (TimerElapsed (delay_after (options s) (retryCount s))) w))))).
  { unfold bind, gets, modify, ret. norm.
    change (shouldRetry (set_reader None s)) with (shouldRetry s). rewrite Hm. norm.
    fold s0. rewrite Erec. reflexivity. }
  destruct Hend as [Hcan | Hq].
  - rewrite Hcan. rewrite Htry. reflexivity.
  - destruct (cancelled ms); [rewrite Htry; reflexivity|].
    rewrite Hq. destruct (stream_end ms).
    + rewrite Htry. reflexivity.
    + unfold next_catch. cbn [instanceof_Error named_AbortError negb andb].
      unfold bind, gets, modify, ret. norm. rewrite Hm. norm.
      change (set_stream None (set_reader None s)) with s0. rewrite Erec. reflexivity.
Qed.

End Reconnection.

(** X13.  When the stream being read has ended, whether the server closed
    it, a read failed or it was cancelled, and a retry is permitted, the
    pull waits for the delay of that retry, sends one request, and
    resolves with the first event of the new stream; the retry counter is
    back at 0. *)
Theorem ended_stream_reconnects (parseURL : string -> option URL) (fuel : nat)
    (s : BetterSSEStream) (w : World) (h : nat) (ms : MessageStream) (u : URL)
    (resp : Response) (b : Body) (m : SSEMessage.t) (rest : list SSEMessage.t) :
  calm s w = true -> may_retry s = true ->
  reader s = Some h -> nth_error (streams w) h = Some ms ->
  cancelled ms = true \/ queue ms = [] ->
  target parseURL s = Some u ->
  server w (requests w) = Responds resp -> ok resp = true -> body resp = Some b ->
  queue (pipe_body b) = m :: rest ->
  exists s' w',
    next parseURL (S (S (S fuel))) (s, w) = (Normal (IterValue m), (s', w')) /\
    trace w' = trace w ++ [TimerElapsed (delay_after (options s) (retryCount s));
                           Fetched (request_to u s)] /\
    requests w' = S (requests w) /\
    retryCount s' = 0%nat /\
    reader s' = Some (List.length (streams w)) /\
    stream s' = Some (List.length (streams w)).
Proof.
  intros Hc Hm Hr Hn Hend Hu Hsrv Hok Hb Hq.
  rewrite (next_reconnects parseURL fuel s w h ms u resp b Hc Hm Hr Hn Hend Hu Hsrv Hok Hb).
  cbv zeta.
  rewrite next_takes_reader with (h := List.length (streams w)); [|reflexivity|reflexivity].
  erewrite next_reads with (h := List.length (streams w)) (ms := pipe_body b);
    [ | exact Hc | reflexivity | | reflexivity | exact Hq].
  - eexists; eexists; split; [reflexivity|].
    unfold after_value, after_read.
    destruct (truthy_string (SSEMessage.id m)); cbn; rewrite <- app_assoc; repeat split.
  - cbn [streams set_streams]. rewrite nth_error_app2 by lia.
    now rewrite Nat.sub_diag.
Qed.

Lemma ended_stream_reconnects_witness :
  let s := {| options := Scenario.opts None None; retryCount := 0;
              currentLastEventId := None; stream := Some 0%nat; reader := Some 0%nat |} in
  let ms := {| queue := []; stream_end := BodyFails; cancelled := false |} in
  let w := set_streams [ms] (Scenario.host (Scenario.recovers 0) None) in
  let m := SSEMessage.mk "message" "back" None None in
  exists s' w',
    next Scenario.parseURL 3 (s, w) = (Normal (IterValue m), (s', w')) /\
    trace w' = trace w ++ [TimerElapsed 1000%Z; Fetched (request_to Scenario.endpoint s)] /\
    requests w' = 1%nat /\
    retryCount s' = 0%nat /\
    reader s' = Some 1%nat /\
    stream s' = Some 1%nat.
Proof.
  cbv zeta.
  apply (ended_stream_reconnects Scenario.parseURL 0
           {| options := Scenario.opts None None; retryCount := 0;
              currentLastEventId := None; stream := Some 0%nat; reader := Some 0%nat |}
           (set_streams [{| queue := []; stream_end := BodyFails; cancelled := false |}]
              (Scenario.host (Scenario.recovers 0) None))
           0%nat {| queue := []; stream_end := BodyFails; cancelled := false |}
           Scenario.endpoint
           {| ok := true; status := 200%Z;
              body := Some {| chunks := map Scenario.record [["data: back"%string]];
                              ending := BodyCloses; lost := 0 |} |}
           {| chunks := map Scenario.record [["data: back"%string]]; ending := BodyCloses; lost := 0 |}
           (SSEMessage.mk "message" "back" None None) []);
    try reflexivity.
  right. reflexivity.
Defined.

Section Leaving.

Variable parseURL : string -> option URL.

(** [return()] with a reader at hand on a stream that has not failed. *)
Lemma return_cancels s w h ms :
  reader s = Some h -> nth_error (streams w) h = Some ms ->
  failed ms = false ->
  return_ (s, w)
  = (Normal IterDone,
     (set_reader None s,
      set_streams
        (replace_nth h {| queue := []; stream_end := stream_end ms; cancelled := true |}
           (streams w)) w)).
Proof.
  intros Hr Hn Hf. unfold return_, bind, gets, modify, cancel, ret. norm.
  rewrite Hr. norm. now rewrite Hn, Hf.
Qed.

(** [return()] with a reader at hand on a stream that has failed: the
    promise of [cancel()] is rejected, and so is that of [return()]; the
    reader stays where it is. *)
Lemma return_rejects s w h ms :
  reader s = Some h -> nth_error (streams w) h = Some ms ->
  failed ms = true ->
  return_ (s, w) = (Throw ReadFailed, (s, w)).
Proof.
  intros Hr Hn Hf. unfold return_, bind, gets, modify, cancel, ret. norm.
  rewrite Hr. norm. now rewrite Hn, Hf.
Qed.

(** The first pull of an instance with no stream, the server answering
    with a body that has an event to deliver. *)
Lemma next_first_event fuel s w u resp b m rest :
  reader s = None -> stream s = None ->
  calm s w = true ->
  target parseURL s = Some u ->
  server w (requests w) = Responds resp -> ok resp = true -> body resp = Some b ->
  queue (pipe_body b) = m :: rest ->
  exists s' w',
    next parseURL (S (S fuel)) (s, w) = (Normal (IterValue m), (s', w')) /\
    trace w' = trace w ++ [Fetched (request_to u s)] /\
    requests w' = S (requests w) /\
    reader s' = Some (List.length (streams w)).
Proof.
  intros Hr Hs Hc Hu Hsrv Hok Hb Hq.
  rewrite (next_connects parseURL fuel s w u resp b Hr Hs Hc Hu Hsrv Hok Hb).
  erewrite next_reads with (h := List.length (streams w)) (ms := pipe_body b);
    [ | exact Hc | reflexivity | | reflexivity | exact Hq].
  - eexists; eexists; split; [reflexivity|].
    unfold after_value, after_read.
    destruct (truthy_string (SSEMessage.id m)); cbn; repeat split.
  - cbn [streams set_streams]. rewrite nth_error_app2 by lia.
    now rewrite Nat.sub_diag.
Qed.

End Leaving.

(** X14.  On a stream that has not failed, [return()] cancels the reader
    and forgets it, discarding what was not read yet; it keeps the stream
    and does not touch the signal.  With no retry permitted, the pull that
    follows takes a reader on the cancelled stream and resolves as
    end-of-sequence, and nothing is sent.  (On a stream that has failed
    the promise of [cancel()] is rejected and [return()] rejects with it:
    [return_rejects].) *)
Theorem return_then_pull (parseURL : string -> option URL) (fuel : nat)
    (s : BetterSSEStream) (w : World) (h : nat) (ms : MessageStream) :
  calm s w = true -> may_retry s = false ->
  reader s = Some h -> stream s = Some h ->
  nth_error (streams w) h = Some ms ->
  failed ms = false ->
  exists w' ms',
    session parseURL (S fuel) [Finish; Pull] (s, w)
    = ([Normal IterDone; Normal IterDone], (set_reader None s, w')) /\
    trace w' = trace w /\ requests w' = requests w /\ aborted w' = aborted w /\
    nth_error (streams w') h = Some ms' /\ cancelled ms' = true /\ queue ms' = [].
Proof.
  intros Hc Hm Hr Hs Hn Hf.
  set (ms' := {| queue := []; stream_end := stream_end ms; cancelled := true |}).
  set (w' := set_streams (replace_nth h ms' (streams w)) w).
  assert (Hn' : nth_error (streams w') h = Some ms').
  { unfold w'. cbn [streams set_streams]. eapply nth_error_replace_nth. exact Hn. }
  exists w', ms'.
  split; [|repeat split; auto].
  cbn [session perform].
  rewrite (return_cancels s w h ms Hr Hn Hf). fold ms'. fold w'.
  unfold bind at 1.
  rewrite (next_takes_reader parseURL fuel (set_reader None s) w' h); [|reflexivity|exact Hs].
  rewrite (next_ends parseURL fuel (set_reader (Some h) (set_reader None s)) w' h ms');
    [reflexivity | exact Hc | exact Hm | reflexivity | exact Hn' | now left].
Qed.

Lemma return_then_pull_witness :
  let s := {| options := Scenario.opts (Some (Finite 0)) None; retryCount := 0;
              currentLastEventId := None; stream := Some 0%nat; reader := Some 0%nat |} in
  let ms := {| queue := [SSEMessage.mk "message" "unread" None None];
               stream_end := BodyCloses; cancelled := false |} in
  let w := set_streams [ms] (Scenario.host Scenario.refuses None) in
  exists w' ms',
    session Scenario.parseURL 1 [Finish; Pull] (s, w)
    = ([Normal IterDone; Normal IterDone], (set_reader None s, w')) /\
    trace w' = trace w /\ requests w' = requests w /\ aborted w' = aborted w /\
    nth_error (streams w') 0 = Some ms' /\ cancelled ms' = true /\ queue ms' = [].
Proof.
  cbv zeta.
  apply (return_then_pull Scenario.parseURL 0
           {| options := Scenario.opts (Some (Finite 0)) None; retryCount := 0;
              currentLastEventId := None; stream := Some 0%nat; reader := Some 0%nat |}
           (set_streams [{| queue := [SSEMessage.mk "message" "unread" None None];
                            stream_end := BodyCloses; cancelled := false |}]
              (Scenario.host Scenario.refuses None))
           0%nat
           {| queue := [SSEMessage.mk "message" "unread" None None];
              stream_end := BodyCloses; cancelled := false |});
    reflexivity.
Defined.

(** X15.  Without a controller in the options [close()] stops nothing for
    good: the pull that follows connects again at once, with the cursor
    the instance had, and resolves with the first event of the new
    stream. *)
Theorem close_without_controller_reconnects (parseURL : string -> option URL)
    (fuel : nat) (s : BetterSSEStream) (w : World) (u : URL) (resp : Response)
    (b : Body) (m : SSEMessage.t) (rest : list SSEMessage.t) :
  abortController (options s) = None ->
  target parseURL s = Some u ->
  server w (requests w) = Responds resp -> ok resp = true -> body resp = Some b ->
  queue (pipe_body b) = m :: rest ->
  exists s' w',
    session parseURL (S (S fuel)) [Close; Pull] (s, w)
    = ([Normal IterDone; Normal (IterValue m)], (s', w')) /\
    trace w' = trace w ++ [Fetched (request_to u s); Yielded m] /\
    requests w' = S (requests w).
Proof.
  intros Hc Hu Hsrv Hok Hb Hq.
  assert (Hclose : exists wc,
            close (s, w) = (Normal tt, (set_reader None (set_stream None s), wc)) /\
            server wc = server w /\ requests wc = requests w /\ trace wc = trace w).
  { unfold close, bind, gets, modify, abort_signal, unawaited, cancel, ret. norm.
    rewrite Hc. norm.
    destruct (reader s) as [h|]; norm.
    - destruct (nth_error (streams w) h) as [ms|]; norm;
        [destruct (failed ms)|];
        (eexists; split; [reflexivity|]; repeat split).
    - eexists; split; [reflexivity|]; repeat split. }
  destruct Hclose as (wc & Eclose & Hsv & Hrq & Htr).
  set (s0 := set_reader None (set_stream None s)) in *.
  assert (Hc0 : calm s0 wc = true).
  { unfold calm. change (options s0) with (options s). now rewrite Hc. }
  destruct (next_first_event parseURL fuel s0 wc u resp b m rest)
    as (s' & w' & E & Ht & Hn & _); auto.
  { now rewrite Hsv, Hrq. }
  cbn [session perform]. unfold bind at 1. rewrite Eclose.
  unfold bind at 1. unfold ret at 1. unfold bind at 1. rewrite E.
  unfold bind, yielded, ret. cbn [fst snd].
  eexists; eexists; split; [reflexivity|].
  cbn [trace log requests]. rewrite Ht, Htr, Hn, Hrq, <- app_assoc.
  split; reflexivity.
Qed.

Lemma close_without_controller_reconnects_witness :
  let s := new_BetterSSEStream (Scenario.opts None None) in
  let w := Scenario.host (Scenario.recovers 0) None in
  let m := SSEMessage.mk "message" "back" None None in
  exists s' w',
    session Scenario.parseURL 2 [Close; Pull] (s, w)
    = ([Normal IterDone; Normal (IterValue m)], (s', w')) /\
    trace w' = trace w ++ [Fetched (request_to Scenario.endpoint s); Yielded m] /\
    requests w' = 1%nat.
Proof.
  cbv zeta.
  apply (close_without_controller_reconnects Scenario.parseURL 0
           (new_BetterSSEStream (Scenario.opts None None))
           (Scenario.host (Scenario.recovers 0) None)
           Scenario.endpoint
           {| ok := true; status := 200%Z;
              body := Some {| chunks := map Scenario.record [["data: back"%string]];
                              ending := BodyCloses; lost := 0 |} |}
           {| chunks := map Scenario.record [["data: back"%string]]; ending := BodyCloses; lost := 0 |}
           (SSEMessage.mk "message" "back" None None) []);
    reflexivity.
Defined.

(** X16.  [close()] never fails, and a second [close()] changes nothing:
    the state it leaves is a fixed point. *)
Theorem close_twice (st : Sigma) :
  fst (close st) = Normal tt /\
  close (snd (close st)) = (Normal tt, snd (close st)).
Proof.
  destruct st as [s w].
  unfold close, bind, gets, modify, abort_signal, unawaited, cancel, ret. norm.
  destruct (abortController (options s)) eqn:Ec; norm.
  all: destruct (reader s) as [h|]; norm.
  all: cbn [abort set_signal streams].
  all: try (destruct (nth_error (streams w) h) as [ms|]; norm;
            [destruct (failed ms)|]); norm.
  all: try rewrite Ec; norm; split; reflexivity.
Qed.

Section Validation.

Variable parseURL : string -> option URL.

(** What [useSSEStream] returns when it returns at all. *)
Lemma useSSEStream_inr o s :
  useSSEStream parseURL o = inr s ->
  exists u,
    match url o with UrlObject u => Some u | UrlString text => parseURL text end = Some u /\
    url o <> UrlString EmptyString /\
    (protocol u = "http:" \/ protocol u = "https:")%string /\
    (0 <= nullish (initialRetryDelay o) 1000 <= nullish (maxRetryDelay o) 30000)%Z /\
    (forall z, maxRetries o = Some (Finite z) -> (0 <= z)%Z) /\
    s = new_BetterSSEStream
          {| url := UrlObject u;
             withCredentials := Some (nullish (withCredentials o) false);
             abortController := abortController o;
             retryStrategy := Some (nullish (retryStrategy o) true);
             initialRetryDelay := Some (nullish (initialRetryDelay o) 1000%Z);
             maxRetryDelay := Some (nullish (maxRetryDelay o) 30000%Z);
             maxRetries := Some (nullish (maxRetries o) Infinity);
             headers := headers o;
             lastEventId := lastEventId o |}.
Proof.
  unfold useSSEStream. intros H.
  assert (Hne : url o <> UrlString EmptyString).
  { intros E. rewrite E in H. discriminate. }
  assert (H' : match match url o with
                     | UrlObject u => Some u
                     | UrlString text => parseURL text
                     end with
               | None => inl InvalidSSEUrl
               | Some u =>
                   if negb (String.eqb (protocol u) "http:" || String.eqb (protocol u) "https:")
                   then inl InvalidSSEUrl
                   else
                     if (nullish (initialRetryDelay o) 1000 <? 0)%Z
                     then inl NegativeInitialRetryDelay
                     else if (nullish (maxRetryDelay o) 30000
                              <? nullish (initialRetryDelay o) 1000)%Z
                     then inl MaxRetryDelayBelowInitial
                     else if match nullish (maxRetries o) Infinity with
                             | Finite z => (z <? 0)%Z
                             | Infinity => false
                             end
                     then inl NegativeMaxRetries
                     else inr (new_BetterSSEStream
                                 {| url := UrlObject u;
                                    withCredentials := Some (nullish (withCredentials o) false);
                                    abortController := abortController o;
                                    retryStrategy := Some (nullish (retryStrategy o) true);
                                    initialRetryDelay := Some (nullish (initialRetryDelay o) 1000%Z);
                                    maxRetryDelay := Some (nullish (maxRetryDelay o) 30000%Z);
                                    maxRetries := Some (nullish (maxRetries o) Infinity);
                                    headers := headers o;
                                    lastEventId := lastEventId o |})
               end = inr s).
  { destruct (url o) as [u|[|c text]]; [exact H | congruence | exact H]. }
  clear H.
  destruct (match url o with UrlObject u => Some u | UrlString text => parseURL text end)
    as [u|]; [|discriminate].
  exists u. split; [reflexivity|]. split; [exact Hne|].
  destruct (String.eqb (protocol u) "http:") eqn:E1;
    [|destruct (String.eqb (protocol u) "https:") eqn:E2; [|discriminate]].
  all: cbn [orb negb] in H'.
  all: destruct (Z.ltb_spec (nullish (initialRetryDelay o) 1000%Z) 0%Z); [discriminate|].
  all: destruct (Z.ltb_spec (nullish (maxRetryDelay o) 30000%Z)
                            (nullish (initialRetryDelay o) 1000%Z)); [discriminate|].
  all: split; [first [left; now apply String.eqb_eq | right; now apply String.eqb_eq]|].
  all: split; [lia|].
  all: split; [|destruct (nullish (maxRetries o) Infinity) as [z|];
                 [destruct (z <? 0)%Z; [discriminate|]|]; congruence].
  all: intros z Hz; rewrite Hz in H'; cbn [nullish] in H'.
  all: destruct (Z.ltb_spec z 0%Z); [discriminate | assumption].
Qed.

Lemma useSSEStream_accepted o u :
  match url o with UrlObject u => Some u | UrlString text => parseURL text end = Some u ->
  url o <> UrlString EmptyString ->
  (protocol u = "http:" \/ protocol u = "https:")%string ->
  (0 <= nullish (initialRetryDelay o) 1000 <= nullish (maxRetryDelay o) 30000)%Z ->
  (forall z, maxRetries o = Some (Finite z) -> (0 <= z)%Z) ->
  exists s, useSSEStream parseURL o = inr s.
Proof.
  intros Hu Hne Hp Hd Hm. unfold useSSEStream.
  assert (Hproto : negb (String.eqb (protocol u) "http:" || String.eqb (protocol u) "https:")
                   = false).
  { destruct Hp as [-> | ->]; reflexivity. }
  assert (H1 : (nullish (initialRetryDelay o) 1000 <? 0)%Z = false) by (apply Z.ltb_ge; lia).
  assert (H2 : (nullish (maxRetryDelay o) 30000 <? nullish (initialRetryDelay o) 1000)%Z = false)
    by (apply Z.ltb_ge; lia).
  assert (H3 : match nullish (maxRetries o) Infinity with
               | Finite z => (z <? 0)%Z
               | Infinity => false
               end = false).
  { destruct (maxRetries o) as [[z|]|]; cbn [nullish]; auto.
    apply Z.ltb_ge. now apply Hm. }
  destruct (url o) as [u'|[|c text]]; [injection Hu as -> | congruence |].
  all: cbn beta iota; try rewrite Hu; rewrite Hproto; cbv zeta;
    cbn [initialRetryDelay maxRetryDelay maxRetries nullish] in *.
  all: rewrite H1, H2.
  all: destruct (maxRetries o) as [[z|]|]; cbn [nullish] in *; try rewrite H3; eauto.
Qed.

End Validation.

(** X17.  On options whose delays are integers and whose [maxRetries] is
    an integer or [Infinity], the only numbers the options of this
    development hold, [useSSEStream] returns an instance exactly when the
    URL is not the empty string, the host accepts it as a URL with the
    protocol [http:] or [https:], the initial delay, once defaulted to
    1000, is not negative and not above the maximal delay, once defaulted
    to 30000, and [maxRetries], when given as a number, is not negative;
    in every other case it throws.  (A [NaN], for which every [<] test of
    [useSSEStream] is false, is outside this statement.) *)
Theorem useSSEStream_accepts (parseURL : string -> option URL) (o : SSEStreamOptions) :
  (exists s, useSSEStream parseURL o = inr s) <->
  (url o <> UrlString EmptyString /\
   (exists u,
      match url o with UrlObject u => Some u | UrlString text => parseURL text end = Some u /\
      (protocol u = "http:" \/ protocol u = "https:")%string) /\
   (0 <= nullish (initialRetryDelay o) 1000 <= nullish (maxRetryDelay o) 30000)%Z /\
   (forall z, maxRetries o = Some (Finite z) -> (0 <= z)%Z)).
Proof.
  split.
  - intros [s H].
    destruct (useSSEStream_inr parseURL o s H) as (u & Hu & Hne & Hp & Hd & Hm & _).
    split; [exact Hne|]. split; [now exists u|]. split; assumption.
  - intros (Hne & (u & Hu & Hp) & Hd & Hm).
    now apply (useSSEStream_accepted parseURL o u).
Qed.

(** X18.  For an instance [useSSEStream] returned, a retry is permitted
    after [n] consecutive ones exactly when the options do not switch the
    retries off and [n] is below [maxRetries]; options that say nothing
    about retries permit them without limit. *)
Theorem retry_budget (parseURL : string -> option URL) (o : SSEStreamOptions)
    (s : BetterSSEStream) (n : nat) :
  useSSEStream parseURL o = inr s ->
  may_retry (set_retryCount n s) = true <->
  (retryStrategy o <> Some false /\
   forall z, maxRetries o = Some (Finite z) -> (Z.of_nat n < z)%Z).
Proof.
  intros H.
  destruct (useSSEStream_inr parseURL o s H) as (u & _ & _ & _ & _ & _ & ->).
  unfold may_retry, shouldRetry, new_BetterSSEStream.
  cbn [options retryCount set_retryCount retryStrategy maxRetries nullish truthy_bool].
  destruct (retryStrategy o) as [[|]|]; cbn [nullish andb];
    destruct (maxRetries o) as [[z|]|]; cbn [nullish num_lt].
  all: split; [intros Hlt; split; [try discriminate|intros z' Hz; try discriminate]
              | intros [Hs Hz]; try reflexivity; try congruence].
  all: try (injection Hz as <-; now apply Z.ltb_lt).
  all: try (apply Z.ltb_lt; now apply Hz).
Qed.

Lemma retry_budget_witness :
  may_retry (set_retryCount 7 (new_BetterSSEStream
     {| url := UrlObject Scenario.endpoint;
        withCredentials := Some false; abortController := None;
        retryStrategy := Some true; initialRetryDelay := Some 1000%Z;
        maxRetryDelay := Some 30000%Z; maxRetries := Some Infinity;
        headers := None; lastEventId := None |})) = true <->
  (retryStrategy Scenario.bare <> Some false /\
   forall z, maxRetries Scenario.bare = Some (Finite z) -> (Z.of_nat 7 < z)%Z).
Proof.
  apply (retry_budget Scenario.parseURL Scenario.bare _ 7). reflexivity.
Defined.

(** A delay [reconnect] computes is a number between the initial and the
    maximal delay, and is the maximal delay once the product has
    overflowed, provided the initial delay is not above the maximal one
    and, when it is 0, the power of two has not overflowed. *)
Lemma delay_after_bounded o (k : nat) :
  (0 <= nullish (initialRetryDelay o) 1000 <= nullish (maxRetryDelay o) 30000)%Z ->
  (nullish (initialRetryDelay o) 1000%Z = 0%Z -> (Z.of_nat k <= 1023)%Z) ->
  exists d : Z,
    delay_after o k = Millis d /\
    (nullish (initialRetryDelay o) 1000 <= d <= nullish (maxRetryDelay o) 30000)%Z /\
    d = (if 2 ^ 1024 <=? nullish (initialRetryDelay o) 1000 * 2 ^ Z.of_nat k
         then nullish (maxRetryDelay o) 30000
         else Z.min (nullish (initialRetryDelay o) 1000 * 2 ^ Z.of_nat k)
                    (nullish (maxRetryDelay o) 30000))%Z.
Proof.
  intros Hab Hz. unfold delay_after. cbv zeta.
  set (a := nullish (initialRetryDelay o) 1000%Z) in *.
  set (b := nullish (maxRetryDelay o) 30000%Z) in *.
  assert (Hp : (1 <= 2 ^ Z.of_nat k)%Z).
  { change 1%Z with (2 ^ 0)%Z. apply Z.pow_le_mono_r; lia. }
  assert (HB : (0 < 2 ^ 1024)%Z) by (apply Z.pow_pos_nonneg; lia).
  unfold pow2. destruct (Z.leb_spec (Z.of_nat k) 1023) as [Hk|Hk].
  - cbn [times]. cbv zeta.
    destruct (Z.leb_spec (2 ^ 1024) (a * 2 ^ Z.of_nat k)) as [Ho|Ho].
    + cbn [min_with]. exists b. split; [reflexivity|]. split; [lia|]. reflexivity.
    + destruct (Z.leb_spec (a * 2 ^ Z.of_nat k) (- 2 ^ 1024)) as [Hn|Hn]; [nia|].
      cbn [min_with]. eexists. split; [reflexivity|]. split; [nia|]. reflexivity.
  - assert (Hpos : (0 < a)%Z).
    { destruct (Z.eq_dec a 0) as [E|E]; [specialize (Hz E); lia | lia]. }
    cbn [times]. destruct (Z.ltb_spec 0 a) as [_|]; [|lia].
    cbn [min_with]. exists b. split; [reflexivity|]. split; [lia|].
    assert (Hbig : (2 ^ 1024 <= 2 ^ Z.of_nat k)%Z) by (apply Z.pow_le_mono_r; lia).
    destruct (Z.leb_spec (2 ^ 1024) (a * 2 ^ Z.of_nat k)) as [_|Ho]; [reflexivity|nia].
Qed.

(** X19.  For an instance [useSSEStream] returned, whose options hold
    integers, the delay [reconnect] computes before retry [n + 1] is a
    number between the initial and the maximal delay of the options,
    defaults filled in, and the delay before the following retry is not
    smaller; this for an initial delay above 0 at every [n], and for an
    initial delay of 0 as long as [2^(n+1)] has not overflowed, that is up
    to the 1023rd retry in a row. *)
Theorem backoff_within_bounds (parseURL : string -> option URL) (o : SSEStreamOptions)
    (s : BetterSSEStream) (n : nat) :
  useSSEStream parseURL o = inr s ->
  (nullish (initialRetryDelay o) 1000%Z = 0%Z -> (Z.of_nat n <= 1022)%Z) ->
  exists d d' : Z,
    delay_after (options s) n = Millis d /\
    delay_after (options s) (S n) = Millis d' /\
    (nullish (initialRetryDelay o) 1000 <= d <= nullish (maxRetryDelay o) 30000)%Z /\
    (d <= d' <= nullish (maxRetryDelay o) 30000)%Z.
Proof.
  intros H Hz.
  destruct (useSSEStream_inr parseURL o s H) as (u & _ & _ & _ & Hd & _ & ->).
  unfold new_BetterSSEStream. cbn [options].
  set (o' := {| url := UrlObject u |}).
  assert (Ea : nullish (initialRetryDelay o') 1000%Z = nullish (initialRetryDelay o) 1000%Z)
    by reflexivity.
  assert (Eb : nullish (maxRetryDelay o') 30000%Z = nullish (maxRetryDelay o) 30000%Z)
    by reflexivity.
  destruct (delay_after_bounded o' n) as (d & E & Hb & Hf);
    [rewrite Ea, Eb; exact Hd | rewrite Ea; intros E0; specialize (Hz E0); lia |].
  destruct (delay_after_bounded o' (S n)) as (d' & E' & Hb' & Hf');
    [rewrite Ea, Eb; exact Hd | rewrite Ea; intros E0; specialize (Hz E0); lia |].
  rewrite Ea, Eb in *.
  exists d, d'. split; [exact E|]. split; [exact E'|]. split; [exact Hb|].
  split; [|lia].
  assert (Hp : (1 <= 2 ^ Z.of_nat n)%Z).
  { change 1%Z with (2 ^ 0)%Z. apply Z.pow_le_mono_r; lia. }
  assert (Hs : (2 ^ Z.of_nat (S n) = 2 * 2 ^ Z.of_nat n)%Z).
  { rewrite Nat2Z.inj_succ, Z.pow_succ_r by lia. reflexivity. }
  rewrite Hs in Hf'. subst d d'.
  set (a := nullish (initialRetryDelay o) 1000%Z) in *.
  set (b := nullish (maxRetryDelay o) 30000%Z) in *.
  generalize dependent (2 ^ 1024)%Z. intros B. generalize dependent (2 ^ Z.of_nat n)%Z.
  intros p. intros.
  destruct (Z.leb_spec B (a * p)) as [Ho|Ho];
    destruct (Z.leb_spec B (a * (2 * p))) as [Ho'|Ho']; nia.
Qed.

Lemma backoff_within_bounds_witness :
  let s := new_BetterSSEStream
     {| url := UrlObject Scenario.endpoint;
        withCredentials := Some false; abortController := None;
        retryStrategy := Some true; initialRetryDelay := Some 1000%Z;
        maxRetryDelay := Some 30000%Z; maxRetries := Some Infinity;
        headers := None; lastEventId := None |} in
  exists d d' : Z,
    delay_after (options s) 3 = Millis d /\
    delay_after (options s) 4 = Millis d' /\
    (1000 <= d <= 30000)%Z /\ (d <= d' <= 30000)%Z.
Proof.
  cbv zeta.
  apply (backoff_within_bounds Scenario.parseURL Scenario.bare _ 3);
    [reflexivity | discriminate].
Defined.

Section RequestHeaders.

Variable parseURL : string -> option URL.

Lemma request_headers_fixed s hs :
  connect_headers s = Some hs ->
  headers_get "Accept" hs = Some "text/event-stream"%string /\
  headers_get "Cache-Control" hs = Some "no-cache"%string /\
  forall name,
    lowercase name <> "accept"%string ->
    lowercase name <> "cache-control"%string ->
    lowercase name <> "last-event-id"%string ->
    headers_get name hs
    = headers_get name (new_Headers (headers (options s))).
Proof.
  rewrite connect_headers_cursor. cbv zeta. unfold headers_set.
  destruct (truthy_string (currentLastEventId s));
    [destruct (validValue (normalize (nullish (currentLastEventId s) EmptyString)));
     [|discriminate]|].
  all: intros [= <-].
  all: split; [|split; [|intros name H1 H2 H3]].
  all: repeat rewrite headers_get_set_other
         by (change (lowercase "Accept") with "accept"%string;
             change (lowercase "Cache-Control") with "cache-control"%string;
             change (lowercase "Last-Event-ID") with "last-event-id"%string;
             congruence).
  all: try apply headers_get_set_same.
  all: reflexivity.
Qed.

Lemma carries_sse_headers s e : carries s e -> sse_headers (options s) e.
Proof.
  destruct e as [r| | |]; cbn; auto.
  intros H. now apply request_headers_fixed.
Qed.

Lemma perform_sse_headers fuel c s w :
  let st' := snd (perform parseURL fuel c (s, w)) in
  options (fst st') = options s /\
  exists new, trace (snd st') = trace w ++ new /\ Forall (sse_headers (options s)) new.
Proof.
  cbv zeta. destruct c; cbn [perform].
  - unfold bind.
    destruct (next parseURL fuel (s, w)) as [r [s1 w1]] eqn:E.
    apply next_moved in E. destruct E as (Ho & _ & new & Hn & Hf). norm.
    assert (Hf' : Forall (sse_headers (options s)) new).
    { eapply Forall_impl; [|exact Hf]. intros e. apply carries_sse_headers. }
    destruct r as [[m|]|e|]; unfold yielded, ret; norm.
    2-4: split; [exact Ho | exists new; split; [exact Hn | exact Hf']].
    split; [exact Ho|]. exists (new ++ [Yielded m]). split.
    + cbn [log trace]. now rewrite Hn, app_assoc.
    + apply Forall_app. split; [exact Hf'|]. repeat constructor.
  - unfold bind. destruct (close_quiet (s, w)) as (Ho & _ & Ht).
    destruct (close (s, w)) as [[[]|e|] [s1 w1]]; norm.
    all: split; [exact Ho | exists []; split; [now rewrite app_nil_r | constructor]].
  - destruct (return_quiet (s, w)) as (Ho & _ & Ht).
    destruct (return_ (s, w)) as [r [s1 w1]]. norm.
    split; [exact Ho | exists []; split; [now rewrite app_nil_r | constructor]].
  - unfold bind, gets, abort_signal, ret. norm.
    destruct (abortController (options s)); norm.
    all: split; [reflexivity | exists []; split; [now rewrite app_nil_r | constructor]].
Qed.

Lemma session_sse_headers fuel calls : forall s w,
  exists new,
    trace (snd (snd (session parseURL fuel calls (s, w)))) = trace w ++ new /\
    Forall (sse_headers (options s)) new.
Proof.
  induction calls as [|c calls IH]; intros s w; cbn [session].
  - exists []. split; [now rewrite app_nil_r | constructor].
  - destruct (perform_sse_headers fuel c s w) as (Ho & new1 & Ht1 & Hf1).
    destruct (perform parseURL fuel c (s, w)) as [r [s1 w1]]. cbn [fst snd] in *.
    destruct (IH s1 w1) as (new2 & Ht2 & Hf2).
    destruct (session parseURL fuel calls (s1, w1)) as [rs [s2 w2]]. cbn [fst snd] in *.
    exists (new1 ++ new2). split.
    + now rewrite Ht2, Ht1, app_assoc.
    + apply Forall_app. split; [exact Hf1|]. now rewrite <- Ho.
Qed.

End RequestHeaders.

(** X20.  Whatever the consumer calls and whatever the server and the
    signal do, every request an iterator sends asks for
    [text/event-stream] with [Cache-Control: no-cache], custom headers of
    these names being overridden whatever their case, and carries the
    custom headers of every other name, [Last-Event-ID] apart, as the
    options give them. *)
Theorem requests_ask_for_event_stream (parseURL : string -> option URL) (fuel : nat)
    (calls : list Call) (s : BetterSSEStream) (w : World) :
  exists new,
    trace (snd (snd (session parseURL fuel calls (s, w)))) = trace w ++ new /\
    Forall (sse_headers (options s)) new.
Proof.
  apply session_sse_headers.
Qed.

(** X21.  The id of a message is the value of the last id line of its
    frame that holds no NUL, and is absent when the frame has no such
    line: an id line with a NUL in its value changes nothing. *)
Theorem id_last_without_nul (frame : string) (m : SSEMessage.t) :
  parse_transform frame = [m] ->
  SSEMessage.id m = Wire.last_value Wire.id_ok "id" (Js.split frame EOL) None.
Proof.
  intros Hp. rewrite parse_transform_spec in Hp. cbv zeta in Hp.
  destruct (Wire.data_values (Js.split frame EOL)); [discriminate|].
  now injection Hp as <-.
Qed.

Lemma id_last_without_nul_witness :
  let frame := unlines ["id: 7"; "data: x"; String "i" (String "d" (String ":" (String NUL "8")))]%string in
  SSEMessage.id (SSEMessage.mk "message" "x" (Some "7"%string) None)
  = Wire.last_value Wire.id_ok "id" (Js.split frame EOL) None.
Proof.
  cbv zeta.
  apply (id_last_without_nul
           (unlines ["id: 7"; "data: x";
                     String "i" (String "d" (String ":" (String NUL "8")))]%string)).
  reflexivity.
Defined.

(** X22.  The events of a connection whose body the server closes are the
    events of the pieces of the whole text between delimiters that pass
    the filter, piece by piece and in order, each piece giving one event
    or none. *)
Theorem pipeline_events (valid : string -> bool) (chunks : list string) :
  drain (processedStream valid) chunks
  = flat_map parse_transform (filter valid (Js.split (text_of chunks) DELIM)) /\
  (List.length (drain (processedStream valid) chunks)
   <= List.length (filter valid (Js.split (text_of chunks) DELIM)))%nat.
Proof.
  assert (E : drain (processedStream valid) chunks
              = flat_map parse_transform (filter valid (Js.split (text_of chunks) DELIM))).
  { unfold processedStream.
    now rewrite drain_pipeThrough, drain_createSplitStream, drain_createParseStream. }
  split; [exact E|]. rewrite E. clear E.
  induction (filter valid (Js.split (text_of chunks) DELIM)) as [|f fs IH]; [reflexivity|].
  cbn [flat_map List.length]. rewrite length_app.
  assert (H : (List.length (parse_transform f) <= 1)%nat).
  { rewrite parse_transform_spec. cbv zeta.
    destruct (Wire.data_values (Js.split f EOL)); cbn; lia. }
  lia.
Qed.

Section Endless.

Variable parseURL : string -> option URL.

Lemma half_step n : (S (S n) / 2 = S (n / 2))%nat.
Proof.
  replace (S (S n)) with (n + 1 * 2)%nat by lia.
  rewrite Nat.div_add by lia. lia.
Qed.

(** With retries enabled and no limit, and a server that fails every
    time, [connect] goes on for ever: whatever the fuel it is still
    pending, having sent a request for every two units of fuel. *)
Lemma connect_endless : forall fuel s w u,
  calm s w = true ->
  target parseURL s = Some u ->
  truthy_bool (retryStrategy (options s)) = true ->
  nullish (maxRetries (options s)) Infinity = Infinity ->
  (forall k, failure (server w (requests w + k)) <> None) ->
  exists s' w' new,
    connect parseURL fuel (s, w) = (Pending, (s', w')) /\
    trace w' = trace w ++ new /\
    sent new = ((fuel + 1) / 2)%nat /\
    delays new = map (delay_after (options s)) (seq (retryCount s) (fuel / 2)).
Proof.
  intros fuel.
  assert (H : forall f, (f <= fuel)%nat -> forall s w u,
    calm s w = true ->
    target parseURL s = Some u ->
    truthy_bool (retryStrategy (options s)) = true ->
    nullish (maxRetries (options s)) Infinity = Infinity ->
    (forall k, failure (server w (requests w + k)) <> None) ->
    exists s' w' new,
      connect parseURL f (s, w) = (Pending, (s', w')) /\
      trace w' = trace w ++ new /\
      sent new = ((f + 1) / 2)%nat /\
      delays new = map (delay_after (options s)) (seq (retryCount s) (f / 2))).
  2: { apply (H fuel). lia. }
  induction fuel as [|fuel IH]; intros f Hf s w u Hc Hu Hr Hmax Hfail.
  - replace f with 0%nat by lia.
    exists s, w, []. cbn. now rewrite app_nil_r.
  - destruct f as [|[|f]].
    + exists s, w, []. cbn. now rewrite app_nil_r.
    + destruct (failure (server w (requests w))) as [e|] eqn:Ef.
      2: { exfalso. apply (Hfail 0%nat). now rewrite Nat.add_0_r. }
      rewrite (connect_fails parseURL 0 s w u e Hc Hu Ef).
      assert (Hm : may_retry s = true).
      { unfold may_retry, shouldRetry. rewrite Hr, Hmax. reflexivity. }
      rewrite Hm. exists s, (requested u s w), [Fetched (request_to u s)].
      repeat split.
    + destruct (failure (server w (requests w))) as [e|] eqn:Ef.
      2: { exfalso. apply (Hfail 0%nat). now rewrite Nat.add_0_r. }
      rewrite (connect_fails parseURL (S f) s w u e Hc Hu Ef).
      assert (Hm : may_retry s = true).
      { unfold may_retry, shouldRetry. rewrite Hr, Hmax. reflexivity. }
      rewrite Hm.
      assert (Hc1 : calm s (requested u s w) = true) by exact Hc.
      rewrite (reconnect_waits parseURL f s (requested u s w) Hc1). cbv zeta.
      set (s1 := set_retryCount (S (retryCount s)) s).
      set (w1 := log (TimerElapsed (delay_after (options s) (retryCount s)))
                     (requested u s w)).
      destruct (IH f ltac:(lia) s1 w1 u) as (s' & w' & new & E & Ht & Hn & Hd); auto.
      { intros k. unfold w1. cbn [requested count_request log requests server].
        replace (S (requests w) + k)%nat with (requests w + S k)%nat by lia.
        apply Hfail. }
      exists s', w',
        (Fetched (request_to u s)
         :: TimerElapsed (delay_after (options s) (retryCount s)) :: new).
      split; [exact E|]. split; [|split].
      * rewrite Ht. unfold w1. cbn [requested count_request log trace].
        now rewrite <- !app_assoc.
      * cbn [sent]. rewrite Hn.
        replace (S (S f) + 1)%nat with (S (S (f + 1))) by lia.
        now rewrite half_step.
      * cbn [delays]. rewrite Hd, half_step. reflexivity.
Qed.

End Endless.

(** X23.  With retries enabled and no limit on them, as the defaults of
    [useSSEStream] have it, and a server that fails every time, the first
    pull never settles: however long it is given, it is still pending,
    having sent one request after the other and waited between them for
    the delays [reconnect] computes in its floating-point arithmetic
    ([delay_after]: the capped product, and [NaN] once the power of two
    has overflowed when the initial delay is 0). *)
Theorem unlimited_retries_never_settle (parseURL : string -> option URL) (fuel : nat)
    (s : BetterSSEStream) (w : World) (u : URL) :
  reader s = None -> stream s = None ->
  calm s w = true ->
  target parseURL s = Some u ->
  truthy_bool (retryStrategy (options s)) = true ->
  nullish (maxRetries (options s)) Infinity = Infinity ->
  (forall k, failure (server w (requests w + k)) <> None) ->
  exists s' w' new,
    next parseURL (S fuel) (s, w) = (Pending, (s', w')) /\
    trace w' = trace w ++ new /\
    sent new = ((fuel + 1) / 2)%nat /\
    delays new = map (delay_after (options s)) (seq (retryCount s) (fuel / 2)).
Proof.
  intros Hrd Hs Hc Hu Hr Hmax Hfail.
  destruct (connect_endless parseURL fuel s w u Hc Hu Hr Hmax Hfail)
    as (s' & w' & new & E & Ht & Hn & Hd).
  exists s', w', new. split; [|repeat split; assumption].
  cbn [next]. unfold bind at 1. unfold next_reader, bind, gets, ret. norm.
  rewrite Hrd. norm. rewrite Hs. rewrite E. reflexivity.
Qed.

Lemma unlimited_retries_never_settle_witness :
  let s := new_BetterSSEStream (Scenario.opts None None) in
  let w := Scenario.host Scenario.refuses None in
  exists s' w' new,
    next Scenario.parseURL 14 (s, w) = (Pending, (s', w')) /\
    trace w' = trace w ++ new /\
    sent new = 7%nat /\
    delays new = [Millis 1000; Millis 2000; Millis 4000; Millis 8000; Millis 16000;
                  Millis 30000].
Proof.
  cbv zeta.
  apply (unlimited_retries_never_settle Scenario.parseURL 13
           (new_BetterSSEStream (Scenario.opts None None))
           (Scenario.host Scenario.refuses None) Scenario.endpoint);
    try reflexivity.
  intros k. discriminate.
Defined.

(** X24.  The stream being read has ended, a retry is permitted, and the
    signal of the supplied controller fires while the pull waits for the
    backoff delay: the timer is cleared, no request is sent, and the pull
    resolves as end-of-sequence. *)
Theorem abort_during_backoff (parseURL : string -> option URL) (fuel : nat)
    (s : BetterSSEStream) (w : World) (c : AbortController) (h : nat)
    (ms : MessageStream) :
  abortController (options s) = Some c ->
  aborted w = false -> abortAfter w = Some 1%nat ->
  reader s = Some h -> nth_error (streams w) h = Some ms ->
  cancelled ms = true \/ (queue ms = [] /\ stream_end ms = BodyCloses) ->
  may_retry s = true ->
  exists s' w',
    next parseURL (S (S fuel)) (s, w) = (Normal IterDone, (s', w')) /\
    trace w' = trace w ++ [TimerCleared (delay_after (options s) (retryCount s))] /\
    requests w' = requests w /\ aborted w' = true /\
    reader s' = None /\ stream s' = None.
Proof.
  intros Hc Ha Haf Hr Hn Hend Hm. unfold may_retry in Hm.
  cbn [next]. unfold bind at 1. unfold next_reader, bind, gets, ret. norm.
  rewrite Hr. norm.
  unfold try_catch, next_try. unfold bind at 1.
  unfold read, deliver, suspend. rewrite Hc. cbn [signal_aborted]. rewrite Ha, Haf.
  cbn [streams set_signal]. rewrite Hn.
  assert (Hcases : cancelled ms = true \/
                   (cancelled ms = false /\ queue ms = [] /\ stream_end ms = BodyCloses)).
  { destruct Hend as [H|[H1 H2]]; [now left|].
    destruct (cancelled ms); [now left | now right]. }
  destruct Hcases as [Hcan | (Hcan & Hq & He)]; rewrite Hcan; try rewrite Hq, He.
  all: unfold bind, gets, modify, ret; norm.
  all: change (shouldRetry (set_reader None s)) with (shouldRetry s); rewrite Hm; norm.
  all: cbn [reconnect]; unfold bind, gets, modify, is_aborted, timer, suspend, throw, ret; norm.
  all: rewrite ?Hc; cbn [signal_aborted aborted abortAfter set_signal snd].
  all: norm; rewrite ?Hc, ?Ha; norm.
  all: unfold next_catch; cbn [instanceof_Error named_AbortError negb andb].
  all: unfold bind, modify, ret; norm.
  all: eexists; eexists; split; [reflexivity|].
  all: repeat split.
Qed.

Lemma abort_during_backoff_witness :
  let s := {| options := Scenario.opts None (Some Controller); retryCount := 0;
              currentLastEventId := None; stream := Some 0%nat; reader := Some 0%nat |} in
  let ms := {| queue := []; stream_end := BodyCloses; cancelled := false |} in
  let w := set_streams [ms] (Scenario.host (Scenario.recovers 0) (Some 1%nat)) in
  exists s' w',
    next Scenario.parseURL 2 (s, w) = (Normal IterDone, (s', w')) /\
    trace w' = trace w ++ [TimerCleared 1000%Z] /\
    requests w' = requests w /\ aborted w' = true /\
    reader s' = None /\ stream s' = None.
Proof.
  cbv zeta.
  apply (abort_during_backoff Scenario.parseURL 0
           {| options := Scenario.opts None (Some Controller); retryCount := 0;
              currentLastEventId := None; stream := Some 0%nat; reader := Some 0%nat |}
           (set_streams [{| queue := []; stream_end := BodyCloses; cancelled := false |}]
              (Scenario.host (Scenario.recovers 0) (Some 1%nat)))
           Controller 0%nat
           {| queue := []; stream_end := BodyCloses; cancelled := false |});
    try reflexivity.
  right. split; reflexivity.
Defined.



